(** * SonoFlow backend: medical transcript enhancement and the voice
      streaming session

    A shallow embedding of two parts of the backend:

    - [services/medicalEnhancement.ts]: [extractMeasurements],
      [classifySection], [standardizeTerms] and [detectFindings], together
      with the fragment of JavaScript strings and regular expressions these
      functions rely on;
    - [server.ts]: the Socket.IO handlers [start-streaming], [audio-chunk],
      [stop-streaming] and [disconnect] and the two callbacks registered on
      the recognition stream, as a transition function on the closure
      variable [recognizeStream].

    Around them: [enhanceTranscript], which combines the four functions of
    the service; the handlers [POST /extract-fields] and [GET /modes] of
    [routes/voice.ts]; and the [classifySection] of the MCP server
    ([mcp-server/medical-transcription.ts]) with its own section table. *)

From Stdlib Require Import String Ascii List NArith ZArith QArith Bool Arith Lia
  Permutation Sorted.
Import ListNotations.
Close Scope Q_scope.

(** ** JavaScript strings *)

Module JS.

(** A JavaScript string is a sequence of UTF-16 code units. *)
Definition jsstring := list N.

(** The source file is UTF-8; [decode] turns the bytes of a literal into
    the code units the JavaScript engine sees (a surrogate pair for a
    four-byte sequence). *)
Fixpoint decode (bs : list N) : jsstring :=
  match bs with
  | [] => []
  | b0 :: t0 =>
    if (b0 <? 0x80)%N then b0 :: decode t0
    else match t0 with
    | [] => [0xFFFD%N]
    | b1 :: t1 =>
      if (b0 <? 0xE0)%N then
        N.lor (N.shiftl (N.land b0 0x1F) 6) (N.land b1 0x3F) :: decode t1
      else match t1 with
      | [] => [0xFFFD%N]
      | b2 :: t2 =>
        if (b0 <? 0xF0)%N then
          N.lor (N.shiftl (N.land b0 0x0F) 12)
                (N.lor (N.shiftl (N.land b1 0x3F) 6) (N.land b2 0x3F)) :: decode t2
        else match t2 with
        | [] => [0xFFFD%N]
        | b3 :: t3 =>
          let cp := N.lor (N.shiftl (N.land b0 0x07) 18)
                   (N.lor (N.shiftl (N.land b1 0x3F) 12)
                   (N.lor (N.shiftl (N.land b2 0x3F) 6) (N.land b3 0x3F))) in
          let v := (cp - 0x10000)%N in
          (0xD800 + N.shiftr v 10)%N :: (0xDC00 + N.land v 0x3FF)%N :: decode t3
        end
      end
    end
  end.

Definition js (s : string) : jsstring :=
  decode (map N_of_ascii (list_ascii_of_string s)).

Definition unit_eqb (a b : N) : bool := (a =? b)%N.

Fixpoint jsstring_eqb (a b : jsstring) : bool :=
  match a, b with
  | [], [] => true
  | x :: a', y :: b' => unit_eqb x y && jsstring_eqb a' b'
  | _, _ => false
  end.

Definition between (lo hi c : N) : bool := ((lo <=? c) && (c <=? hi))%N.

(** Case mapping of one code unit.  The tables below cover Basic Latin,
    the basic Cyrillic block and Armenian, the three scripts that occur in
    the service's dictionaries and patterns; every other code unit is left
    as it is. *)
Definition toUpperCase_unit (c : N) : N :=
  if between 0x61 0x7A c then (c - 32)%N
  else if between 0x430 0x44F c then (c - 32)%N
  else if between 0x450 0x45F c then (c - 80)%N
  else if between 0x561 0x586 c then (c - 48)%N
  else c.

Definition toLowerCase_unit (c : N) : N :=
  if between 0x41 0x5A c then (c + 32)%N
  else if between 0x410 0x42F c then (c + 32)%N
  else if between 0x400 0x40F c then (c + 80)%N
  else if between 0x531 0x556 c then (c + 48)%N
  else c.

(** [String.prototype.toLowerCase]. *)
Definition toLowerCase (s : jsstring) : jsstring := map toLowerCase_unit s.

(** [s.startsWith(p)] read at the front of [s]. *)
Fixpoint startsWith (p s : jsstring) : bool :=
  match p, s with
  | [], _ => true
  | _ :: _, [] => false
  | x :: p', y :: s' => unit_eqb x y && startsWith p' s'
  end.

(** [s.includes(p)]: [p] starts at some index of [s]. *)
Fixpoint includes (s p : jsstring) : bool :=
  startsWith p s ||
  match s with
  | [] => false
  | _ :: s' => includes s' p
  end.

(** [s.replace(p, r)] with a string pattern: only the first occurrence of
    [p] is replaced. *)
Fixpoint replace_first (p r s : jsstring) : jsstring :=
  if startsWith p s then r ++ skipn (length p) s
  else match s with
       | [] => []
       | c :: s' => c :: replace_first p r s'
       end.

(** *** Character classes *)

Definition is_digit (c : N) : bool := between 0x30 0x39 c.

(** [\s]: WhiteSpace and LineTerminator. *)
Definition is_space (c : N) : bool :=
  between 0x09 0x0D c || unit_eqb c 0x20 || unit_eqb c 0xA0 ||
  unit_eqb c 0x1680 || between 0x2000 0x200A c || unit_eqb c 0x2028 ||
  unit_eqb c 0x2029 || unit_eqb c 0x202F || unit_eqb c 0x205F ||
  unit_eqb c 0x3000 || unit_eqb c 0xFEFF.

(** The word characters of [\b] (no [u] flag): [A-Za-z0-9_]. *)
Definition is_word (c : N) : bool :=
  between 0x41 0x5A c || between 0x61 0x7A c || is_digit c || unit_eqb c 0x5F.

(** *** Regular expressions

    The constructs used by the service's patterns, matched the way the
    ECMAScript backtracking matcher does: alternatives left to right,
    greedy quantifiers, the first complete match wins. *)

Inductive regex : Type :=
| Eps
| Lit (c : N)
| Class (p : N -> bool)
| Seq (r1 r2 : regex)
| Alt (r1 r2 : regex)
| Star (r : regex)
| Capture (r : regex)
| WordBoundary.

Definition Plus (r : regex) : regex := Seq r (Star r).
Definition Opt (r : regex) : regex := Alt r Eps.

(** A literal string in a pattern. *)
Fixpoint Str (s : jsstring) : regex :=
  match s with
  | [] => Eps
  | c :: s' => Seq (Lit c) (Str s')
  end.

(** [a|b|c]. *)
Fixpoint Alts (rs : list regex) : regex :=
  match rs with
  | [] => Class (fun _ => false)
  | [r] => r
  | r :: rs' => Alt r (Alts rs')
  end.

(** Matcher state: the index reached in the input, the code unit before
    it, the input that remains and the text of capture group 1 (no
    pattern of the service has more than one group). *)
Record mstate : Type := MState {
  endIndex : nat;
  prev : option N;
  rest : jsstring;
  group1 : option jsstring
}.

Definition advance (st : mstate) (c : N) (tl : jsstring) : mstate :=
  MState (S (endIndex st)) (Some c) tl (group1 st).

(** Canonicalize of the [i] flag: upper-case the code unit. *)
Definition char_matches (ignoreCase : bool) (pat c : N) : bool :=
  if ignoreCase then unit_eqb (toUpperCase_unit pat) (toUpperCase_unit c)
  else unit_eqb pat c.

Definition at_word_boundary (st : mstate) : bool :=
  let a := match prev st with Some c => is_word c | None => false end in
  let b := match rest st with c :: _ => is_word c | [] => false end in
  xorb a b.

(** The matcher, in continuation-passing style: [k] is the rest of the
    pattern.  An iteration of [Star] that consumes nothing is rejected, as
    RepeatMatcher does; the loop runs at most once per remaining code
    unit. *)
Fixpoint rmatch (ignoreCase : bool) (r : regex) (st : mstate)
         (k : mstate -> option mstate) {struct r} : option mstate :=
  match r with
  | Eps => k st
  | Lit p =>
    match rest st with
    | c :: tl => if char_matches ignoreCase p c then k (advance st c tl) else None
    | [] => None
    end
  | Class p =>
    match rest st with
    | c :: tl => if p c then k (advance st c tl) else None
    | [] => None
    end
  | Seq r1 r2 => rmatch ignoreCase r1 st (fun st' => rmatch ignoreCase r2 st' k)
  | Alt r1 r2 =>
    match rmatch ignoreCase r1 st k with
    | Some res => Some res
    | None => rmatch ignoreCase r2 st k
    end
  | Star r' =>
    (fix loop (n : nat) (st : mstate) {struct n} : option mstate :=
       match n with
       | O => k st
       | S n' =>
         match rmatch ignoreCase r' st
                 (fun st' => if endIndex st <? endIndex st' then loop n' st' else None) with
         | Some res => Some res
         | None => k st
         end
       end) (length (rest st)) st
  | Capture r' =>
    rmatch ignoreCase r' st
      (fun st' =>
         k (MState (endIndex st') (prev st') (rest st')
                   (Some (firstn (endIndex st' - endIndex st) (rest st)))))
  | WordBoundary => if at_word_boundary st then k st else None
  end.

(** One attempt at the current index. *)
Definition match_here (ignoreCase : bool) (r : regex) (i : nat) (p : option N)
           (s : jsstring) : option mstate :=
  rmatch ignoreCase r (MState i p s None) Some.

(** [RegExp.prototype.exec] without the [g] flag: the leftmost index at
    which the pattern matches. *)
Fixpoint exec_from (ignoreCase : bool) (r : regex) (i : nat) (p : option N)
         (s : jsstring) : option mstate :=
  match match_here ignoreCase r i p s with
  | Some res => Some res
  | None =>
    match s with
    | [] => None
    | c :: s' => exec_from ignoreCase r (S i) (Some c) s'
    end
  end.

(** [s.match(re)] for a pattern without the [g] flag. *)
Definition exec (ignoreCase : bool) (r : regex) (s : jsstring) : option mstate :=
  exec_from ignoreCase r 0 None s.

(** [re.test(s)]. *)
Definition test (ignoreCase : bool) (r : regex) (s : jsstring) : bool :=
  match exec ignoreCase r s with Some _ => true | None => false end.

(** [s.replace(re, replacement)] with the [g] flag and a replacement text
    without [$]: every match, found left to right on the original string,
    is replaced.  [skip] counts the code units of the current match that
    are still to be passed over. *)
Fixpoint replace_from (ignoreCase : bool) (r : regex) (replacement : jsstring)
         (i : nat) (p : option N) (s : jsstring) (skip : nat) : jsstring :=
  match skip, s with
  | S n, c :: s' => replace_from ignoreCase r replacement (S i) (Some c) s' n
  | S _, [] => []
  | O, _ =>
    match match_here ignoreCase r i p s, s with
    | Some res, c :: s' =>
      match endIndex res - i with
      | O => replacement ++ c :: replace_from ignoreCase r replacement (S i) (Some c) s' 0
      | S n => replacement ++ replace_from ignoreCase r replacement (S i) (Some c) s' n
      end
    | Some _, [] => replacement
    | None, c :: s' => c :: replace_from ignoreCase r replacement (S i) (Some c) s' 0
    | None, [] => []
    end
  end.

Definition replace_all (ignoreCase : bool) (r : regex) (replacement s : jsstring)
  : jsstring :=
  replace_from ignoreCase r replacement 0 None s 0.

(** The state after [n] more code units of the input. *)
Fixpoint consume (n : nat) (st : mstate) : mstate :=
  match n, rest st with
  | S n', c :: tl => consume n' (advance st c tl)
  | _, _ => st
  end.

(** The literal [p] is read at the front of [s], under the [i] flag or
    not. *)
Fixpoint starts_with (ignoreCase : bool) (p s : jsstring) : bool :=
  match p, s with
  | [], _ => true
  | _ :: _, [] => false
  | x :: p', y :: s' => char_matches ignoreCase x y && starts_with ignoreCase p' s'
  end.

(** The literal [p] is read somewhere in [s]. *)
Fixpoint occurs (ignoreCase : bool) (p s : jsstring) : bool :=
  starts_with ignoreCase p s ||
  match s with
  | [] => false
  | _ :: s' => occurs ignoreCase p s'
  end.

(** A code unit that has an upper or a lower case. *)
Definition is_letter (c : N) : bool :=
  negb (unit_eqb (toUpperCase_unit c) c) || negb (unit_eqb (toLowerCase_unit c) c).

(** *** Numbers *)

(** A JavaScript number, as far as the service produces one: [NaN] or a
    rational.  The engine rounds a literal to the nearest double; the
    rationals met here (small integers, 8.5) are doubles themselves. *)
Inductive number : Type :=
| NaN
| Num (q : Q).

Definition digit_value (c : N) : Z := Z.of_N (c - 0x30).

Fixpoint take_digits (s : jsstring) : jsstring * jsstring :=
  match s with
  | c :: s' =>
    if is_digit c then let (d, tl) := take_digits s' in (c :: d, tl)
    else ([], s)
  | [] => ([], [])
  end.

Definition digits_value (d : jsstring) : Z :=
  fold_left (fun acc c => (10 * acc + digit_value c)%Z) d 0%Z.

Fixpoint skip_space (s : jsstring) : jsstring :=
  match s with
  | c :: s' => if is_space c then skip_space s' else s
  | [] => []
  end.

(** [parseInt(s)] on its decimal path: leading white space, an optional
    sign, then the longest run of decimal digits; [NaN] when there is
    none.  (The [0x] prefix is not modelled: the service passes a group
    captured by [\d+].) *)
Definition parseInt (s : jsstring) : number :=
  let s := skip_space s in
  let '(sign, s) :=
    match s with
    | c :: s' => if unit_eqb c 0x2D then ((-1)%Z, s')
                 else if unit_eqb c 0x2B then (1%Z, s') else (1%Z, s)
    | [] => (1%Z, s)
    end in
  match take_digits s with
  | ([], _) => NaN
  | (d, _) => Num (inject_Z (sign * digits_value d))
  end.

(** [parseFloat(s)] on the texts [\d+\.?\d*] can capture: digits, then
    optionally a point and more digits (no exponent). *)
Definition parseFloat (s : jsstring) : number :=
  let s := skip_space s in
  match take_digits s with
  | ([], _) => NaN
  | (d, tl) =>
    match tl with
    | c :: tl' =>
      if unit_eqb c 0x2E then
        let (f, _) := take_digits tl' in
        Num (Qred (Qmake (digits_value (d ++ f))
                         (Z.to_pos (10 ^ Z.of_nat (length f)))))
      else Num (inject_Z (digits_value d))
    | [] => Num (inject_Z (digits_value d))
    end
  end.

End JS.

(** ** The enhancement service ([services/medicalEnhancement.ts]) *)

Module Enhancement.
Import JS.

(** [MEDICAL_TERMS], in the insertion order [Object.entries] yields. *)
Definition MEDICAL_TERMS : list (jsstring * jsstring) :=
  [ (js "left ventricle", js "LV");
    (js "right ventricle", js "RV");
    (js "left atrium", js "LA");
    (js "right atrium", js "RA");
    (js "ejection fraction", js "EF");
    (js "mitral valve", js "MV");
    (js "aortic valve", js "AV");
    (js "tricuspid valve", js "TV");
    (js "pulmonary valve", js "PV");
    (js "левый желудочек", js "left ventricle (LV)");
    (js "правый желудочек", js "right ventricle (RV)");
    (js "левое предсердие", js "left atrium (LA)");
    (js "правое предсердие", js "right atrium (RA)");
    (js "митральный клапан", js "mitral valve (MV)");
    (js "аортальный клапан", js "aortic valve (AV)");
    (js "трикуспидальный клапан", js "tricuspid valve (TV)");
    (js "фракция выброса", js "ejection fraction (EF)");
    (js "ձախ փորոք", js "left ventricle (LV)");
    (js "աջ փորոք", js "right ventricle (RV)");
    (js "ձախ ականջնակ", js "left atrium (LA)");
    (js "աջ ականջնակ", js "right atrium (RA)");
    (js "միտրալ փական", js "mitral valve (MV)");
    (js "աորտալ փական", js "aortic valve (AV)") ].

(** [PROCEDURE_SECTIONS]: the own properties of the object literal. *)
Definition PROCEDURE_SECTIONS : list (jsstring * list jsstring) :=
  [ (js "echocardiogram",
     [ js "Left Ventricle"; js "Right Ventricle"; js "Left Atrium";
       js "Right Atrium"; js "Mitral Valve"; js "Aortic Valve";
       js "Tricuspid Valve"; js "Pulmonary Valve"; js "Pericardium";
       js "Overall Assessment" ]);
    (js "obstetric-ultrasound",
     [ js "Fetal Biometry"; js "Amniotic Fluid"; js "Placenta";
       js "Fetal Anatomy"; js "Doppler Studies"; js "Fetal Position" ]);
    (js "abdominal-ultrasound",
     [ js "Liver"; js "Gallbladder"; js "Kidneys"; js "Spleen";
       js "Pancreas"; js "Aorta" ]) ].

(** [interface MeasurementResult]: the four keys the extractor writes. *)
Record MeasurementResult : Type := {
  ejection_fraction : option number;
  biparietal_diameter : option number;
  gestational_age : option number;
  heart_rate : option number
}.

Definition space_or_colon (c : N) : bool := is_space c || unit_eqb c 0x3A.

(** The pattern "/(?:ejection fraction|EF|ФВ|фракция выброса)[\s:]*(\d+)%?/i". *)
Definition efPattern : regex :=
  Seq (Alts [Str (js "ejection fraction"); Str (js "EF"); Str (js "ФВ");
             Str (js "фракция выброса")])
 (Seq (Star (Class space_or_colon))
 (Seq (Capture (Plus (Class is_digit)))
      (Opt (Lit 0x25)))).

(** The pattern "/(?:BPD|biparietal diameter|БПР)[\s:]*(G)\s*(?:mm|cm)?/i",
    where the group G is "\d+\.?\d*". *)
Definition bpdPattern : regex :=
  Seq (Alts [Str (js "BPD"); Str (js "biparietal diameter"); Str (js "БПР")])
 (Seq (Star (Class space_or_colon))
 (Seq (Capture (Seq (Plus (Class is_digit))
               (Seq (Opt (Lit 0x2E)) (Star (Class is_digit)))))
 (Seq (Star (Class is_space))
      (Opt (Alts [Str (js "mm"); Str (js "cm")]))))).

(** The pattern "/(?:gestational age|GA|срок беременности)[\s:]*(\d+)\s*(?:weeks?|недел)?/i". *)
Definition gaPattern : regex :=
  Seq (Alts [Str (js "gestational age"); Str (js "GA");
             Str (js "срок беременности")])
 (Seq (Star (Class space_or_colon))
 (Seq (Capture (Plus (Class is_digit)))
 (Seq (Star (Class is_space))
      (Opt (Alts [Seq (Str (js "week")) (Opt (Lit 0x73)); Str (js "недел")]))))).

(** The pattern "/(?:heart rate|HR|ЧСС)[\s:]*(\d+)\s*(?:bpm|уд\/мин)?/i". *)
Definition hrPattern : regex :=
  Seq (Alts [Str (js "heart rate"); Str (js "HR"); Str (js "ЧСС")])
 (Seq (Star (Class space_or_colon))
 (Seq (Capture (Plus (Class is_digit)))
 (Seq (Star (Class is_space))
      (Opt (Alts [Str (js "bpm"); Str (js "уд/мин")]))))).

(** [m[1]] of a successful match. *)
Definition group (m : mstate) : jsstring :=
  match group1 m with Some g => g | None => [] end.

(** [extractMeasurements]: each key is written when its pattern matches,
    from the first (leftmost) match. *)
Definition extractMeasurements (transcript : jsstring) : MeasurementResult :=
  let efMatch := exec true efPattern transcript in
  let bpdMatch := exec true bpdPattern transcript in
  let gaMatch := exec true gaPattern transcript in
  let hrMatch := exec true hrPattern transcript in
  {| ejection_fraction := option_map (fun m => parseInt (group m)) efMatch;
     biparietal_diameter := option_map (fun m => parseFloat (group m)) bpdMatch;
     gestational_age := option_map (fun m => parseInt (group m)) gaMatch;
     heart_rate := option_map (fun m => parseInt (group m)) hrMatch |}.

(** *** classifySection *)

(** The names every object inherits from [Object.prototype].  Reading one
    of them from [PROCEDURE_SECTIONS] yields a function (or the prototype
    object): truthy, and not iterable. *)
Definition OBJECT_PROTOTYPE_KEYS : list jsstring :=
  [ js "constructor"; js "__proto__"; js "hasOwnProperty"; js "isPrototypeOf";
    js "propertyIsEnumerable"; js "toLocaleString"; js "toString"; js "valueOf";
    js "__defineGetter__"; js "__defineSetter__"; js "__lookupGetter__";
    js "__lookupSetter__" ].

Inductive property : Type :=
| own (sections : list jsstring)
| inherited
| undefined.

Fixpoint own_property (table : list (jsstring * list jsstring)) (key : jsstring)
  : option (list jsstring) :=
  match table with
  | [] => None
  | (k, v) :: table' => if jsstring_eqb k key then Some v else own_property table' key
  end.

(** [PROCEDURE_SECTIONS[procedureType]]. *)
Definition get_sections (procedureType : jsstring) : property :=
  match own_property PROCEDURE_SECTIONS procedureType with
  | Some sections => own sections
  | None =>
    if existsb (jsstring_eqb procedureType) OBJECT_PROTOTYPE_KEYS then inherited
    else undefined
  end.

(** How a call ends: with a value, or with the TypeError that [for ... of]
    raises on a value that is not iterable (the loop is the native
    iteration, as when the service runs under tsx or ts-node). *)
Inductive completion (A : Type) : Type :=
| returns (a : A)
| throws_TypeError.
Arguments returns {A} a.
Arguments throws_TypeError {A}.

(** The test of the loop body, for one section label. *)
Definition mentions (lowerText section : jsstring) : bool :=
  let lowerSection := toLowerCase section in
  includes lowerText lowerSection ||
  includes lowerText (replace_first (js " ") [] lowerSection).

(** The checks after the loop, for Russian and Armenian terms. *)
Definition multilingual_section (lowerText : jsstring) : option jsstring :=
  if includes lowerText (js "левый желудочек") || includes lowerText (js "ձախ փորոք")
  then Some (js "Left Ventricle")
  else if includes lowerText (js "правый желудочек") || includes lowerText (js "աջ փորոք")
  then Some (js "Right Ventricle")
  else if includes lowerText (js "митральный") || includes lowerText (js "միտրալ")
  then Some (js "Mitral Valve")
  else None.

Definition classifySection (text procedureType : jsstring)
  : completion (option jsstring) :=
  match get_sections procedureType with
  | undefined => returns None
  | inherited => throws_TypeError
  | own sections =>
    let lowerText := toLowerCase text in
    match find (mentions lowerText) sections with
    | Some section => returns (Some section)
    | None => returns (multilingual_section lowerText)
    end
  end.

(** *** standardizeTerms *)

(** [Array.prototype.sort] with a comparator: a stable sort; [x] is put
    after the elements [y] with [cmp x y > 0]. *)
Fixpoint insert_by {A : Type} (cmp : A -> A -> Z) (x : A) (l : list A) : list A :=
  match l with
  | [] => [x]
  | y :: l' => if (0 <? cmp x y)%Z then y :: insert_by cmp x l' else x :: l
  end.

Definition sort_by {A : Type} (cmp : A -> A -> Z) (l : list A) : list A :=
  fold_right (insert_by cmp) [] l.

(** [([a], [b]) => b.length - a.length]: longest term first. *)
Definition by_length_desc (a b : jsstring * jsstring) : Z :=
  (Z.of_nat (length (fst b)) - Z.of_nat (length (fst a)))%Z.

Definition sortedTerms : list (jsstring * jsstring) :=
  sort_by by_length_desc MEDICAL_TERMS.

(** [new RegExp(`\\b${term}\\b`, 'gi')]; the terms hold letters and
    spaces only, so the interpolated source is the literal term. *)
Definition termPattern (term : jsstring) : regex :=
  Seq WordBoundary (Seq (Str term) WordBoundary).

Definition standardizeTerms (transcript : jsstring) : jsstring :=
  fold_left
    (fun standardized entry =>
       replace_all true (termPattern (fst entry)) (snd entry) standardized)
    sortedTerms transcript.

(** *** detectFindings *)

Record Findings : Type := {
  normal : bool;
  abnormal : bool;
  noEvidence : bool;
  findings : list jsstring
}.

(** The pattern "/normal|unremarkable|within normal limits|нормальн|в норме/i". *)
Definition normalPattern : regex :=
  Alts (map Str [js "normal"; js "unremarkable"; js "within normal limits";
                 js "нормальн"; js "в норме"]).

(** The pattern "/abnormal|concerning|dilated|enlarged|thickened|патолог|расширен|увеличен/i". *)
Definition abnormalPattern : regex :=
  Alts (map Str [js "abnormal"; js "concerning"; js "dilated"; js "enlarged";
                 js "thickened"; js "патолог"; js "расширен"; js "увеличен"]).

(** The pattern "/no evidence of|absence of|negative for|не выявлено|отсутств/i". *)
Definition noEvidencePattern : regex :=
  Alts (map Str [js "no evidence of"; js "absence of"; js "negative for";
                 js "не выявлено"; js "отсутств"]).

Definition detectFindings (transcript : jsstring) : Findings :=
  let normal := test true normalPattern transcript in
  let abnormal := test true abnormalPattern transcript in
  let noEvidence := test true noEvidencePattern transcript in
  {| normal := normal;
     abnormal := abnormal;
     noEvidence := noEvidence;
     findings :=
       (if normal then [js "Normal findings"] else []) ++
       (if abnormal then [js "Abnormal findings detected"] else []) ++
       (if noEvidence then [js "No significant pathology"] else []) |}.

(** *** Vocabulary of the properties *)

(** The text of the measurement example. *)
Definition MEASUREMENTS_SAMPLE : jsstring :=
  js "EF 55%, BPD 8.5 cm, GA 32 weeks, HR 140 bpm".

(** The labels the checks after the loop of [classifySection] return. *)
Definition MULTILINGUAL_LABELS : list jsstring :=
  [ js "Left Ventricle"; js "Right Ventricle"; js "Mitral Valve" ].

(** The canonical abbreviations: the values of [MEDICAL_TERMS] written in
    capital Latin letters only (LV, RV, LA, RA, EF, MV, AV, TV, PV). *)
Definition CANONICAL_ABBREVIATIONS : list jsstring :=
  filter (forallb (between 0x41 0x5A)) (map snd MEDICAL_TERMS).

(** A code unit that a text made of canonical abbreviations may hold: a
    letter of an abbreviation, or any code unit that is not a letter
    (space, punctuation, digit, ...). *)
Definition abbreviation_unit (c : N) : bool :=
  negb (is_letter c) || existsb (unit_eqb c) (concat CANONICAL_ABBREVIATIONS).

(** A piece of such a text: one canonical abbreviation, or one code unit
    that is not a letter. *)
Definition canonical_token (tok : jsstring) : bool :=
  existsb (jsstring_eqb tok) CANONICAL_ABBREVIATIONS ||
  match tok with
  | [c] => negb (is_letter c)
  | _ => false
  end.

End Enhancement.

(** ** Term patterns, read directly

    The pattern of [standardizeTerms] is a literal between two [\b]; what
    the matcher and [replace] do with it is written here without the
    matcher, for the proofs about the standardizer. *)

Module TermMatching.
Import JS Enhancement.

Definition wordness (o : option N) : bool :=
  match o with
  | Some c => is_word c
  | None => false
  end.

(** [\b] between the code unit [p] before and the text [s] after. *)
Definition boundary (p : option N) (s : jsstring) : bool :=
  xorb (wordness p) (wordness (hd_error s)).

(** The literal [u] is read at the front of [s], and a [\b] follows. *)
Fixpoint reads_term (u : jsstring) (p : option N) (s : jsstring) : bool :=
  match u with
  | [] => boundary p s
  | x :: u' =>
    match s with
    | c :: s' => char_matches true x c && reads_term u' (Some c) s'
    | [] => false
    end
  end.

(** The term pattern of [u] matches at the front of [s]. *)
Definition term_at (u : jsstring) (p : option N) (s : jsstring) : bool :=
  boundary p s && reads_term u p s.

(** The term pattern of [u] matches somewhere in [s]. *)
Fixpoint term_occurs (u : jsstring) (p : option N) (s : jsstring) : bool :=
  term_at u p s ||
  match s with
  | [] => false
  | c :: s' => term_occurs u (Some c) s'
  end.

(** [n] code units further in the text. *)
Fixpoint skip_units (n : nat) (p : option N) (s : jsstring) : option N * jsstring :=
  match n, s with
  | S n', c :: s' => skip_units n' (Some c) s'
  | _, _ => (p, s)
  end.

Definition last_unit (p : option N) (s : jsstring) : option N :=
  fold_left (fun _ c => Some c) s p.

(** [replace] with the term pattern of [t]. *)
Fixpoint replace_term (t r : jsstring) (p : option N) (s : jsstring) (skip : nat)
  : jsstring :=
  match skip, s with
  | S n, c :: s' => replace_term t r (Some c) s' n
  | S _, [] => []
  | O, [] => []
  | O, c :: s' =>
    if term_at t p s then r ++ replace_term t r (Some c) s' (length t - 1)
    else c :: replace_term t r (Some c) s' 0
  end.

(** Can the rest [u] of a term be read over the rest [rsuf] of an inserted
    replacement, when only the wordness [wr] of what follows the
    replacement is known?  [wlast] is the wordness of the code unit
    before. *)
Fixpoint may_read (u : jsstring) (wlast : bool) (rsuf : jsstring) (wr : bool) : bool :=
  match u, rsuf with
  | [], [] => xorb wlast wr
  | [], y :: _ => xorb wlast (is_word y)
  | x :: u', y :: rsuf' => char_matches true x y && may_read u' (is_word y) rsuf' wr
  | x :: _, [] => Bool.eqb (is_word x) wr
  end.

Section Overlap.
(** The term [t] is replaced by [r]; [u] is a term looked for in the
    result. *)
Variables t r u : jsstring.

Definition wfirst : bool := wordness (hd_error t).
Definition wlast : bool := wordness (last_unit None t).

(** No match of [u] starts before an inserted [r] and runs into it. *)
Fixpoint no_overlap_before (lastx : N) (u' : jsstring) : bool :=
  match u' with
  | [] => true
  | x :: rest =>
    negb (Bool.eqb (is_word lastx) (negb wfirst) &&
          may_read (x :: rest) (negb wfirst) r (negb wlast)) &&
    no_overlap_before x rest
  end.

(** No match of [u] starts inside an inserted [r]. *)
Fixpoint no_overlap_inside (wprev : bool) (rsuf : jsstring) : bool :=
  match rsuf with
  | [] => true
  | y :: rsuf' =>
    negb (xorb wprev (is_word y) && may_read u wprev (y :: rsuf') (negb wlast)) &&
    no_overlap_inside (is_word y) rsuf'
  end.

(** The replacement of [t] by [r] cannot create a match of [u]. *)
Definition cannot_create : bool :=
  match t, r, u with
  | _ :: _, _ :: _, x :: rest =>
    Bool.eqb wfirst wlast &&
    Bool.eqb (wordness (last_unit None r)) wlast &&
    no_overlap_before x rest &&
    no_overlap_inside (negb wfirst) r
  | _, _, _ => false
  end.

End Overlap.

(** The body of the loop of [standardizeTerms]. *)
Definition standardize_step (standardized : jsstring) (entry : jsstring * jsstring)
  : jsstring :=
  replace_all true (termPattern (fst entry)) (snd entry) standardized.

End TermMatching.

(** ** The voice streaming session ([server.ts]) *)

Module Session.
Local Open Scope string_scope.
Local Open Scope nat_scope.
Local Open Scope list_scope.

(** The two variables of [process.env] the handler reads. *)
Record process_env : Type := {
  GOOGLE_APPLICATION_CREDENTIALS : option string;
  GOOGLE_CLOUD_API_KEY : option string
}.

(** Truthiness of an environment variable: set, and not empty. *)
Definition truthy (v : option string) : bool :=
  match v with
  | Some s => negb (s =? "")%string
  | None => false
  end.

(** The payload of [start-streaming]; at run time either field may be
    missing. *)
Record VoiceConfig : Type := {
  language : option string;
  sampleRate : option N
}.

Record RecognitionConfig : Type := {
  encoding : string;
  sampleRateHertz : N;
  languageCode : string;
  enableAutomaticPunctuation : bool;
  useEnhanced : bool;
  model : string
}.

Record StreamingRequest : Type := {
  config : RecognitionConfig;
  interimResults : bool
}.

Definition Buffer := list N.

(** What the recognition stream hands to the ['data'] callback. *)
Record Alternative : Type := {
  transcript : string;
  confidence : Q
}.

Record Result : Type := {
  alternatives : list Alternative;
  isFinal : bool
}.

Record Data : Type := { results : list Result }.

(** What loading the speech library and creating the stream does when
    [start-streaming] runs: it succeeds, or something throws a value whose
    [message] may be missing. *)
Inductive client_outcome : Type :=
| client_ok
| client_throws (message : option string).

Inductive write_outcome : Type :=
| write_ok
| write_throws.

(** The events the connection handler reacts to.  A stream is named by
    its rank of creation within the connection. *)
Inductive input : Type :=
| start_streaming (env : process_env) (client : client_outcome) (cfg : VoiceConfig)
| audio_chunk (chunk : Buffer) (outcome : write_outcome)
| stop_streaming
| disconnect
| stream_error (stream : nat) (message : string)
| stream_data (stream : nat) (data : Data).

(** What [socket.emit] sends to the client. *)
Inductive emitted : Type :=
| streaming_error (error : string)
| streaming_started (message : string)
| streaming_transcript (text : string) (final : bool) (conf : Q)
| streaming_stopped (message : string).

(** The calls a handler makes, in order. *)
Inductive effect : Type :=
| emit (e : emitted)
| streamingRecognize (stream : nat) (request : StreamingRequest)
| write (stream : nat) (chunk : Buffer)
| end_stream (stream : nat)
| console_log (line : string)
| console_error (line : string).

(** The state of one connection: the closure variable [recognizeStream]
    ([None] for [null]) and the number of streams created so far, which
    names the next one. *)
Record session : Type := {
  recognizeStream : option nat;
  created : nat
}.

Definition initial : session := {| recognizeStream := None; created := 0 |}.

Definition CREDENTIALS_ERROR : string :=
  "Google Cloud credentials not configured. Please set GOOGLE_APPLICATION_CREDENTIALS or GOOGLE_CLOUD_API_KEY".

(** [v || d] on a string that may be missing. *)
Definition string_or (v : option string) (d : string) : string :=
  match v with
  | Some s => if (s =? "")%string then d else s
  | None => d
  end.

Definition number_or (v : option N) (d : N) : N :=
  match v with
  | Some n => if (n =? 0)%N then d else n
  | None => d
  end.

(** The request built by the [start-streaming] handler. *)
Definition request_of (cfg : VoiceConfig) : StreamingRequest :=
  let languageCode := string_or (language cfg) "en-US" in
  let useMedicalModel := prefix "en-" languageCode in
  {| config :=
       {| encoding := "LINEAR16";
          sampleRateHertz := number_or (sampleRate cfg) 16000;
          languageCode := languageCode;
          enableAutomaticPunctuation := true;
          useEnhanced := true;
          model := if useMedicalModel then "medical_dictation"
                   else "command_and_search" |};
     interimResults := true |}.

Definition on_start_streaming (s : session) (env : process_env)
           (client : client_outcome) (cfg : VoiceConfig) : session * list effect :=
  if negb (truthy (GOOGLE_APPLICATION_CREDENTIALS env)) &&
     negb (truthy (GOOGLE_CLOUD_API_KEY env))
  then (s, [emit (streaming_error CREDENTIALS_ERROR)])
  else
    match client with
    | client_throws message =>
      (s, [console_error "Error starting stream:";
           emit (streaming_error (string_or message "Unknown error"))])
    | client_ok =>
      let stream := created s in
      ({| recognizeStream := Some stream; created := S stream |},
       [streamingRecognize stream (request_of cfg);
        emit (streaming_started "Streaming started successfully");
        console_log "Voice streaming started for socket:"])
    end.

Definition on_audio_chunk (s : session) (chunk : Buffer) (outcome : write_outcome)
  : session * list effect :=
  match recognizeStream s with
  | Some stream =>
    (s, write stream chunk ::
        match outcome with
        | write_ok => []
        | write_throws => [console_error "Error writing audio chunk:"]
        end)
  | None => (s, [])
  end.

Definition on_stop_streaming (s : session) : session * list effect :=
  match recognizeStream s with
  | Some stream =>
    ({| recognizeStream := None; created := created s |},
     [end_stream stream;
      emit (streaming_stopped "Streaming stopped");
      console_log "Voice streaming stopped for socket:"])
  | None => (s, [])
  end.

Definition on_disconnect (s : session) : session * list effect :=
  match recognizeStream s with
  | Some stream =>
    ({| recognizeStream := None; created := created s |},
     [end_stream stream; console_log "Client disconnected:"])
  | None => (s, [console_log "Client disconnected:"])
  end.

(** The ['error'] callback of a stream. *)
Definition on_stream_error (s : session) (message : string)
  : session * list effect :=
  (s, [console_error "Streaming error:"; emit (streaming_error message)]).

(** The ['data'] callback of a stream. *)
Definition on_stream_data (s : session) (data : Data) : session * list effect :=
  match results data with
  | result :: _ =>
    match alternatives result with
    | alt :: _ =>
      (s, [emit (streaming_transcript (transcript alt) (isFinal result)
                                      (confidence alt))])
    | [] => (s, [])
    end
  | [] => (s, [])
  end.

(** One event.  The callbacks exist only on streams that were created. *)
Definition handle (s : session) (i : input) : session * list effect :=
  match i with
  | start_streaming env client cfg => on_start_streaming s env client cfg
  | audio_chunk chunk outcome => on_audio_chunk s chunk outcome
  | stop_streaming => on_stop_streaming s
  | disconnect => on_disconnect s
  | stream_error stream message =>
    if stream <? created s then on_stream_error s message else (s, [])
  | stream_data stream data =>
    if stream <? created s then on_stream_data s data else (s, [])
  end.

(** A sequence of events: the state reached and the calls made. *)
Fixpoint run (s : session) (inputs : list input) : session * list effect :=
  match inputs with
  | [] => (s, [])
  | i :: inputs' =>
    let (s1, e1) := handle s i in
    let (s2, e2) := run s1 inputs' in
    (s2, e1 ++ e2)
  end.

(** The streams a trace leaves open: created, and [end()] not called. *)
Fixpoint open_streams (opened : list nat) (trace : list effect) : list nat :=
  match trace with
  | [] => opened
  | streamingRecognize stream _ :: trace' => open_streams (opened ++ [stream]) trace'
  | end_stream stream :: trace' =>
    open_streams (filter (fun x => negb (x =? stream)) opened) trace'
  | _ :: trace' => open_streams opened trace'
  end.

(** The events sent to the client by a trace. *)
Definition emissions (trace : list effect) : list emitted :=
  flat_map (fun e => match e with emit x => [x] | _ => [] end) trace.

(** The calls a trace makes on recognition streams. *)
Definition stream_calls (trace : list effect) : list effect :=
  filter (fun e => match e with
                   | streamingRecognize _ _ | write _ _ | end_stream _ => true
                   | _ => false
                   end) trace.

(** The lines a trace prints. *)
Definition console_lines (trace : list effect) : list string :=
  flat_map (fun e => match e with
                     | console_log l | console_error l => [l]
                     | _ => []
                     end) trace.

Definition credentials_configured (env : process_env) : bool :=
  truthy (GOOGLE_APPLICATION_CREDENTIALS env) || truthy (GOOGLE_CLOUD_API_KEY env).

(** No [start-streaming] of the sequence arrives while the session holds
    a stream. *)
Fixpoint starts_guarded (s : session) (inputs : list input) : bool :=
  match inputs with
  | [] => true
  | i :: inputs' =>
    match i, recognizeStream s with
    | start_streaming _ _ _, Some _ => false
    | _, _ => starts_guarded (fst (handle s i)) inputs'
    end
  end.

(** The streams the session itself counts as open. *)
Definition held (s : session) : list nat :=
  match recognizeStream s with
  | Some stream => [stream]
  | None => []
  end.

(** Sample environments and payloads. *)
Definition env_with_key_file : process_env :=
  {| GOOGLE_APPLICATION_CREDENTIALS := Some "/secrets/speech.json";
     GOOGLE_CLOUD_API_KEY := None |}.

Definition env_without_credentials : process_env :=
  {| GOOGLE_APPLICATION_CREDENTIALS := None; GOOGLE_CLOUD_API_KEY := Some "" |}.

Definition cfg_en_US : VoiceConfig :=
  {| language := Some "en-US"; sampleRate := Some 16000%N |}.

Definition cfg_ru_RU : VoiceConfig :=
  {| language := Some "ru-RU"; sampleRate := None |}.

Definition cfg_no_language : VoiceConfig :=
  {| language := None; sampleRate := None |}.

Definition sample_chunk : Buffer := [0x52; 0x49; 0x46; 0x46]%N.

End Session.

(** ** Bookkeeping on the calls of a session *)

Module SessionTrace.
Import Session.
Local Open Scope string_scope.
Local Open Scope nat_scope.
Local Open Scope list_scope.

(** The number of streams a trace creates. *)
Fixpoint creations (trace : list effect) : nat :=
  match trace with
  | [] => 0
  | streamingRecognize _ _ :: trace' => S (creations trace')
  | _ :: trace' => creations trace'
  end.

(** The calls of a trace respect the life of the streams: a stream is
    created under the next free rank, and [write] and [end] are called
    only on a stream that was created and on which [end] was not called
    yet.  [next] is the next free rank, [opened] the streams open so far. *)
Fixpoint disciplined (next : nat) (opened : list nat) (trace : list effect) : bool :=
  match trace with
  | [] => true
  | streamingRecognize stream _ :: trace' =>
    (stream =? next) && disciplined (S next) (opened ++ [stream]) trace'
  | write stream _ :: trace' =>
    existsb (Nat.eqb stream) opened && disciplined next opened trace'
  | end_stream stream :: trace' =>
    existsb (Nat.eqb stream) opened &&
    disciplined next (filter (fun x => negb (x =? stream)) opened) trace'
  | _ :: trace' => disciplined next opened trace'
  end.

(** A ['data'] event whose first result has a first alternative; further
    alternatives and results may follow. *)
Definition data_with (alt : Alternative) (final : bool)
           (more_alternatives : list Alternative) (more_results : list Result) : Data :=
  {| results := {| alternatives := alt :: more_alternatives; isFinal := final |}
                :: more_results |}.

(** Loading the speech library and creating the stream threw nothing. *)
Definition client_succeeds (client : client_outcome) : bool :=
  match client with
  | client_ok => true
  | client_throws _ => false
  end.

Definition is_started (e : emitted) : bool :=
  match e with
  | streaming_started _ => true
  | _ => false
  end.

End SessionTrace.

(** ** What a pattern matches

    The matches of a pattern, stated without the order in which the
    matcher tries them: [matches ic r st st'] holds when [r] can be read
    from the state [st] and leaves the state [st']. *)

Module Matching.
Import JS.

Inductive matches (ic : bool) : regex -> mstate -> mstate -> Prop :=
| matches_Eps (st : mstate) : matches ic Eps st st
| matches_Lit (p c : N) (tl : jsstring) (st : mstate) :
    rest st = c :: tl -> char_matches ic p c = true ->
    matches ic (Lit p) st (advance st c tl)
| matches_Class (p : N -> bool) (c : N) (tl : jsstring) (st : mstate) :
    rest st = c :: tl -> p c = true ->
    matches ic (Class p) st (advance st c tl)
| matches_Seq (r1 r2 : regex) (st st1 st2 : mstate) :
    matches ic r1 st st1 -> matches ic r2 st1 st2 ->
    matches ic (Seq r1 r2) st st2
| matches_Alt_left (r1 r2 : regex) (st st' : mstate) :
    matches ic r1 st st' -> matches ic (Alt r1 r2) st st'
| matches_Alt_right (r1 r2 : regex) (st st' : mstate) :
    matches ic r2 st st' -> matches ic (Alt r1 r2) st st'
| matches_Star_done (r : regex) (st : mstate) : matches ic (Star r) st st
| matches_Star_more (r : regex) (st st1 st2 : mstate) :
    matches ic r st st1 -> endIndex st < endIndex st1 ->
    matches ic (Star r) st1 st2 ->
    matches ic (Star r) st st2
| matches_Capture (r : regex) (st st' : mstate) :
    matches ic r st st' ->
    matches ic (Capture r) st
            (MState (endIndex st') (prev st') (rest st')
                    (Some (firstn (endIndex st' - endIndex st) (rest st))))
| matches_WordBoundary (st : mstate) :
    at_word_boundary st = true -> matches ic WordBoundary st st.

(** A pattern without a capture group. *)
Fixpoint group_free (r : regex) : bool :=
  match r with
  | Capture _ => false
  | Seq r1 r2 | Alt r1 r2 => group_free r1 && group_free r2
  | Star r' => group_free r'
  | _ => true
  end.

(** The matcher state over the lower-cased text. *)
Definition lower_state (st : mstate) : mstate :=
  MState (endIndex st) (option_map toLowerCase_unit (prev st))
         (toLowerCase (rest st)) (option_map toLowerCase (group1 st)).

(** A pattern whose classes do not tell a letter from its lower case. *)
Fixpoint case_blind (r : regex) : Prop :=
  match r with
  | Class p => forall c, p (toLowerCase_unit c) = p c
  | Seq r1 r2 | Alt r1 r2 => case_blind r1 /\ case_blind r2
  | Star r' | Capture r' => case_blind r'
  | _ => True
  end.

End Matching.

(** ** Shapes of a transcript *)

Module TextShape.
Import JS.

(** The code units of the blocks that the case tables above cover in
    full: Basic Latin, Cyrillic from U+0400 to U+045F, and Armenian. *)
Definition table_unit (c : N) : bool :=
  (c <? 0x80)%N || between 0x400 0x45F c || between 0x531 0x587 c.

(** A text written with these code units only. *)
Definition in_table_scripts (s : jsstring) : bool := forallb table_unit s.

(** The number of decimal digits at the front of a text. *)
Fixpoint digits_at_front (s : jsstring) : nat :=
  match s with
  | c :: s' => if is_digit c then S (digits_at_front s') else 0
  | [] => 0
  end.

(** No run of decimal digits of the text is longer than [n]. *)
Fixpoint digit_runs_within (n : nat) (s : jsstring) : bool :=
  (digits_at_front s <=? n) &&
  match s with
  | [] => true
  | _ :: s' => digit_runs_within n s'
  end.

End TextShape.

(** ** The orchestrator ([enhanceTranscript]) *)

Module Orchestrator.
Import JS Enhancement.

Record Params : Type := {
  transcript : jsstring;
  procedureType : option jsstring;
  language : option jsstring
}.

Record EnhancedTranscript : Type := {
  enhanced : jsstring;
  measurements : MeasurementResult;
  detectedSection : option jsstring;
  standardized : jsstring;
  findings : Findings;
  suggestions : list jsstring
}.

(** [Object.entries(measurements)]: the keys present, in the order the
    extractor writes them. *)
Definition entries (m : MeasurementResult) : list (jsstring * number) :=
  (match ejection_fraction m with Some v => [(js "ejection_fraction", v)] | None => [] end) ++
  (match biparietal_diameter m with Some v => [(js "biparietal_diameter", v)] | None => [] end) ++
  (match gestational_age m with Some v => [(js "gestational_age", v)] | None => [] end) ++
  (match heart_rate m with Some v => [(js "heart_rate", v)] | None => [] end).

(** [parts.join(sep)]. *)
Fixpoint join (sep : jsstring) (parts : list jsstring) : jsstring :=
  match parts with
  | [] => []
  | [x] => x
  | x :: parts' => x ++ sep ++ join sep parts'
  end.

(** Truthiness of a value that is a string or [null]. *)
Definition truthy_section (section : option jsstring) : option jsstring :=
  match section with
  | Some (c :: l) => Some (c :: l)
  | _ => None
  end.

Definition NEWLINE : jsstring := [10%N].

(** Every label of the section table. *)
Definition ALL_LABELS : list jsstring := concat (map snd PROCEDURE_SECTIONS).

(** Every suggestion the orchestrator can make: the two fixed texts and
    one text per label. *)
Definition POSSIBLE_SUGGESTIONS : list jsstring :=
  js "✓ Measurements extracted automatically" ::
  js "⚠ Abnormal findings detected - review carefully" ::
  map (fun label => js "✓ Classified as: " ++ label) ALL_LABELS.

Section WithNumberToString.

(** How the engine prints a number inside a template literal. *)
Variable String_of_number : number -> jsstring.

Definition measurementStr (m : MeasurementResult) : jsstring :=
  join (js ", ")
       (map (fun kv => replace_first (js "_") (js " ") (fst kv) ++ js ": " ++
                       String_of_number (snd kv))
            (entries m)).

Definition enhanceTranscript (params : Params) : completion EnhancedTranscript :=
  let procedureType :=
    match procedureType params with
    | Some p => p
    | None => js "echocardiogram"
    end in
  let standardized := standardizeTerms (transcript params) in
  let measurements := extractMeasurements standardized in
  match classifySection standardized procedureType with
  | throws_TypeError => throws_TypeError
  | returns detectedSection =>
    let findings := detectFindings standardized in
    let suggestions :=
      (match entries measurements with
       | [] => []
       | _ :: _ => [js "✓ Measurements extracted automatically"]
       end) ++
      (match truthy_section detectedSection with
       | Some section => [js "✓ Classified as: " ++ section]
       | None => []
       end) ++
      (if abnormal findings
       then [js "⚠ Abnormal findings detected - review carefully"]
       else []) in
    let enhanced1 :=
      match truthy_section detectedSection with
      | Some section => js "[" ++ section ++ js "]" ++ NEWLINE ++ standardized
      | None => standardized
      end in
    let enhanced2 :=
      match entries measurements with
      | [] => enhanced1
      | _ :: _ =>
        enhanced1 ++ NEWLINE ++ NEWLINE ++ js "📊 Detected measurements: " ++
        measurementStr measurements
      end in
    let enhanced3 :=
      match Enhancement.findings findings with
      | [] => enhanced2
      | _ :: _ =>
        enhanced2 ++ NEWLINE ++ NEWLINE ++ js "📋 " ++
        join (js ", ") (Enhancement.findings findings)
      end in
    returns {| enhanced := enhanced3;
               measurements := measurements;
               detectedSection := detectedSection;
               standardized := standardized;
               findings := findings;
               suggestions := suggestions |}
  end.

End WithNumberToString.

End Orchestrator.

(** ** The voice routes ([routes/voice.ts]) *)

Module VoiceRoutes.
Import JS Enhancement.

Local Unset Elimination Schemes.

(** A value of [req.body] as [express.json()] and [express.urlencoded()]
    build it.  Of a number the handler can observe two things: whether it
    is zero (it is falsy then) and the text [ToString] gives for it. *)
Inductive json : Type :=
| JNull
| JBool (b : bool)
| JNumber (zero : bool) (text : jsstring)
| JString (s : jsstring)
| JArray (items : list json)
| JObject (members : list (jsstring * json)).

Local Set Elimination Schemes.

(** The own property [key] of an object; of a key written twice the last
    value stays, as with [JSON.parse]. *)
Fixpoint own_member (members : list (jsstring * json)) (key : jsstring)
  : option json :=
  match members with
  | [] => None
  | (k, v) :: members' =>
    match own_member members' key with
    | Some v' => Some v'
    | None => if jsstring_eqb k key then Some v else None
    end
  end.

(** [value.key] for the three names the handler reads, none of which is
    a property of [Object.prototype], [Array.prototype] or the prototype
    of a primitive; [None] is [undefined]. *)
Definition Get (value : json) (key : jsstring) : option json :=
  match value with
  | JObject members => own_member members key
  | _ => None
  end.

(** Truthiness. *)
Definition truthy (v : option json) : bool :=
  match v with
  | None | Some JNull => false
  | Some (JBool b) => b
  | Some (JNumber zero _) => negb zero
  | Some (JString s) => match s with [] => false | _ :: _ => true end
  | Some (JArray _) | Some (JObject _) => true
  end.

(** [v || d]. *)
Definition or_default (v : option json) (d : json) : json :=
  match v with
  | Some x => if truthy v then x else d
  | None => d
  end.

(** [ToPropertyKey] of a value of the body, which is [ToString] of it.
    An array is joined with commas, [null] elements giving the empty
    text; an object gives "[object Object]", unless it has an own member
    [toString]: that member is not callable, [valueOf] returns no
    primitive, and the conversion throws a TypeError. *)
Fixpoint ToString (v : json) : completion jsstring :=
  match v with
  | JNull => returns (js "null")
  | JBool b => returns (if b then js "true" else js "false")
  | JNumber _ text => returns text
  | JString s => returns s
  | JArray items =>
    (fix join_items (items : list json) : completion jsstring :=
       match items with
       | [] => returns []
       | x :: items' =>
         match (match x with JNull => returns [] | _ => ToString x end) with
         | throws_TypeError => throws_TypeError
         | returns first =>
           match items' with
           | [] => returns first
           | _ :: _ =>
             match join_items items' with
             | throws_TypeError => throws_TypeError
             | returns others => returns (first ++ js "," ++ others)
             end
           end
         end
       end) items
  | JObject members =>
    match own_member members (js "toString") with
    | Some _ => throws_TypeError
    | None => returns (js "[object Object]")
    end
  end.

Record ExtractedFields : Type := {
  enhanced_transcript : jsstring;
  standardized : jsstring;
  measurements : MeasurementResult;
  detected_section : option jsstring;
  findings : Findings;
  suggestions : list jsstring;
  raw_transcript : json
}.

(** What the handler answers: the status and the JSON body. *)
Inductive reply : Type :=
| reply_error (status : N) (error : string)
| reply_fields (fields : ExtractedFields).

Definition status_of (r : reply) : N :=
  match r with
  | reply_error status _ => status
  | reply_fields _ => 200%N
  end.

(** How a handler ends: it has answered, or its promise is rejected with
    a TypeError thrown outside its [try] block. *)
Inductive outcome : Type :=
| answers (r : reply)
| rejects_TypeError.

Section WithNumberToString.
Variable String_of_number : number -> jsstring.

(** [medicalEnhancement.enhanceTranscript] on the values of the body.
    [standardizeTerms] calls [replace] on the transcript, which only a
    string has (the table of terms is not empty); [classifySection] reads
    [PROCEDURE_SECTIONS[procedureType]], which converts the procedure
    type to a property key.  The language is passed on and not used. *)
Definition enhance (transcript procedureType : json)
  : completion Orchestrator.EnhancedTranscript :=
  match transcript with
  | JString text =>
    match ToString procedureType with
    | returns key =>
      Orchestrator.enhanceTranscript String_of_number
        {| Orchestrator.transcript := text;
           Orchestrator.procedureType := Some key;
           Orchestrator.language := None |}
    | throws_TypeError => throws_TypeError
    end
  | _ => throws_TypeError
  end.

(** The handler of [POST /extract-fields] on [req.body] ([None] when the
    request has no body that a parser read): how it ends, and the lines
    printed.  Destructuring [undefined] or [null] throws before the [try]
    block. *)
Definition extract_fields (body : option json) : outcome * list string :=
  match body with
  | None | Some JNull => (rejects_TypeError, [])
  | Some b =>
    let transcript := Get b (js "transcript") in
    let procedure_type := Get b (js "procedure_type") in
    match transcript with
    | Some value =>
      if truthy transcript then
        match enhance value (or_default procedure_type (JString (js "echocardiogram"))) with
        | returns e =>
          (answers
             (reply_fields
                {| enhanced_transcript := Orchestrator.enhanced e;
                   standardized := Orchestrator.standardized e;
                   measurements := Orchestrator.measurements e;
                   detected_section := Orchestrator.detectedSection e;
                   findings := Orchestrator.findings e;
                   suggestions := Orchestrator.suggestions e;
                   raw_transcript := value |}), [])
        | throws_TypeError =>
          (answers (reply_error 500 "Failed to extract fields"),
           ["Error extracting fields:"%string])
        end
      else (answers (reply_error 400 "No transcript provided"), [])
    | None => (answers (reply_error 400 "No transcript provided"), [])
    end
  end.

End WithNumberToString.

(** One entry of [GET /modes]. *)
Record Mode : Type := {
  name : string;
  provider : string;
  available : bool;
  description : string
}.

Record Modes : Type := {
  batch : Mode;
  streaming : Mode
}.

(** The handler of [GET /modes]; [OPENAI_API_KEY] is the third variable
    of the environment it reads. *)
Definition get_modes (OPENAI_API_KEY : option string) (env : Session.process_env)
  : Modes :=
  {| batch :=
       {| name := "Batch Processing";
          provider := "OpenAI Whisper";
          available := Session.truthy OPENAI_API_KEY;
          description := "Record complete audio, then transcribe (most accurate)" |};
     streaming :=
       {| name := "Real-time Streaming";
          provider := "Google Speech-to-Text";
          available :=
            Session.truthy (Session.GOOGLE_APPLICATION_CREDENTIALS env) ||
            Session.truthy (Session.GOOGLE_CLOUD_API_KEY env);
          description := "See transcription as you speak (live feedback)" |} |}.

End VoiceRoutes.

(** ** The MCP server's classifier ([mcp-server/medical-transcription.ts]) *)

Module McpServer.
Import JS Enhancement.

(** The server's own [PROCEDURE_SECTIONS]. *)
Definition PROCEDURE_SECTIONS : list (jsstring * list jsstring) :=
  [ (js "echocardiogram",
     [ js "Left Ventricle"; js "Right Ventricle"; js "Left Atrium";
       js "Right Atrium"; js "Mitral Valve"; js "Aortic Valve";
       js "Pericardium" ]);
    (js "obstetric-ultrasound",
     [ js "Fetal Biometry"; js "Amniotic Fluid"; js "Placenta";
       js "Fetal Anatomy"; js "Doppler Studies" ]);
    (js "abdominal-ultrasound",
     [ js "Liver"; js "Gallbladder"; js "Kidneys"; js "Spleen";
       js "Pancreas" ]) ].

Definition get_sections (procedureType : jsstring) : property :=
  match own_property PROCEDURE_SECTIONS procedureType with
  | Some sections => own sections
  | None =>
    if existsb (jsstring_eqb procedureType) OBJECT_PROTOTYPE_KEYS then inherited
    else undefined
  end.

(** The server's [classifySection]: the loop alone, without the
    multilingual checks. *)
Definition classifySection (text procedureType : jsstring)
  : completion (option jsstring) :=
  match get_sections procedureType with
  | undefined => returns None
  | inherited => throws_TypeError
  | own sections =>
    let lowerText := toLowerCase text in
    match find (mentions lowerText) sections with
    | Some section => returns (Some section)
    | None => returns None
    end
  end.

End McpServer.

(** * Properties of the streaming session *)

Module SessionProperties.
Import Session.
Local Open Scope string_scope.
Local Open Scope nat_scope.
Local Open Scope list_scope.

Lemma run_app (s : session) (xs ys : list input) :
  run s (xs ++ ys) =
  (fst (run (fst (run s xs)) ys), snd (run s xs) ++ snd (run (fst (run s xs)) ys)).
Proof.
  revert s; induction xs as [|x xs IH]; intros s; simpl.
  - destruct (run s ys); reflexivity.
  - destruct (handle s x) as [s1 e1]; rewrite IH.
    destruct (run s1 xs) as [s2 e2]; simpl.
    destruct (run s2 ys) as [s3 e3]; simpl.
    now rewrite app_assoc.
Qed.

Lemma credentials_check (env : process_env) :
  negb (truthy (GOOGLE_APPLICATION_CREDENTIALS env)) &&
  negb (truthy (GOOGLE_CLOUD_API_KEY env)) = negb (credentials_configured env).
Proof. unfold credentials_configured; now rewrite negb_orb. Qed.

Lemma open_streams_app (opened : list nat) (t1 t2 : list effect) :
  open_streams opened (t1 ++ t2) = open_streams (open_streams opened t1) t2.
Proof.
  revert opened; induction t1 as [|e t1 IH]; intros opened; [reflexivity|].
  destruct e; simpl; apply IH.
Qed.

(** One event keeps the open streams equal to the stream held, unless it
    is a [start-streaming] on a session that holds one. *)
Lemma handle_keeps_held (s : session) (i : input) :
  starts_guarded s [i] = true ->
  open_streams (held s) (snd (handle s i)) = held (fst (handle s i)).
Proof.
  unfold held; destruct i; simpl.
  - destruct (recognizeStream s) eqn:Hs; [discriminate|]; intros _.
    unfold on_start_streaming.
    destruct (negb _ && negb _); simpl; [now rewrite Hs|].
    destruct client; simpl; [reflexivity | now rewrite Hs].
  - intros _; unfold on_audio_chunk.
    destruct (recognizeStream s) eqn:Hs; simpl; rewrite Hs;
      [destruct outcome|]; reflexivity.
  - intros _; unfold on_stop_streaming.
    destruct (recognizeStream s) eqn:Hs; simpl; [|now rewrite Hs].
    now rewrite Nat.eqb_refl.
  - intros _; unfold on_disconnect.
    destruct (recognizeStream s) eqn:Hs; simpl; [|now rewrite Hs].
    now rewrite Nat.eqb_refl.
  - intros _; destruct (stream <? created s); reflexivity.
  - intros _; destruct (stream <? created s); [|reflexivity].
    unfold on_stream_data.
    destruct (results data) as [|r ?]; [reflexivity|].
    destruct (alternatives r); reflexivity.
Qed.

(** As long as [start-streaming] never arrives on a session that holds a
    stream, the streams left open are exactly the one the session holds:
    at most one. *)
Lemma guarded_starts_keep_one_stream (inputs : list input) :
  forall s : session,
    starts_guarded s inputs = true ->
    open_streams (held s) (snd (run s inputs)) = held (fst (run s inputs)) /\
    length (open_streams (held s) (snd (run s inputs))) <= 1.
Proof.
  induction inputs as [|i inputs IH]; intros s Hg.
  - simpl; split; [reflexivity|].
    unfold held; destruct (recognizeStream s); simpl; lia.
  - assert (Hi : starts_guarded s [i] = true).
    { simpl in *; destruct i, (recognizeStream s); try discriminate; reflexivity. }
    assert (Hrest : starts_guarded (fst (handle s i)) inputs = true).
    { simpl in Hg; destruct i, (recognizeStream s); try discriminate; exact Hg. }
    pose proof (handle_keeps_held s i Hi) as Hstep.
    destruct (IH _ Hrest) as [Heq Hlen].
    simpl run; destruct (handle s i) as [s1 e1]; simpl in *.
    destruct (run s1 inputs) as [s2 e2]; simpl in *.
    rewrite open_streams_app, Hstep; split; assumption.
Qed.

(** C1: a second [start-streaming] on a connection whose stream is open
    creates another stream and overwrites [recognizeStream] without calling
    [end()] on the first one: two streams are open afterwards, and the
    first stays open even after [stop-streaming] and [disconnect]. *)
Theorem second_start_leaves_two_streams_open :
  let start := start_streaming env_with_key_file client_ok cfg_en_US in
  recognizeStream (fst (run initial [start; start])) = Some 1 /\
  open_streams [] (snd (run initial [start; start])) = [0; 1] /\
  open_streams [] (snd (run initial [start; start; stop_streaming; disconnect])) = [0].
Proof. repeat split. Qed.

(** C2 as stated fails: after the stream reported an error the session
    still holds the stream, and the next audio chunk is written to it. *)
Lemma chunk_after_stream_error_is_written :
  let s := fst (run initial [start_streaming env_with_key_file client_ok cfg_en_US;
                             stream_error 0 "14 UNAVAILABLE"]) in
  recognizeStream s = Some 0 /\
  snd (handle s (audio_chunk sample_chunk write_ok)) = [write 0 sample_chunk].
Proof. split; reflexivity. Qed.

(** C2, amended: when the open stream reports an error, the session emits
    exactly one [streaming-error] event carrying the stream's message,
    makes no call on any stream (so none is opened: no retry) and keeps its
    state; the stream is not released, and a following audio chunk is
    still written to it. *)
Theorem stream_error_is_reported_and_stream_kept :
  forall (s : session) (stream : nat) (message : string),
    recognizeStream s = Some stream ->
    stream < created s ->
    let (s', trace) := handle s (stream_error stream message) in
    s' = s /\
    emissions trace = [streaming_error message] /\
    stream_calls trace = [] /\
    forall chunk, handle s' (audio_chunk chunk write_ok) = (s, [write stream chunk]).
Proof.
  intros s stream message Hs Hlt; simpl.
  apply Nat.ltb_lt in Hlt; rewrite Hlt; simpl.
  repeat split.
  intros chunk; unfold on_audio_chunk; now rewrite Hs.
Qed.

Lemma stream_error_is_reported_and_stream_kept_witness :
  let s := {| recognizeStream := Some 0; created := 1 |} in
  let (s', trace) := handle s (stream_error 0 "14 UNAVAILABLE") in
  s' = s /\
  emissions trace = [streaming_error "14 UNAVAILABLE"] /\
  stream_calls trace = [] /\
  forall chunk, handle s' (audio_chunk chunk write_ok) = (s, [write 0 chunk]).
Proof.
  apply (stream_error_is_reported_and_stream_kept
           {| recognizeStream := Some 0; created := 1 |} 0 "14 UNAVAILABLE").
  - reflexivity.
  - simpl; lia.
Defined.

(** C4 as stated fails on "logged": a chunk that arrives before any
    stream exists makes no call at all, not even on the console. *)
Lemma early_chunk_is_not_logged :
  handle initial (audio_chunk sample_chunk write_ok) = (initial, []) /\
  console_lines (snd (handle initial (audio_chunk sample_chunk write_ok))) = [].
Proof. split; reflexivity. Qed.

(** C4, amended: for every sequence of events, an audio chunk that
    arrives while the session holds no stream is dropped silently: no
    write, no console line, no event, and nothing kept for later; the
    sequence behaves as if the chunk had never been sent. *)
Theorem chunk_without_stream_is_dropped :
  forall (before later : list input) (chunk : Buffer) (outcome : write_outcome),
    recognizeStream (fst (run initial before)) = None ->
    handle (fst (run initial before)) (audio_chunk chunk outcome)
      = (fst (run initial before), []) /\
    run initial (before ++ audio_chunk chunk outcome :: later)
      = run initial (before ++ later).
Proof.
  intros before later chunk outcome Hnone.
  assert (Hdrop : handle (fst (run initial before)) (audio_chunk chunk outcome)
                  = (fst (run initial before), [])).
  { simpl; unfold on_audio_chunk; now rewrite Hnone. }
  split; [exact Hdrop|].
  rewrite !run_app.
  set (s0 := fst (run initial before)) in *.
  change (run s0 (audio_chunk chunk outcome :: later))
    with (let (s1, e1) := handle s0 (audio_chunk chunk outcome) in
          let (s2, e2) := run s1 later in (s2, e1 ++ e2)).
  rewrite Hdrop.
  destruct (run s0 later); reflexivity.
Qed.

Lemma chunk_without_stream_is_dropped_witness :
  let before := [start_streaming env_with_key_file client_ok cfg_en_US; stop_streaming] in
  let later := [start_streaming env_with_key_file client_ok cfg_en_US] in
  handle (fst (run initial before)) (audio_chunk sample_chunk write_ok)
    = (fst (run initial before), []) /\
  run initial (before ++ audio_chunk sample_chunk write_ok :: later)
    = run initial (before ++ later).
Proof.
  apply (chunk_without_stream_is_dropped
           [start_streaming env_with_key_file client_ok cfg_en_US; stop_streaming]
           [start_streaming env_with_key_file client_ok cfg_en_US]
           sample_chunk write_ok).
  reflexivity.
Defined.

(** C5: [start-streaming] without credentials in the environment emits
    the configuration error, makes no call on any stream and leaves the
    session as it was; a later [start-streaming], once credentials are
    present, opens a stream and emits [streaming-started]. *)
Theorem start_without_credentials_is_retryable :
  forall (s : session) (env env' : process_env) (client : client_outcome)
         (cfg cfg' : VoiceConfig),
    credentials_configured env = false ->
    credentials_configured env' = true ->
    let (s1, trace1) := handle s (start_streaming env client cfg) in
    s1 = s /\
    trace1 = [emit (streaming_error CREDENTIALS_ERROR)] /\
    stream_calls trace1 = [] /\
    let (s2, trace2) := handle s1 (start_streaming env' client_ok cfg') in
    recognizeStream s2 = Some (created s) /\
    stream_calls trace2 = [streamingRecognize (created s) (request_of cfg')] /\
    emissions trace2 = [streaming_started "Streaming started successfully"].
Proof.
  intros s env env' client cfg cfg' Hno Hyes; simpl.
  unfold on_start_streaming.
  rewrite !credentials_check, Hno, Hyes; simpl.
  repeat split.
Qed.

Lemma start_without_credentials_is_retryable_witness :
  let (s1, trace1) :=
    handle initial (start_streaming env_without_credentials client_ok cfg_en_US) in
  s1 = initial /\
  trace1 = [emit (streaming_error CREDENTIALS_ERROR)] /\
  stream_calls trace1 = [] /\
  let (s2, trace2) := handle s1 (start_streaming env_with_key_file client_ok cfg_ru_RU) in
  recognizeStream s2 = Some 0 /\
  stream_calls trace2 = [streamingRecognize 0 (request_of cfg_ru_RU)] /\
  emissions trace2 = [streaming_started "Streaming started successfully"].
Proof.
  apply (start_without_credentials_is_retryable
           initial env_without_credentials env_with_key_file client_ok
           cfg_en_US cfg_ru_RU); reflexivity.
Defined.

(** C6: [stop-streaming] on a session that holds a stream ends that
    stream, emits exactly one [streaming-stopped] event and clears
    [recognizeStream]; a [disconnect] that follows makes no call on any
    stream, emits nothing and leaves the state as it is. *)
Theorem stop_then_disconnect_is_idempotent :
  forall (s : session) (stream : nat),
    recognizeStream s = Some stream ->
    let (s1, trace1) := handle s stop_streaming in
    stream_calls trace1 = [end_stream stream] /\
    emissions trace1 = [streaming_stopped "Streaming stopped"] /\
    recognizeStream s1 = None /\
    let (s2, trace2) := handle s1 disconnect in
    s2 = s1 /\ stream_calls trace2 = [] /\ emissions trace2 = [].
Proof.
  intros s stream Hs; simpl; unfold on_stop_streaming; rewrite Hs; simpl.
  repeat split.
Qed.

Lemma stop_then_disconnect_is_idempotent_witness :
  let s := fst (handle initial (start_streaming env_with_key_file client_ok cfg_en_US)) in
  let (s1, trace1) := handle s stop_streaming in
  stream_calls trace1 = [end_stream 0] /\
  emissions trace1 = [streaming_stopped "Streaming stopped"] /\
  recognizeStream s1 = None /\
  let (s2, trace2) := handle s1 disconnect in
  s2 = s1 /\ stream_calls trace2 = [] /\ emissions trace2 = [].
Proof.
  apply (stop_then_disconnect_is_idempotent
           (fst (handle initial (start_streaming env_with_key_file client_ok cfg_en_US))) 0).
  reflexivity.
Defined.

(** C9 as stated fails for an absent language tag: the handler falls back
    to "en-US" and picks the dictation model, not the general-purpose
    one. *)
Lemma absent_language_selects_dictation_model :
  snd (handle initial (start_streaming env_with_key_file client_ok cfg_no_language))
  = [streamingRecognize 0 (request_of cfg_no_language);
     emit (streaming_started "Streaming started successfully");
     console_log "Voice streaming started for socket:"] /\
  languageCode (config (request_of cfg_no_language)) = "en-US" /\
  model (config (request_of cfg_no_language)) = "medical_dictation" /\
  model (config (request_of cfg_no_language)) <> "command_and_search".
Proof. repeat split; discriminate. Qed.

(** C9, amended: a successful [start-streaming] opens the stream with the
    language tag of the payload, or "en-US" when the tag is absent or
    empty; the model is "medical_dictation" exactly when that tag starts
    with "en-" and "command_and_search" otherwise.  An absent tag hence
    selects the dictation model. *)
Theorem model_selected_by_language_prefix :
  forall (s : session) (env : process_env) (cfg : VoiceConfig),
    credentials_configured env = true ->
    let request := request_of cfg in
    stream_calls (snd (handle s (start_streaming env client_ok cfg)))
      = [streamingRecognize (created s) request] /\
    languageCode (config request) = string_or (language cfg) "en-US" /\
    model (config request) =
      (if prefix "en-" (languageCode (config request))
       then "medical_dictation" else "command_and_search").
Proof.
  intros s env cfg Hyes; simpl.
  unfold on_start_streaming; rewrite credentials_check, Hyes; simpl.
  repeat split.
Qed.

Lemma model_selected_by_language_prefix_witness :
  stream_calls (snd (handle initial (start_streaming env_with_key_file client_ok cfg_ru_RU)))
    = [streamingRecognize 0 (request_of cfg_ru_RU)] /\
  languageCode (config (request_of cfg_ru_RU)) = string_or (language cfg_ru_RU) "en-US" /\
  model (config (request_of cfg_ru_RU)) =
    (if prefix "en-" (languageCode (config (request_of cfg_ru_RU)))
     then "medical_dictation" else "command_and_search").
Proof.
  apply (model_selected_by_language_prefix initial env_with_key_file cfg_ru_RU).
  reflexivity.
Defined.

End SessionProperties.

(** * Facts about the string and pattern fragment *)

Module JSFacts.
Import JS.

Lemma unit_eqb_eq (a b : N) : unit_eqb a b = true <-> a = b.
Proof. apply N.eqb_eq. Qed.

Lemma jsstring_eqb_eq (a b : jsstring) : jsstring_eqb a b = true <-> a = b.
Proof.
  revert b; induction a as [|x a IH]; intros [|y b]; simpl; split;
    try discriminate; try reflexivity.
  - intros H; apply andb_true_iff in H as [Hx Hab].
    apply unit_eqb_eq in Hx; apply IH in Hab; now subst.
  - intros H; injection H as -> ->.
    apply andb_true_iff; split; [now apply unit_eqb_eq | now apply IH].
Qed.

Ltac split_leb :=
  repeat match goal with
         | |- context [N.leb ?a ?b] => destruct (N.leb_spec a b); simpl; try lia
         end.

(** Lower-casing a code unit does not change its canonical form. *)
Lemma toUpperCase_toLowerCase (c : N) :
  toUpperCase_unit (toLowerCase_unit c) = toUpperCase_unit c.
Proof.
  unfold toLowerCase_unit, between.
  destruct (N.leb_spec 0x41 c), (N.leb_spec c 0x5A); simpl;
    try (unfold toUpperCase_unit, between; split_leb; fail).
  all: destruct (N.leb_spec 0x410 c), (N.leb_spec c 0x42F); simpl;
    try (unfold toUpperCase_unit, between; split_leb; fail).
  all: destruct (N.leb_spec 0x400 c), (N.leb_spec c 0x40F); simpl;
    try (unfold toUpperCase_unit, between; split_leb; fail).
  all: destruct (N.leb_spec 0x531 c), (N.leb_spec c 0x556); simpl;
    try (unfold toUpperCase_unit, between; split_leb; fail).
  all: reflexivity.
Qed.

Lemma not_letter_fixed (c : N) : is_letter c = false -> toUpperCase_unit c = c.
Proof.
  unfold is_letter; intros H.
  apply orb_false_iff in H as [H _].
  apply negb_false_iff in H; now apply unit_eqb_eq in H.
Qed.

(** A literal in a pattern either fails, or hands over the state after its
    code units. *)
Lemma rmatch_Str (ic : bool) (l : jsstring) :
  forall (st : mstate) (k : mstate -> option mstate),
    rmatch ic (Str l) st k =
    if starts_with ic l (rest st) then k (consume (length l) st) else None.
Proof.
  induction l as [|x l IH]; intros st k; simpl.
  - reflexivity.
  - destruct (rest st) as [|c tl] eqn:Hrest; [reflexivity|].
    destruct (char_matches ic x c); simpl; [|reflexivity].
    rewrite IH; reflexivity.
Qed.

Lemma Alts_cons (r : regex) (rs : list regex) :
  rs <> [] -> Alts (r :: rs) = Alt r (Alts rs).
Proof. destruct rs; [congruence | reflexivity]. Qed.

(** An alternation of literals succeeds where one of them is read. *)
Lemma rmatch_Alts_Str (ic : bool) (lits : list jsstring) (st : mstate) :
  existsb (fun l => starts_with ic l (rest st)) lits = true ->
  rmatch ic (Alts (map Str lits)) st Some <> None.
Proof.
  induction lits as [|l lits IH]; [discriminate|].
  intros H; simpl existsb in H.
  destruct lits as [|l2 lits].
  - simpl in *; rewrite orb_false_r in H.
    rewrite rmatch_Str, H; discriminate.
  - change (map Str (l :: l2 :: lits)) with (Str l :: map Str (l2 :: lits)).
    rewrite Alts_cons by discriminate.
    simpl rmatch.
    destruct (rmatch ic (Str l) st Some) eqn:Hl; [discriminate|].
    rewrite rmatch_Str in Hl.
    destruct (starts_with ic l (rest st)); [discriminate|].
    apply IH; exact H.
Qed.

(** [exec] finds a match of such an alternation as soon as one of the
    literals occurs in the input. *)
Lemma exec_from_Alts_Str (ic : bool) (lits : list jsstring) (l : jsstring) :
  In l lits ->
  forall (s : jsstring) (i : nat) (p : option N),
    occurs ic l s = true ->
    exec_from ic (Alts (map Str lits)) i p s <> None.
Proof.
  intros Hin; induction s as [|c s IH]; intros i p Hocc; simpl in *.
  - rewrite orb_false_r in Hocc.
    unfold match_here.
    destruct (rmatch ic (Alts (map Str lits)) (MState i p [] None) Some) eqn:Hm;
      [discriminate|].
    exfalso; revert Hm; apply rmatch_Alts_Str.
    apply existsb_exists; exists l; split; [exact Hin | exact Hocc].
  - unfold match_here.
    destruct (rmatch ic (Alts (map Str lits)) (MState i p (c :: s) None) Some) eqn:Hm;
      [discriminate|].
    apply IH.
    destruct (starts_with ic l (c :: s)) eqn:Hst; [|exact Hocc].
    exfalso; revert Hm; apply rmatch_Alts_Str.
    apply existsb_exists; exists l; split; [exact Hin | exact Hst].
Qed.

Lemma test_Alts_Str (ic : bool) (lits : list jsstring) (l s : jsstring) :
  In l lits -> occurs ic l s = true -> test ic (Alts (map Str lits)) s = true.
Proof.
  intros Hin Hocc; unfold test, exec.
  destruct (exec_from ic (Alts (map Str lits)) 0 None s) eqn:He; [reflexivity|].
  exfalso; revert He; now apply exec_from_Alts_Str with (l := l).
Qed.

Lemma occurs_tail (ic : bool) (l : jsstring) (c : N) (s : jsstring) :
  occurs ic l s = true -> occurs ic l (c :: s) = true.
Proof. intros H; simpl; rewrite H; apply orb_true_r. Qed.

Lemma occurs_here (ic : bool) (l s : jsstring) :
  starts_with ic l s = true -> occurs ic l s = true.
Proof. intros H; destruct s; simpl; rewrite H; reflexivity. Qed.

(** Where a literal is read, so is each of its suffixes, later on. *)
Lemma occurs_suffix (ic : bool) (pre l : jsstring) :
  forall s, occurs ic (pre ++ l) s = true -> occurs ic l s = true.
Proof.
  assert (Hst : forall s, starts_with ic (pre ++ l) s = true -> occurs ic l s = true).
  { induction pre as [|x pre IH]; intros s H.
    - now apply occurs_here.
    - destruct s as [|c s]; [discriminate|].
      simpl in H; apply andb_true_iff in H as [_ H].
      apply occurs_tail; now apply IH. }
  induction s as [|c s IH]; intros H.
  - apply Hst; simpl in H; rewrite orb_false_r in H; exact H.
  - simpl in H; apply orb_true_iff in H as [H|H].
    + now apply Hst.
    + apply occurs_tail; now apply IH.
Qed.

(** A literal found in the lower-cased text is read, under the [i] flag,
    in the text itself. *)
Lemma starts_with_lower (l : jsstring) :
  forall s, startsWith l (toLowerCase s) = true -> starts_with true l s = true.
Proof.
  induction l as [|x l IH]; intros [|c s]; simpl; try reflexivity; try discriminate.
  intros H; apply andb_true_iff in H as [Hx Hl].
  apply andb_true_iff; split; [|now apply IH].
  apply unit_eqb_eq in Hx; subst x.
  unfold char_matches; apply unit_eqb_eq, toUpperCase_toLowerCase.
Qed.

Lemma occurs_lower (l : jsstring) :
  forall s, includes (toLowerCase s) l = true -> occurs true l s = true.
Proof.
  induction s as [|c s IH]; intros H.
  - simpl in *; rewrite orb_false_r in *.
    now apply (starts_with_lower l []).
  - change (toLowerCase (c :: s)) with (toLowerCase_unit c :: toLowerCase s) in H.
    simpl includes in H.
    apply orb_true_iff in H as [H|H].
    + apply occurs_here; now apply (starts_with_lower l (c :: s)).
    + apply occurs_tail; now apply IH.
Qed.

(** A term pattern finds nothing where its term is not read. *)
Lemma match_here_term_none (l : jsstring) (i : nat) (p : option N) (s : jsstring) :
  starts_with true l s = false ->
  match_here true (Seq WordBoundary (Seq (Str l) WordBoundary)) i p s = None.
Proof.
  intros H; unfold match_here; simpl.
  destruct (at_word_boundary (MState i p s None)); [|reflexivity].
  rewrite rmatch_Str; simpl; now rewrite H.
Qed.

(** Replacing a term that does not occur leaves the text as it is. *)
Lemma replace_from_absent (l replacement : jsstring) :
  forall (s : jsstring) (i : nat) (p : option N),
    occurs true l s = false ->
    replace_from true (Seq WordBoundary (Seq (Str l) WordBoundary))
                 replacement i p s 0 = s.
Proof.
  induction s as [|c s IH]; intros i p H; simpl in H;
    apply orb_false_iff in H as [Hst Hocc]; simpl replace_from.
  - now rewrite match_here_term_none.
  - rewrite match_here_term_none by exact Hst.
    now rewrite IH.
Qed.

(** Where a literal is read there is, for each of its code units, a code
    unit of the text with the same canonical form. *)
Lemma starts_with_units (P : N -> bool) (l : jsstring) :
  forall s,
    starts_with true l s = true ->
    forallb (fun c => P (toUpperCase_unit c)) s = true ->
    forallb (fun c => P (toUpperCase_unit c)) l = true.
Proof.
  induction l as [|x l IH]; intros [|c s]; simpl; try reflexivity; try discriminate.
  intros H Hs.
  apply andb_true_iff in H as [Hx Hl]; apply andb_true_iff in Hs as [Hc Hs].
  unfold char_matches in Hx; apply unit_eqb_eq in Hx; rewrite Hx, Hc; simpl.
  now apply IH with (s := s).
Qed.

Lemma occurs_units (P : N -> bool) (l : jsstring) :
  forallb (fun c => P (toUpperCase_unit c)) l = false ->
  forall s,
    forallb (fun c => P (toUpperCase_unit c)) s = true ->
    occurs true l s = false.
Proof.
  intros Hl; induction s as [|c s IH]; intros Hs.
  - simpl; rewrite orb_false_r.
    destruct (starts_with true l []) eqn:H; [|reflexivity].
    now rewrite (starts_with_units P l [] H Hs) in Hl.
  - simpl occurs; apply orb_false_iff; split.
    + destruct (starts_with true l (c :: s)) eqn:H; [|reflexivity].
      now rewrite (starts_with_units P l (c :: s) H Hs) in Hl.
    + apply IH; simpl in Hs; now apply andb_true_iff in Hs as [_ Hs].
Qed.

End JSFacts.

(** * Facts about term patterns and their replacement *)

Module TermFacts.
Import JS Enhancement TermMatching.

Ltac case_units :=
  repeat (match goal with
          | |- context [N.leb ?a ?b] => destruct (N.leb_spec a b)
          | |- context [N.eqb ?a ?b] => destruct (N.eqb_spec a b)
          end; cbn [andb orb negb xorb]; try lia).

(** Upper-casing keeps a code unit on its side of [\b]. *)
Lemma is_word_upper (c : N) : is_word (toUpperCase_unit c) = is_word c.
Proof.
  unfold toUpperCase_unit, between.
  destruct (N.leb_spec 0x61 c), (N.leb_spec c 0x7A); cbn [andb];
    try (unfold is_word, is_digit, between, unit_eqb; case_units; reflexivity).
  all: destruct (N.leb_spec 0x430 c), (N.leb_spec c 0x44F); cbn [andb];
    try (unfold is_word, is_digit, between, unit_eqb; case_units; reflexivity).
  all: destruct (N.leb_spec 0x450 c), (N.leb_spec c 0x45F); cbn [andb];
    try (unfold is_word, is_digit, between, unit_eqb; case_units; reflexivity).
  all: destruct (N.leb_spec 0x561 c), (N.leb_spec c 0x586); cbn [andb];
    try (unfold is_word, is_digit, between, unit_eqb; case_units; reflexivity).
  all: reflexivity.
Qed.

Lemma char_matches_wordness (x c : N) :
  char_matches true x c = true -> is_word x = is_word c.
Proof.
  unfold char_matches; intros H; apply N.eqb_eq in H.
  now rewrite <- (is_word_upper x), <- (is_word_upper c), H.
Qed.


Lemma at_word_boundary_spec (st : mstate) :
  at_word_boundary st = boundary (prev st) (rest st).
Proof. unfold at_word_boundary, boundary, wordness; now destruct (rest st). Qed.

Lemma rmatch_Lit (ic : bool) (x : N) (st : mstate) (k : mstate -> option mstate) :
  rmatch ic (Lit x) st k =
  match rest st with
  | c :: tl => if char_matches ic x c then k (advance st c tl) else None
  | [] => None
  end.
Proof. reflexivity. Qed.

(** What the matcher does with a literal followed by [\b]. *)
Lemma rmatch_literal_boundary (u : jsstring) :
  forall (st : mstate) (k : mstate -> option mstate),
    rmatch true (Seq (Str u) WordBoundary) st k =
    if reads_term u (prev st) (rest st) then k (consume (length u) st) else None.
Proof.
  induction u as [|x u IH]; intros st k.
  - simpl; rewrite at_word_boundary_spec; reflexivity.
  - change (rmatch true (Seq (Str (x :: u)) WordBoundary) st k)
      with (rmatch true (Lit x) st
              (fun st1 => rmatch true (Seq (Str u) WordBoundary) st1 k)).
    rewrite rmatch_Lit; cbn [reads_term].
    destruct (rest st) as [|c tl] eqn:Hrest; [reflexivity|].
    destruct (char_matches true x c); [|reflexivity].
    rewrite IH; cbn [andb length consume prev rest advance]; now rewrite Hrest.
Qed.

Lemma match_here_term (u : jsstring) (i : nat) (p : option N) (s : jsstring) :
  match_here true (termPattern u) i p s =
  if term_at u p s then Some (consume (length u) (MState i p s None)) else None.
Proof.
  unfold match_here, termPattern, term_at.
  change (rmatch true (Seq WordBoundary (Seq (Str u) WordBoundary))
                 (MState i p s None) Some)
    with (if at_word_boundary (MState i p s None)
          then rmatch true (Seq (Str u) WordBoundary) (MState i p s None) Some
          else None).
  rewrite at_word_boundary_spec, rmatch_literal_boundary; simpl.
  destruct (boundary p s); reflexivity.
Qed.

Lemma reads_term_length (u : jsstring) :
  forall p s, reads_term u p s = true -> length u <= length s.
Proof.
  induction u as [|x u IH]; intros p s H; simpl; [lia|].
  destruct s as [|c s]; simpl in H; [discriminate|].
  apply andb_true_iff in H as [_ H]; apply IH in H; simpl; lia.
Qed.

Lemma endIndex_consume (n : nat) :
  forall st, n <= length (rest st) -> endIndex (consume n st) = endIndex st + n.
Proof.
  induction n as [|n IH]; intros st H; simpl; [lia|].
  destruct (rest st) as [|c tl] eqn:Hr; simpl in H; [lia|].
  rewrite IH; simpl; lia.
Qed.

(** [replace] with a term pattern is [replace_term]. *)
Lemma replace_from_term (t r : jsstring) :
  t <> [] ->
  forall (s : jsstring) (i : nat) (p : option N) (skip : nat),
    replace_from true (termPattern t) r i p s skip = replace_term t r p s skip.
Proof.
  intros Ht; induction s as [|c s IH]; intros i p skip.
  - destruct skip; simpl; [|reflexivity].
    rewrite match_here_term.
    destruct t as [|x t]; [congruence|].
    unfold term_at; simpl; now rewrite andb_false_r.
  - destruct skip as [|n]; simpl replace_from; [|simpl; apply IH].
    rewrite match_here_term; simpl replace_term.
    destruct (term_at t p (c :: s)) eqn:Hat.
    + unfold term_at in Hat; apply andb_true_iff in Hat as [_ Hr].
      apply reads_term_length in Hr.
      rewrite endIndex_consume by (simpl; exact Hr); simpl endIndex.
      destruct t as [|x t]; [congruence|].
      replace (i + length (x :: t) - i) with (S (length t)) by (simpl; lia).
      cbn [length Nat.sub]; rewrite ?Nat.sub_0_r, IH; reflexivity.
    + now rewrite IH.
Qed.

Lemma replace_all_term (t r s : jsstring) :
  t <> [] -> replace_all true (termPattern t) r s = replace_term t r None s 0.
Proof. intros Ht; unfold replace_all; now apply replace_from_term. Qed.

Lemma replace_term_skip (t r : jsstring) (n : nat) :
  forall p s,
    replace_term t r p s n =
    replace_term t r (fst (skip_units n p s)) (snd (skip_units n p s)) 0.
Proof.
  induction n as [|n IH]; intros p s.
  - destruct s; reflexivity.
  - destruct s as [|c s]; simpl; [reflexivity|apply IH].
Qed.

(** Where [t] matches, the result starts with [r] and goes on after the
    match. *)
Lemma replace_term_match (t r : jsstring) (p : option N) (s : jsstring) :
  t <> [] ->
  term_at t p s = true ->
  replace_term t r p s 0 =
  r ++ replace_term t r (fst (skip_units (length t) p s))
                        (snd (skip_units (length t) p s)) 0.
Proof.
  intros Ht Hat.
  destruct s as [|c s].
  - destruct t as [|x t]; [congruence|].
    unfold term_at in Hat; simpl in Hat; now rewrite andb_false_r in Hat.
  - simpl replace_term; rewrite Hat, replace_term_skip.
    destruct t as [|x t]; [congruence|].
    cbn [length Nat.sub skip_units]; rewrite ?Nat.sub_0_r; reflexivity.
Qed.

Lemma replace_term_copy (t r : jsstring) (p : option N) (c : N) (s : jsstring) :
  term_at t p (c :: s) = false ->
  replace_term t r p (c :: s) 0 = c :: replace_term t r (Some c) s 0.
Proof. intros Hat; simpl; now rewrite Hat. Qed.

Lemma last_unit_wordness (t : jsstring) (q q' : option N) :
  wordness q = wordness q' -> wordness (last_unit q t) = wordness (last_unit q' t).
Proof. destruct t; simpl; auto. Qed.

(** After a term has been read: a boundary, and the wordness of the
    term's last code unit behind. *)
Lemma reads_term_end (t : jsstring) :
  forall p s,
    reads_term t p s = true ->
    boundary (fst (skip_units (length t) p s)) (snd (skip_units (length t) p s)) = true /\
    wordness (fst (skip_units (length t) p s)) = wordness (last_unit p t).
Proof.
  induction t as [|x t IH]; intros p s H.
  - simpl in *; destruct s; simpl; auto.
  - destruct s as [|c s]; cbn [reads_term] in H; [discriminate|].
    apply andb_true_iff in H as [Hx H].
    destruct (IH _ _ H) as [Hb Hw]; cbn [length skip_units].
    split; [exact Hb|].
    rewrite Hw; change (last_unit p (x :: t)) with (last_unit (Some x) t).
    apply last_unit_wordness; cbn [wordness].
    symmetry; now apply char_matches_wordness.
Qed.

Lemma term_at_first (t : jsstring) (p : option N) (s : jsstring) :
  t <> [] ->
  term_at t p s = true ->
  wordness (hd_error s) = wordness (hd_error t) /\
  wordness p = negb (wordness (hd_error t)).
Proof.
  intros Ht H; unfold term_at in H; apply andb_true_iff in H as [Hb Hr].
  destruct t as [|x t]; [congruence|].
  destruct s as [|c s]; cbn [reads_term] in Hr; [discriminate|].
  apply andb_true_iff in Hr as [Hx _].
  apply char_matches_wordness in Hx.
  unfold boundary in Hb; cbn [hd_error wordness] in *.
  rewrite Hx; split; [reflexivity|].
  destruct (wordness p), (is_word c); simpl in *; congruence.
Qed.


Lemma skip_units_length (n : nat) :
  forall p s, length (snd (skip_units n p s)) = length s - n.
Proof.
  induction n as [|n IH]; intros p s; simpl; [lia|].
  destruct s as [|c s]; simpl; [reflexivity|apply IH].
Qed.

Lemma term_occurs_skip (u : jsstring) (n : nat) :
  forall p s,
    term_occurs u p s = false ->
    term_occurs u (fst (skip_units n p s)) (snd (skip_units n p s)) = false.
Proof.
  induction n as [|n IH]; intros p s H; [exact H|].
  destruct s as [|c s]; [exact H|].
  simpl in H; apply orb_false_iff in H as [_ H].
  simpl; now apply IH.
Qed.

(** What [may_read] answers for is exact reading over the replacement
    followed by any text of the declared wordness. *)
Lemma may_read_sound (wr : bool) (z : jsstring) (u : jsstring) :
  wordness (hd_error z) = wr ->
  forall (p : option N) (rsuf : jsstring),
    reads_term u p (rsuf ++ z) = true ->
    may_read u (wordness p) rsuf wr = true.
Proof.
  intros Hz; induction u as [|x u IH]; intros p rsuf H.
  - destruct rsuf as [|y rsuf]; simpl in *; unfold boundary in H.
    + now rewrite Hz in H.
    + exact H.
  - destruct rsuf as [|y rsuf]; cbn [app reads_term may_read] in *.
    + destruct z as [|c z]; [discriminate|].
      apply andb_true_iff in H as [Hx _].
      apply char_matches_wordness in Hx.
      simpl in Hz; rewrite Hx, Hz; apply eqb_reflx.
    + apply andb_true_iff in H as [Hx H].
      rewrite Hx; simpl; exact (IH (Some y) rsuf H).
Qed.

Lemma term_occurs_nil (u : jsstring) (q : option N) :
  u <> [] -> term_occurs u q [] = false.
Proof.
  intros Hu; destruct u; [congruence|].
  simpl; unfold term_at; simpl; now rewrite andb_false_r.
Qed.

Section NoNewMatch.
Variables t r u : jsstring.
Hypothesis Hcheck : cannot_create t r u = true.

Lemma checked_nonempty : t <> [] /\ r <> [] /\ u <> [].
Proof.
  unfold cannot_create in Hcheck.
  destruct t, r, u; try discriminate; repeat split; discriminate.
Qed.

Lemma checked_first_last : wfirst t = wlast t.
Proof.
  unfold cannot_create in Hcheck.
  destruct t, r, u; try discriminate.
  apply andb_true_iff in Hcheck as [H _]; apply andb_true_iff in H as [H _].
  apply andb_true_iff in H as [H _]; now apply eqb_prop in H.
Qed.

Lemma checked_replacement_last : wordness (last_unit None r) = wlast t.
Proof.
  unfold cannot_create in Hcheck.
  destruct t, r, u; try discriminate.
  apply andb_true_iff in Hcheck as [H _]; apply andb_true_iff in H as [H _].
  apply andb_true_iff in H as [_ H]; now apply eqb_prop in H.
Qed.

Lemma checked_before :
  exists x rest, u = x :: rest /\ no_overlap_before t r x rest = true.
Proof.
  unfold cannot_create in Hcheck.
  destruct t, r, u as [|x rest]; try discriminate.
  exists x, rest; split; [reflexivity|].
  apply andb_true_iff in Hcheck as [H _]; now apply andb_true_iff in H as [_ H].
Qed.

Lemma checked_inside : no_overlap_inside t u (negb (wfirst t)) r = true.
Proof.
  unfold cannot_create in Hcheck.
  destruct t, r, u; try discriminate.
  now apply andb_true_iff in Hcheck as [_ H].
Qed.

(** After a match of [t]: the text that follows the inserted [r] starts
    on the other side of [\b] than [t] ends. *)
Lemma after_match (p : option N) (s : jsstring) :
  term_at t p s = true ->
  wordness (fst (skip_units (length t) p s)) = wlast t /\
  wordness (hd_error (replace_term t r (fst (skip_units (length t) p s))
                                   (snd (skip_units (length t) p s)) 0))
  = negb (wlast t).
Proof.
  intros Hat.
  destruct checked_nonempty as [Ht _].
  pose proof Hat as Hr; unfold term_at in Hr; apply andb_true_iff in Hr as [_ Hr].
  destruct (reads_term_end t p s Hr) as [Hb Hw].
  assert (Hw' : wordness (fst (skip_units (length t) p s)) = wlast t).
  { rewrite Hw; unfold wlast; destruct t; [congruence|reflexivity]. }
  split; [exact Hw'|].
  destruct (skip_units (length t) p s) as [p' s']; simpl in *.
  destruct s' as [|c2 s2].
  - simpl; unfold boundary in Hb; simpl in Hb.
    rewrite xorb_false_r in Hb; rewrite <- Hw', Hb; reflexivity.
  - destruct (term_at t p' (c2 :: s2)) eqn:Hat2.
    + destruct (term_at_first t p' (c2 :: s2) Ht Hat2) as [_ Hp'].
      fold (wfirst t) in Hp'; rewrite checked_first_last, <- Hw' in Hp'.
      destruct (wordness p'); discriminate.
    + rewrite replace_term_copy by exact Hat2; simpl.
      unfold boundary in Hb; simpl in Hb; rewrite <- Hw'.
      destruct (wordness p'), (is_word c2); simpl in *; congruence.
Qed.

(** A match of [u] that starts on text that was copied cannot run into an
    inserted [r]: it was there before the replacement. *)
Lemma reads_term_before (u' : jsstring) :
  forall (s : jsstring) (c lastx : N),
    char_matches true lastx c = true ->
    no_overlap_before t r lastx u' = true ->
    reads_term u' (Some c) (replace_term t r (Some c) s 0) = true ->
    reads_term u' (Some c) s = true.
Proof.
  destruct checked_nonempty as [Ht _].
  induction u' as [|x u' IH]; intros s c lastx Hlast Hno H.
  - destruct s as [|c2 s2]; [exact H|].
    destruct (term_at t (Some c) (c2 :: s2)) eqn:Hat.
    + unfold term_at in Hat; now apply andb_true_iff in Hat as [Hb _].
    + rewrite replace_term_copy in H by exact Hat; exact H.
  - cbn [no_overlap_before] in Hno; apply andb_true_iff in Hno as [Hhere Hno].
    destruct s as [|c2 s2]; [discriminate H|].
    destruct (term_at t (Some c) (c2 :: s2)) eqn:Hat.
    + exfalso.
      rewrite replace_term_match in H by assumption.
      destruct (after_match _ _ Hat) as [_ Hz].
      apply (may_read_sound _ _ _ Hz) in H.
      destruct (term_at_first t _ _ Ht Hat) as [_ Hc].
      fold (wfirst t) in Hc; rewrite Hc in H.
      apply char_matches_wordness in Hlast.
      simpl in Hc; rewrite <- Hlast in Hc.
      rewrite Hc, H, eqb_reflx in Hhere; discriminate.
    + rewrite replace_term_copy in H by exact Hat.
      cbn [reads_term] in *; apply andb_true_iff in H as [Hx H].
      rewrite Hx; simpl.
      now apply IH with (lastx := x).
Qed.

(** No match of [u] starts inside an inserted [r]. *)
Lemma term_occurs_inside (z : jsstring) :
  wordness (hd_error z) = negb (wlast t) ->
  forall (rsuf : jsstring) (q : option N),
    no_overlap_inside t u (wordness q) rsuf = true ->
    term_occurs u (last_unit q rsuf) z = false ->
    term_occurs u q (rsuf ++ z) = false.
Proof.
  intros Hz; induction rsuf as [|y rsuf IH]; intros q Hno H; [exact H|].
  cbn [no_overlap_inside] in Hno; apply andb_true_iff in Hno as [Hhere Hno].
  cbn [app term_occurs]; apply orb_false_iff; split.
  - unfold term_at.
    destruct (boundary q (y :: rsuf ++ z)) eqn:Hb; [|reflexivity].
    destruct (reads_term u q (y :: rsuf ++ z)) eqn:Hr; [|reflexivity].
    apply (may_read_sound _ _ _ Hz q (y :: rsuf)) in Hr.
    unfold boundary in Hb; simpl in Hb.
    rewrite Hb, Hr in Hhere; discriminate.
  - apply IH; [exact Hno | exact H].
Qed.

(** Replacing [t] by [r] creates no match of [u]: where [u] matched
    nowhere before (or is [t] itself), it matches nowhere after. *)
Lemma no_new_match (n : nat) :
  forall (s : jsstring),
    length s <= n ->
    forall (p q : option N),
      wordness q = wordness p ->
      u = t \/ term_occurs u p s = false ->
      term_occurs u q (replace_term t r p s 0) = false.
Proof.
  destruct checked_nonempty as [Ht [Hr Hu]].
  induction n as [|n IH]; intros s Hlen p q Hq Hyp.
  - destruct s; [|simpl in Hlen; lia].
    now apply term_occurs_nil.
  - destruct s as [|c s].
    + now apply term_occurs_nil.
    + destruct (term_at t p (c :: s)) eqn:Hat.
      * rewrite replace_term_match by assumption.
        destruct (after_match _ _ Hat) as [Hp' Hz].
        destruct (term_at_first t _ _ Ht Hat) as [_ Hp].
        apply term_occurs_inside; [exact Hz | |].
        -- rewrite Hq, Hp; exact checked_inside.
        -- apply IH.
           ++ rewrite skip_units_length.
              destruct t; [congruence|]; simpl in *; lia.
           ++ rewrite Hp', <- checked_replacement_last.
              destruct r; [congruence|reflexivity].
           ++ destruct Hyp as [Hyp|Hyp]; [now left|right].
              now apply term_occurs_skip.
      * rewrite replace_term_copy by exact Hat.
        cbn [term_occurs]; apply orb_false_iff; split.
        -- destruct (term_at u q (c :: replace_term t r (Some c) s 0)) eqn:Hnew;
             [exfalso|reflexivity].
           assert (Hold : term_at u p (c :: s) = true).
           { unfold term_at in *; apply andb_true_iff in Hnew as [Hb Hread].
             apply andb_true_iff; split.
             - unfold boundary in *; simpl in *; now rewrite <- Hq.
             - destruct checked_before as (x & u' & Hxu & Hbefore).
               rewrite Hxu in Hread; rewrite Hxu.
               cbn [reads_term] in *; apply andb_true_iff in Hread as [Hx Hread].
               rewrite Hx; simpl.
               now apply reads_term_before with (lastx := x). }
           destruct Hyp as [Hyp|Hyp].
           ++ rewrite Hyp, Hat in Hold; discriminate.
           ++ simpl in Hyp; rewrite Hold in Hyp; discriminate.
        -- apply IH; [simpl in Hlen; lia | reflexivity |].
           destruct Hyp as [Hyp|Hyp]; [now left|right].
           simpl in Hyp; now apply orb_false_iff in Hyp as [_ Hyp].
Qed.

End NoNewMatch.

(** A term that matches nowhere is not replaced. *)
Lemma replace_term_absent (t r : jsstring) :
  forall (s : jsstring) (p : option N),
    term_occurs t p s = false -> replace_term t r p s 0 = s.
Proof.
  induction s as [|c s IH]; intros p H; [reflexivity|].
  simpl in H; apply orb_false_iff in H as [Hat H].
  rewrite replace_term_copy by exact Hat; now rewrite IH.
Qed.

(** One pass of the loop leaves no match of the terms it has handled. *)
Lemma pass_leaves_no_match (l : list (jsstring * jsstring)) :
  forall (done : list jsstring) (s : jsstring),
    (forall e u, In e l -> In u (done ++ map fst l) ->
                 cannot_create (fst e) (snd e) u = true) ->
    (forall u, In u done -> term_occurs u None s = false) ->
    forall u, In u (done ++ map fst l) ->
              term_occurs u None (fold_left standardize_step l s) = false.
Proof.
  induction l as [|e l IH]; intros done s Hcheck Hdone u Hu.
  - simpl in *; rewrite app_nil_r in Hu; now apply Hdone.
  - simpl fold_left.
    apply IH with (done := done ++ [fst e]).
    + intros e' u' He' Hu'; apply Hcheck; [now right|].
      rewrite <- app_assoc in Hu'; exact Hu'.
    + intros u' Hu'.
      assert (Hc : cannot_create (fst e) (snd e) u' = true).
      { apply Hcheck; [now left|].
        apply in_app_iff in Hu' as [Hu'|[<-|[]]]; apply in_app_iff;
          [now left | right; now left]. }
      unfold standardize_step.
      rewrite replace_all_term by (apply (checked_nonempty _ _ _ Hc)).
      apply no_new_match with (n := length s); [exact Hc | lia | reflexivity |].
      apply in_app_iff in Hu' as [Hu'|[<-|[]]]; [right; now apply Hdone | now left].
    + rewrite <- app_assoc; exact Hu.
Qed.

Lemma pass_without_match (l : list (jsstring * jsstring)) (s : jsstring) :
  (forall e, In e l -> fst e <> [] /\ term_occurs (fst e) None s = false) ->
  fold_left standardize_step l s = s.
Proof.
  induction l as [|e l IH]; intros H; [reflexivity|].
  simpl fold_left.
  destruct (H e (or_introl eq_refl)) as [Hne Habs].
  unfold standardize_step at 2.
  rewrite replace_all_term, replace_term_absent by assumption.
  apply IH; intros e' He'; apply H; now right.
Qed.

(** No replacement of the table can create a match of a term of the
    table. *)
Lemma table_cannot_create :
  forallb (fun e => forallb (fun e' => cannot_create (fst e) (snd e) (fst e'))
                            sortedTerms) sortedTerms = true.
Proof. vm_compute; reflexivity. Qed.

Lemma standardizeTerms_no_match_left (transcript : jsstring) :
  forall e, In e sortedTerms ->
            fst e <> [] /\ term_occurs (fst e) None (standardizeTerms transcript) = false.
Proof.
  intros e He.
  pose proof table_cannot_create as Htable.
  rewrite forallb_forall in Htable.
  split.
  - specialize (Htable e He); rewrite forallb_forall in Htable.
    apply (checked_nonempty _ _ _ (Htable e He)).
  - apply (pass_leaves_no_match sortedTerms [] transcript).
    + intros e1 u1 He1 Hu1.
      change ([] ++ map fst sortedTerms) with (map fst sortedTerms) in Hu1.
      apply in_map_iff in Hu1 as [e2 [<- He2]].
      specialize (Htable e1 He1); rewrite forallb_forall in Htable.
      now apply Htable.
    + intros u1 [].
    + change ([] ++ map fst sortedTerms) with (map fst sortedTerms).
      now apply in_map.
Qed.

Lemma standardizeTerms_idempotent (transcript : jsstring) :
  standardizeTerms (standardizeTerms transcript) = standardizeTerms transcript.
Proof.
  apply (pass_without_match sortedTerms (standardizeTerms transcript)).
  apply standardizeTerms_no_match_left.
Qed.

End TermFacts.

(** * Properties of the enhancement service *)

Module EnhancementProperties.
Import JS Enhancement.

(** C7: on "EF 55%, BPD 8.5 cm, GA 32 weeks, HR 140 bpm" the extractor
    returns ejection_fraction 55, biparietal_diameter 8.5 (= 17/2),
    gestational_age 32 and heart_rate 140; the three integer patterns are
    read by [parseInt], the decimal one by [parseFloat]; and each value
    comes from the first match only: whatever text follows the sample
    (further mentions included), the result is the same. *)
Theorem extractMeasurements_sample :
  extractMeasurements MEASUREMENTS_SAMPLE =
    {| ejection_fraction := Some (Num (55 # 1));
       biparietal_diameter := Some (Num (17 # 2));
       gestational_age := Some (Num (32 # 1));
       heart_rate := Some (Num (140 # 1)) |} /\
  (option_map (fun m => parseInt (group m)) (exec true efPattern MEASUREMENTS_SAMPLE)
     = Some (Num (55 # 1)) /\
   option_map (fun m => parseFloat (group m)) (exec true bpdPattern MEASUREMENTS_SAMPLE)
     = Some (Num (17 # 2))) /\
  forall later : jsstring,
    extractMeasurements (MEASUREMENTS_SAMPLE ++ later) =
    extractMeasurements MEASUREMENTS_SAMPLE.
Proof.
  split; [vm_compute; reflexivity|].
  split; [split; vm_compute; reflexivity|].
  intros later; vm_compute; reflexivity.
Qed.

(** *** classifySection *)

Lemma multilingual_section_label (lowerText label : jsstring) :
  multilingual_section lowerText = Some label -> In label MULTILINGUAL_LABELS.
Proof.
  unfold multilingual_section, MULTILINGUAL_LABELS.
  repeat match goal with
         | |- context [if ?b then _ else _] => destruct b
         end; intros H; inversion H; simpl; auto.
Qed.

(** C3 as stated fails: for the abdominal procedure, a text with the
    Russian phrase for the left ventricle is labelled "Left Ventricle",
    which is not in the abdominal list; and for a name inherited from
    [Object.prototype] the call ends with a TypeError instead of
    returning. *)
Lemma classifySection_label_outside_list :
  classifySection (js "левый желудочек") (js "abdominal-ultrasound")
    = returns (Some (js "Left Ventricle")) /\
  own_property PROCEDURE_SECTIONS (js "abdominal-ultrasound")
    = Some [ js "Liver"; js "Gallbladder"; js "Kidneys"; js "Spleen";
             js "Pancreas"; js "Aorta" ] /\
  ~ In (js "Left Ventricle")
       [ js "Liver"; js "Gallbladder"; js "Kidneys"; js "Spleen";
         js "Pancreas"; js "Aorta" ] /\
  classifySection (js "liver") (js "constructor") = throws_TypeError.
Proof.
  repeat split; try (vm_compute; reflexivity).
  vm_compute; intros H.
  repeat (destruct H as [H|H]; [discriminate H|]).
  exact H.
Qed.

(** C3, amended: for every text and procedure type, a label returned by
    [classifySection] is either in the list configured for that procedure
    type or one of the three labels of the multilingual checks ("Left
    Ventricle", "Right Ventricle", "Mitral Valve", all of them labels of
    the echocardiogram list), which are tried for every configured
    procedure type when no label of its list is mentioned; no label is
    returned for a procedure type that is no key of the table. *)
Theorem classifySection_label_origin :
  forall text procedureType label : jsstring,
    classifySection text procedureType = returns (Some label) ->
    exists sections,
      own_property PROCEDURE_SECTIONS procedureType = Some sections /\
      (In label sections \/
       forallb (fun section => negb (mentions (toLowerCase text) section)) sections
         = true /\
       In label MULTILINGUAL_LABELS /\
       exists echo,
         own_property PROCEDURE_SECTIONS (js "echocardiogram") = Some echo /\
         In label echo).
Proof.
  intros text procedureType label; unfold classifySection, get_sections.
  destruct (own_property PROCEDURE_SECTIONS procedureType) as [sections|] eqn:Hown.
  - destruct (find (mentions (toLowerCase text)) sections) as [section|] eqn:Hfind;
      intros H; injection H as H.
    + exists sections; split; [reflexivity|]; left.
      subst section; apply find_some in Hfind; tauto.
    + exists sections; split; [reflexivity|]; right.
      split.
      { apply forallb_forall; intros section Hin.
        apply (find_none _ _ Hfind) in Hin; now rewrite Hin. }
      apply multilingual_section_label in H.
      split; [exact H|].
      eexists; split; [vm_compute; reflexivity|].
      vm_compute in H; vm_compute.
      destruct H as [<-|[<-|[<-|[]]]]; auto 10.
  - destruct (existsb (jsstring_eqb procedureType) OBJECT_PROTOTYPE_KEYS); discriminate.
Qed.

Lemma classifySection_label_origin_witness :
  exists sections,
    own_property PROCEDURE_SECTIONS (js "abdominal-ultrasound") = Some sections /\
    (In (js "Left Ventricle") sections \/
     forallb (fun section => negb (mentions (toLowerCase (js "Печень. Левый желудочек")) section))
             sections = true /\
     In (js "Left Ventricle") MULTILINGUAL_LABELS /\
     exists echo,
       own_property PROCEDURE_SECTIONS (js "echocardiogram") = Some echo /\
       In (js "Left Ventricle") echo).
Proof.
  apply (classifySection_label_origin (js "Печень. Левый желудочек")
                                      (js "abdominal-ultrasound")
                                      (js "Left Ventricle")).
  vm_compute; reflexivity.
Defined.

(** *** standardizeTerms *)

(** Every dictionary term has a letter that no text made of canonical
    abbreviations holds. *)
Lemma terms_have_foreign_letter :
  forallb (fun entry =>
             negb (forallb (fun c => abbreviation_unit (toUpperCase_unit c)) (fst entry)))
          sortedTerms = true.
Proof. vm_compute; reflexivity. Qed.

Lemma abbreviation_unit_upper (c : N) :
  abbreviation_unit c = true -> abbreviation_unit (toUpperCase_unit c) = true.
Proof.
  unfold abbreviation_unit; intros H.
  apply orb_true_iff in H as [H|H].
  - apply negb_true_iff in H.
    rewrite (JSFacts.not_letter_fixed c H), H; reflexivity.
  - apply existsb_exists in H as [x [Hin Hx]].
    apply JSFacts.unit_eqb_eq in Hx; subst x.
    vm_compute in Hin.
    repeat (destruct Hin as [<-|Hin]; [vm_compute; reflexivity|]).
    destruct Hin.
Qed.

Lemma canonical_token_units (tok : jsstring) :
  canonical_token tok = true -> forallb abbreviation_unit tok = true.
Proof.
  unfold canonical_token; intros H.
  apply orb_true_iff in H as [H|H].
  - apply existsb_exists in H as [x [Hin Hx]].
    apply JSFacts.jsstring_eqb_eq in Hx; subst x.
    assert (Hall : forallb (forallb abbreviation_unit) CANONICAL_ABBREVIATIONS = true)
      by (vm_compute; reflexivity).
    rewrite forallb_forall in Hall; now apply Hall.
  - destruct tok as [|c [|? ?]]; try discriminate.
    simpl; unfold abbreviation_unit; now rewrite H.
Qed.

Lemma canonical_text_units (tokens : list jsstring) :
  forallb canonical_token tokens = true ->
  forallb (fun c => abbreviation_unit (toUpperCase_unit c)) (concat tokens) = true.
Proof.
  induction tokens as [|tok tokens IH]; intros H; [reflexivity|].
  simpl in H; apply andb_true_iff in H as [Htok Hrest].
  simpl concat; rewrite forallb_app; apply andb_true_iff; split; [|now apply IH].
  apply canonical_token_units in Htok.
  rewrite forallb_forall in *; intros c Hc.
  apply abbreviation_unit_upper; now apply Htok.
Qed.

(** The loop of [standardizeTerms] over terms that do not occur. *)
Lemma standardize_loop_absent (terms : list (jsstring * jsstring)) (text : jsstring) :
  forallb (fun entry => negb (occurs true (fst entry) text)) terms = true ->
  fold_left
    (fun standardized entry =>
       replace_all true (termPattern (fst entry)) (snd entry) standardized)
    terms text = text.
Proof.
  induction terms as [|[term standard] terms IH]; intros H; [reflexivity|].
  simpl in H; apply andb_true_iff in H as [Hterm Hrest].
  apply negb_true_iff in Hterm.
  simpl fold_left; unfold replace_all at 2, termPattern at 2.
  rewrite JSFacts.replace_from_absent by exact Hterm.
  now apply IH.
Qed.

(** Unmatched text passes through: a text in which no dictionary term is
    read is returned as it is. *)
Lemma standardizeTerms_no_term (text : jsstring) :
  forallb (fun entry => negb (occurs true (fst entry) text)) sortedTerms = true ->
  standardizeTerms text = text.
Proof. apply standardize_loop_absent. Qed.

(** C8: a text that contains only canonical abbreviations (LV, RV, LA, RA,
    EF, MV, AV, TV, PV), with any code units that are not letters between
    or around them, is returned unchanged by [standardizeTerms]; and
    [standardizeTerms] is idempotent: applied to one of its own outputs,
    whatever canonical forms that output holds, it returns it unchanged. *)
Theorem standardizeTerms_stable_on_canonical_forms :
  (forall tokens : list jsstring,
      forallb canonical_token tokens = true ->
      standardizeTerms (concat tokens) = concat tokens) /\
  (forall transcript : jsstring,
      standardizeTerms (standardizeTerms transcript) = standardizeTerms transcript).
Proof.
  split; [|exact TermFacts.standardizeTerms_idempotent].
  intros tokens Htokens.
  apply standardizeTerms_no_term.
  apply canonical_text_units in Htokens.
  pose proof terms_have_foreign_letter as Hterms.
  rewrite forallb_forall in Hterms; apply forallb_forall; intros entry Hin.
  specialize (Hterms entry Hin).
  apply negb_true_iff in Hterms; apply negb_true_iff.
  apply JSFacts.occurs_units with (P := abbreviation_unit); assumption.
Qed.

Lemma standardizeTerms_stable_on_canonical_forms_witness :
  forallb canonical_token [js "LV"; js " "; js "EF"; js ":"; js " "; js "5"; js "5";
                           js "%"; js ","; js " "; js "MV"] = true /\
  standardizeTerms (js "LV EF: 55%, MV") = js "LV EF: 55%, MV".
Proof.
  split; [vm_compute; reflexivity|].
  apply (proj1 standardizeTerms_stable_on_canonical_forms
           [js "LV"; js " "; js "EF"; js ":"; js " "; js "5"; js "5";
            js "%"; js ","; js " "; js "MV"]).
  vm_compute; reflexivity.
Defined.

(** The standardizer at work on a sentence of the service's test file. *)
Example standardizeTerms_english :
  standardizeTerms (js "Patient has left ventricle ejection fraction normal")
  = js "Patient has LV EF normal".
Proof. vm_compute; reflexivity. Qed.

(** In an input, the English rendering of a Russian or Armenian entry
    standing on its own is rewritten once more; in an output of the
    standardizer it never stands that way (idempotence, above). *)
Example standardizeTerms_long_form :
  standardizeTerms (js "left ventricle (LV)") = js "LV (LV)" /\
  standardizeTerms (js "1левый желудочек1") = js "1left ventricle (LV)1" /\
  standardizeTerms (js "левый желудочек") = js "левый желудочек".
Proof. repeat split; vm_compute; reflexivity. Qed.

(** *** detectFindings *)

(** C10: every transcript that contains "abnormal", in any letter case,
    gets [abnormal = true] and also [normal = true]: the pattern of the
    normal flag reads "normal" inside "abnormal". *)
Theorem detectFindings_abnormal_is_also_normal :
  forall transcript : jsstring,
    includes (toLowerCase transcript) (js "abnormal") = true ->
    abnormal (detectFindings transcript) = true /\
    normal (detectFindings transcript) = true.
Proof.
  intros transcript H.
  apply JSFacts.occurs_lower in H.
  split; simpl.
  - apply JSFacts.test_Alts_Str with (l := js "abnormal"); [|exact H].
    vm_compute; auto.
  - apply JSFacts.test_Alts_Str with (l := js "normal"); [vm_compute; auto|].
    apply JSFacts.occurs_suffix with (pre := js "ab"); exact H.
Qed.

Lemma detectFindings_abnormal_is_also_normal_witness :
  includes (toLowerCase (js "Abnormal findings with dilated left ventricle"))
           (js "abnormal") = true /\
  abnormal (detectFindings (js "Abnormal findings with dilated left ventricle")) = true /\
  normal (detectFindings (js "Abnormal findings with dilated left ventricle")) = true.
Proof.
  split; [vm_compute; reflexivity|].
  apply (detectFindings_abnormal_is_also_normal
           (js "Abnormal findings with dilated left ventricle")).
  vm_compute; reflexivity.
Defined.

End EnhancementProperties.

(** * Further properties of the streaming session *)

Module SessionExtras.
Import Session SessionTrace.
Local Open Scope string_scope.
Local Open Scope nat_scope.
Local Open Scope list_scope.

Lemma run_snoc (s : session) (xs ys : list input) :
  run s (xs ++ ys) =
  (fst (run (fst (run s xs)) ys), snd (run s xs) ++ snd (run (fst (run s xs)) ys)).
Proof.
  revert s; induction xs as [|x xs IH]; intros s; simpl.
  - destruct (run s ys); reflexivity.
  - destruct (handle s x) as [s1 e1]; rewrite IH.
    destruct (run s1 xs) as [s2 e2]; simpl.
    destruct (run s2 ys) as [s3 e3]; simpl.
    now rewrite app_assoc.
Qed.

Lemma run_cons (s : session) (i : input) (inputs : list input) :
  run s (i :: inputs) =
  (fst (run (fst (handle s i)) inputs),
   snd (handle s i) ++ snd (run (fst (handle s i)) inputs)).
Proof.
  simpl; destruct (handle s i) as [s1 e1]; simpl.
  destruct (run s1 inputs); reflexivity.
Qed.

Lemma disciplined_app (t1 t2 : list effect) :
  forall next opened,
    disciplined next opened (t1 ++ t2) =
    disciplined next opened t1 &&
    disciplined (next + creations t1) (open_streams opened t1) t2.
Proof.
  induction t1 as [|e t1 IH]; intros next opened.
  - simpl; now rewrite Nat.add_0_r.
  - destruct e; simpl; rewrite ?IH, ?andb_assoc;
      try reflexivity.
    now replace (S next + creations t1) with (next + S (creations t1)) by lia.
Qed.

Lemma existsb_eqb_In (x : nat) (l : list nat) :
  In x l -> existsb (Nat.eqb x) l = true.
Proof.
  intros H; apply existsb_exists; exists x; split; [exact H|apply Nat.eqb_refl].
Qed.

(** One event: the calls respect the streams, and the stream held
    afterwards is open. *)
Lemma handle_disciplined (s : session) (i : input) (opened : list nat) :
  (forall x, recognizeStream s = Some x -> In x opened) ->
  disciplined (created s) opened (snd (handle s i)) = true /\
  created (fst (handle s i)) = created s + creations (snd (handle s i)) /\
  (forall x, recognizeStream (fst (handle s i)) = Some x ->
             In x (open_streams opened (snd (handle s i)))).
Proof.
  intros Hheld; destruct i; simpl.
  - unfold on_start_streaming.
    destruct (negb _ && negb _); simpl.
    + repeat split; [lia | exact Hheld].
    + destruct client; simpl.
      * rewrite Nat.eqb_refl; repeat split; [lia|].
        intros x Hx; injection Hx as <-; apply in_or_app; right; now left.
      * repeat split; [lia | exact Hheld].
  - unfold on_audio_chunk.
    destruct (recognizeStream s) as [x|] eqn:Hs; simpl.
    + rewrite (existsb_eqb_In x opened (Hheld x eq_refl)).
      destruct outcome; simpl; repeat split; try lia;
        intros y Hy; rewrite Hs in Hy; injection Hy as <-; now apply Hheld.
    + repeat split; [lia|]; intros y Hy; rewrite Hs in Hy; discriminate.
  - unfold on_stop_streaming.
    destruct (recognizeStream s) as [x|] eqn:Hs; simpl.
    + rewrite (existsb_eqb_In x opened (Hheld x eq_refl)).
      repeat split; [lia | discriminate].
    + repeat split; [lia|]; intros y Hy; rewrite Hs in Hy; discriminate.
  - unfold on_disconnect.
    destruct (recognizeStream s) as [x|] eqn:Hs; simpl.
    + rewrite (existsb_eqb_In x opened (Hheld x eq_refl)).
      repeat split; [lia | discriminate].
    + repeat split; [lia|]; intros y Hy; rewrite Hs in Hy; discriminate.
  - destruct (stream <? created s); simpl; repeat split; try lia; exact Hheld.
  - destruct (stream <? created s); simpl; [|repeat split; try lia; exact Hheld].
    unfold on_stream_data.
    destruct (results data) as [|r ?]; simpl; [repeat split; try lia; exact Hheld|].
    destruct (alternatives r); simpl; repeat split; try lia; exact Hheld.
Qed.

Lemma run_disciplined (inputs : list input) :
  forall (s : session) (opened : list nat),
    (forall x, recognizeStream s = Some x -> In x opened) ->
    disciplined (created s) opened (snd (run s inputs)) = true.
Proof.
  induction inputs as [|i inputs IH]; intros s opened Hheld; [reflexivity|].
  rewrite run_cons; simpl snd.
  destruct (handle_disciplined s i opened Hheld) as (Hd & Hc & Hh).
  rewrite disciplined_app, Hd, <- Hc; simpl.
  now apply IH.
Qed.

(** X2: whatever the events of a connection, the calls made on
    recognition streams respect their life: every stream is created under
    a fresh rank, and [write] and [end] are only ever called on a stream
    that was created and not yet ended; no stream is ended twice. *)
Theorem stream_calls_are_disciplined :
  forall inputs : list input,
    disciplined 0 [] (snd (run initial inputs)) = true.
Proof.
  intros inputs; apply (run_disciplined inputs initial []).
  intros x Hx; discriminate.
Qed.


Lemma starts_guarded_app (xs ys : list input) :
  forall s, starts_guarded s (xs ++ ys) = true ->
            starts_guarded s xs = true /\ starts_guarded (fst (run s xs)) ys = true.
Proof.
  induction xs as [|x xs IH]; intros s H; [split; [reflexivity|exact H]|].
  rewrite run_cons; cbn [fst].
  change ((x :: xs) ++ ys) with (x :: (xs ++ ys)) in H.
  cbn [starts_guarded] in *.
  destruct x, (recognizeStream s); try discriminate; now apply IH.
Qed.

(** X1: as long as no [start-streaming] arrives while the session holds a
    stream, at most one stream is open at every moment of the connection,
    and it is the one the session holds. *)
Theorem one_stream_open_when_starts_are_guarded :
  forall before after : list input,
    starts_guarded initial (before ++ after) = true ->
    open_streams [] (snd (run initial before)) = held (fst (run initial before)) /\
    length (open_streams [] (snd (run initial before))) <= 1.
Proof.
  intros before after H.
  apply starts_guarded_app in H as [H _].
  exact (SessionProperties.guarded_starts_keep_one_stream before initial H).
Qed.

Lemma one_stream_open_when_starts_are_guarded_witness :
  let start := start_streaming env_with_key_file client_ok cfg_en_US in
  let before := [start; audio_chunk sample_chunk write_ok; stop_streaming; start] in
  let after := [stop_streaming; start; disconnect] in
  open_streams [] (snd (run initial before)) = held (fst (run initial before)) /\
  length (open_streams [] (snd (run initial before))) <= 1.
Proof.
  apply (one_stream_open_when_starts_are_guarded
           [start_streaming env_with_key_file client_ok cfg_en_US;
            audio_chunk sample_chunk write_ok; stop_streaming;
            start_streaming env_with_key_file client_ok cfg_en_US]
           [stop_streaming; start_streaming env_with_key_file client_ok cfg_en_US;
            disconnect]).
  reflexivity.
Defined.

(** X5: when no [start-streaming] arrived while a stream was held, a
    [disconnect] leaves no stream open and none held, whatever happened
    before, and emits nothing. *)
Theorem disconnect_releases_the_stream :
  forall inputs : list input,
    starts_guarded initial inputs = true ->
    open_streams [] (snd (run initial (inputs ++ [disconnect]))) = [] /\
    recognizeStream (fst (run initial (inputs ++ [disconnect]))) = None /\
    emissions (snd (handle (fst (run initial inputs)) disconnect)) = [].
Proof.
  intros inputs H.
  destruct (SessionProperties.guarded_starts_keep_one_stream inputs initial H)
    as [Hopen _].
  rewrite run_snoc; cbn [fst snd].
  rewrite SessionProperties.open_streams_app.
  change (held initial) with (@nil nat) in Hopen; rewrite Hopen.
  unfold held; simpl; unfold on_disconnect.
  destruct (recognizeStream (fst (run initial inputs))) eqn:Hr; simpl;
    rewrite ?Nat.eqb_refl; repeat split; assumption.
Qed.

Lemma disconnect_releases_the_stream_witness :
  let inputs := [start_streaming env_with_key_file client_ok cfg_en_US;
                 audio_chunk sample_chunk write_ok;
                 stream_error 0 "14 UNAVAILABLE"] in
  open_streams [] (snd (run initial (inputs ++ [disconnect]))) = [] /\
  recognizeStream (fst (run initial (inputs ++ [disconnect]))) = None /\
  emissions (snd (handle (fst (run initial inputs)) disconnect)) = [].
Proof.
  apply (disconnect_releases_the_stream
           [start_streaming env_with_key_file client_ok cfg_en_US;
            audio_chunk sample_chunk write_ok;
            stream_error 0 "14 UNAVAILABLE"]).
  reflexivity.
Defined.

(** X3: while a stream is held, audio chunks are written to it one by
    one in the order of arrival, neither merged nor reordered nor
    dropped, whether a write throws or not; the session state does not
    change and nothing is emitted. *)
Theorem chunks_are_forwarded_in_order :
  forall (s : session) (stream : nat) (chunks : list (Buffer * write_outcome)),
    recognizeStream s = Some stream ->
    let inputs := map (fun c => audio_chunk (fst c) (snd c)) chunks in
    fst (run s inputs) = s /\
    stream_calls (snd (run s inputs)) = map (fun c => write stream (fst c)) chunks /\
    emissions (snd (run s inputs)) = [].
Proof.
  intros s stream chunks Hs; simpl.
  induction chunks as [|[chunk outcome] chunks IH]; [repeat split|].
  destruct IH as (IH1 & IH2 & IH3).
  cbn [map fst snd]; rewrite run_cons.
  assert (Hh : handle s (audio_chunk chunk outcome) =
               (s, write stream chunk ::
                   match outcome with
                   | write_ok => []
                   | write_throws => [console_error "Error writing audio chunk:"]
                   end)).
  { simpl; unfold on_audio_chunk; now rewrite Hs. }
  rewrite Hh; cbn [fst snd].
  unfold stream_calls, emissions in *.
  rewrite IH1; split; [reflexivity|].
  destruct outcome; simpl; rewrite ?IH2, ?IH3; split; reflexivity.
Qed.

Lemma chunks_are_forwarded_in_order_witness :
  let s := {| recognizeStream := Some 0; created := 1 |} in
  let chunks := [([1; 2]%N, write_ok); ([3]%N, write_throws); ([4; 5]%N, write_ok)] in
  let inputs := map (fun c => audio_chunk (fst c) (snd c)) chunks in
  fst (run s inputs) = s /\
  stream_calls (snd (run s inputs)) = map (fun c => write 0 (fst c)) chunks /\
  emissions (snd (run s inputs)) = [].
Proof.
  apply (chunks_are_forwarded_in_order
           {| recognizeStream := Some 0; created := 1 |} 0
           [([1; 2]%N, write_ok); ([3]%N, write_throws); ([4; 5]%N, write_ok)]).
  reflexivity.
Defined.

(** X4: the results of a stream are forwarded to the client in the order
    the stream delivers them, interim and final alike, each as one
    [streaming-transcript] event carrying the transcript and confidence of
    the first alternative of the first result unchanged; nothing is
    deduplicated, no call is made on any stream and the session state
    does not change. *)
Theorem transcripts_are_forwarded_in_order :
  forall (s : session) (stream : nat)
         (items : list (Alternative * bool * list Alternative * list Result)),
    stream < created s ->
    let data_of := fun it : Alternative * bool * list Alternative * list Result =>
                     let '(alt, final, alts, more) := it in
                     data_with alt final alts more in
    let inputs := map (fun it => stream_data stream (data_of it)) items in
    fst (run s inputs) = s /\
    emissions (snd (run s inputs)) =
      map (fun it : Alternative * bool * list Alternative * list Result =>
             let '(alt, final, _, _) := it in
             streaming_transcript (transcript alt) final (confidence alt)) items /\
    stream_calls (snd (run s inputs)) = [].
Proof.
  intros s stream items Hlt; simpl.
  apply Nat.ltb_lt in Hlt.
  induction items as [|[[[alt final] alts] more] items IH]; [repeat split|].
  destruct IH as (IH1 & IH2 & IH3).
  cbn [map]; rewrite run_cons.
  assert (Hh : handle s (stream_data stream (data_with alt final alts more)) =
               (s, [emit (streaming_transcript (transcript alt) final (confidence alt))])).
  { simpl; now rewrite Hlt. }
  rewrite Hh; cbn [fst snd].
  unfold stream_calls, emissions in *.
  rewrite IH1; split; [reflexivity|].
  simpl; rewrite IH2, IH3; split; reflexivity.
Qed.

Lemma transcripts_are_forwarded_in_order_witness :
  let s := {| recognizeStream := Some 0; created := 1 |} in
  let interim := {| transcript := "left ventri"; confidence := 0 |} in
  let final := {| transcript := "left ventricle"; confidence := 9 # 10 |} in
  let items := [(interim, false, [], []); (final, true, [interim], [])] in
  let data_of := fun it : Alternative * bool * list Alternative * list Result =>
                   let '(alt, final, alts, more) := it in
                   data_with alt final alts more in
  let inputs := map (fun it => stream_data 0 (data_of it)) items in
  fst (run s inputs) = s /\
  emissions (snd (run s inputs)) =
    map (fun it : Alternative * bool * list Alternative * list Result =>
           let '(alt, final, _, _) := it in
           streaming_transcript (transcript alt) final (confidence alt)) items /\
  stream_calls (snd (run s inputs)) = [].
Proof.
  apply (transcripts_are_forwarded_in_order
           {| recognizeStream := Some 0; created := 1 |} 0
           [({| transcript := "left ventri"; confidence := 0 |}, false, [], []);
            ({| transcript := "left ventricle"; confidence := 9 # 10 |}, true,
             [{| transcript := "left ventri"; confidence := 0 |}], [])]).
  simpl; lia.
Defined.

(** X6: every [start-streaming] request is answered by exactly one event.
    The answer is [streaming-started] exactly when the credentials are
    configured and creating the stream threw nothing; then one stream is
    created and the session holds it.  Otherwise the answer is a
    [streaming-error], no call is made on any stream and the session is
    left as it was, a stream held before included. *)
Theorem start_is_answered_once :
  forall (s : session) (env : process_env) (client : client_outcome)
         (cfg : VoiceConfig),
    let (s', trace) := handle s (start_streaming env client cfg) in
    exists answer : emitted,
      emissions trace = [answer] /\
      is_started answer = credentials_configured env && client_succeeds client /\
      if is_started answer
      then stream_calls trace = [streamingRecognize (created s) (request_of cfg)] /\
           recognizeStream s' = Some (created s)
      else stream_calls trace = [] /\ s' = s /\
           exists error, answer = streaming_error error.
Proof.
  intros s env client cfg; simpl; unfold on_start_streaming.
  rewrite SessionProperties.credentials_check.
  destruct (credentials_configured env); simpl.
  - destruct client; simpl.
    + eexists; split; [reflexivity|]; simpl; repeat split.
    + eexists; split; [reflexivity|]; simpl; repeat split; eauto.
  - eexists; split; [reflexivity|]; simpl; repeat split; eauto.
Qed.

End SessionExtras.

(** * Facts about the matcher *)

Module MatcherFacts.
Import JS Matching.

(** What the matcher finds is a match: a result comes from a state the
    pattern can leave, accepted by the rest of the pattern. *)
Lemma rmatch_sound (ic : bool) (r : regex) :
  forall (st : mstate) (k : mstate -> option mstate) (res : mstate),
    rmatch ic r st k = Some res ->
    exists st', matches ic r st st' /\ k st' = Some res.
Proof.
  induction r as [| p | p | r1 IH1 r2 IH2 | r1 IH1 r2 IH2 | r IH | r IH |];
    intros st k res H; simpl in H.
  - exists st; split; [constructor | exact H].
  - destruct (rest st) as [|c tl] eqn:Hr; [discriminate|].
    destruct (char_matches ic p c) eqn:Hc; [|discriminate].
    exists (advance st c tl); split; [now constructor | exact H].
  - destruct (rest st) as [|c tl] eqn:Hr; [discriminate|].
    destruct (p c) eqn:Hc; [|discriminate].
    exists (advance st c tl); split; [now constructor | exact H].
  - apply IH1 in H as (st1 & H1 & H).
    apply IH2 in H as (st2 & H2 & H).
    exists st2; split; [now apply matches_Seq with st1 | exact H].
  - destruct (rmatch ic r1 st k) eqn:H1.
    + injection H as <-; apply IH1 in H1 as (st' & H1 & Hk).
      exists st'; split; [now apply matches_Alt_left | exact Hk].
    + apply IH2 in H as (st' & H2 & Hk).
      exists st'; split; [now apply matches_Alt_right | exact Hk].
  - remember (length (rest st)) as n eqn:Hn; clear Hn.
    revert st H; induction n as [|n IHn]; intros st H.
    + exists st; split; [constructor | exact H].
    + match type of H with
      | match ?m with _ => _ end = _ => destruct m eqn:Hm
      end.
      * injection H as <-.
        apply IH in Hm as (st1 & H1 & Hk).
        destruct (endIndex st <? endIndex st1) eqn:Hlt; [|discriminate].
        apply IHn in Hk as (st2 & H2 & Hk).
        exists st2; split; [|exact Hk].
        apply matches_Star_more with st1; [exact H1 | now apply Nat.ltb_lt | exact H2].
      * exists st; split; [constructor | exact H].
  - apply IH in H as (st' & H1 & Hk).
    eexists; split; [apply matches_Capture; exact H1 | exact Hk].
  - destruct (at_word_boundary st) eqn:Hb; [|discriminate].
    exists st; split; [now constructor | exact H].
Qed.

(** Where the rest of the pattern accepts no state the pattern can
    leave, the matcher finds nothing. *)
Lemma rmatch_none (ic : bool) (r : regex) :
  forall (st : mstate) (k : mstate -> option mstate),
    (forall st', matches ic r st st' -> k st' = None) ->
    rmatch ic r st k = None.
Proof.
  induction r as [| p | p | r1 IH1 r2 IH2 | r1 IH1 r2 IH2 | r IH | r IH |];
    intros st k H; simpl.
  - apply H; constructor.
  - destruct (rest st) as [|c tl] eqn:Hr; [reflexivity|].
    destruct (char_matches ic p c) eqn:Hc; [|reflexivity].
    apply H; now constructor.
  - destruct (rest st) as [|c tl] eqn:Hr; [reflexivity|].
    destruct (p c) eqn:Hc; [|reflexivity].
    apply H; now constructor.
  - apply IH1; intros st1 H1; apply IH2; intros st2 H2.
    apply H; now apply matches_Seq with st1.
  - rewrite IH1 by (intros st' H1; apply H; now apply matches_Alt_left).
    apply IH2; intros st' H2; apply H; now apply matches_Alt_right.
  - remember (length (rest st)) as n eqn:Hn; clear Hn.
    revert st H; induction n as [|n IHn]; intros st H.
    + apply H; constructor.
    + rewrite IH; [apply H; constructor|].
      intros st1 H1.
      destruct (endIndex st <? endIndex st1) eqn:Hlt; [|reflexivity].
      apply IHn; intros st2 H2; apply H.
      apply matches_Star_more with st1; [exact H1 | now apply Nat.ltb_lt | exact H2].
  - apply IH; intros st' H1.
    apply (H _ (matches_Capture ic r st st' H1)).
  - destruct (at_word_boundary st) eqn:Hb; [|reflexivity].
    apply H; now constructor.
Qed.

(** A match reads a part of the text and leaves the rest. *)
Lemma matches_consumes (ic : bool) (r : regex) (st st' : mstate) :
  matches ic r st st' ->
  exists consumed, rest st = consumed ++ rest st' /\
                   endIndex st' = endIndex st + length consumed.
Proof.
  induction 1.
  - exists []; split; [reflexivity | simpl; lia].
  - exists [c]; split; [exact H | simpl; lia].
  - exists [c]; split; [exact H | simpl; lia].
  - destruct IHmatches1 as (c1 & E1 & L1), IHmatches2 as (c2 & E2 & L2).
    exists (c1 ++ c2); split;
      [rewrite E1, E2; apply app_assoc | rewrite length_app; lia].
  - exact IHmatches.
  - exact IHmatches.
  - exists []; split; [reflexivity | simpl; lia].
  - destruct IHmatches1 as (c1 & E1 & L1), IHmatches2 as (c2 & E2 & L2).
    exists (c1 ++ c2); split;
      [rewrite E1, E2; apply app_assoc | rewrite length_app; lia].
  - exact IHmatches.
  - exists []; split; [reflexivity | simpl; lia].
Qed.

(** A pattern without a group leaves the captured text as it is. *)
Lemma matches_group_free (ic : bool) (r : regex) (st st' : mstate) :
  matches ic r st st' -> group_free r = true -> group1 st' = group1 st.
Proof.
  induction 1; simpl; intros Hg; try reflexivity; try discriminate.
  - apply andb_true_iff in Hg as [H1 H2].
    now rewrite IHmatches2, IHmatches1.
  - apply andb_true_iff in Hg as [H1 H2]; auto.
  - apply andb_true_iff in Hg as [H1 H2]; auto.
  - now rewrite IHmatches2, IHmatches1.
Qed.

(** A result of [exec] is a match at some index of the text. *)
Lemma exec_from_sound (ic : bool) (r : regex) :
  forall (s : jsstring) (i : nat) (p : option N) (res : mstate),
    exec_from ic r i p s = Some res ->
    exists i' p' pre s', s = pre ++ s' /\ matches ic r (MState i' p' s' None) res.
Proof.
  induction s as [|c s IH]; intros i p res H; simpl in H.
  - destruct (match_here ic r i p []) eqn:Hm; [|discriminate].
    injection H as <-; apply rmatch_sound in Hm as (st' & Hm & Hk).
    injection Hk as <-; exists i, p, [], []; split; [reflexivity | exact Hm].
  - destruct (match_here ic r i p (c :: s)) eqn:Hm.
    + injection H as <-; apply rmatch_sound in Hm as (st' & Hm & Hk).
      injection Hk as <-; exists i, p, [], (c :: s); split; [reflexivity | exact Hm].
    + apply IH in H as (i' & p' & pre & s' & E & Hm').
      exists i', p', (c :: pre), s'; split; [now rewrite E | exact Hm'].
Qed.

(** [exec] finds nothing in a text none of whose ends the pattern
    matches. *)
Lemma exec_from_none (ic : bool) (r : regex) :
  forall (s : jsstring) (i : nat) (p : option N),
    (forall pre s' i' p' res, s = pre ++ s' -> ~ matches ic r (MState i' p' s' None) res) ->
    exec_from ic r i p s = None.
Proof.
  induction s as [|c s IH]; intros i p H; simpl.
  - unfold match_here; rewrite rmatch_none; [reflexivity|].
    intros st' Hm; exfalso; exact (H [] [] i p st' eq_refl Hm).
  - unfold match_here; rewrite rmatch_none.
    + apply IH; intros pre s' i' p' res E.
      apply (H (c :: pre) s' i' p' res); now rewrite E.
    + intros st' Hm; exfalso; exact (H [] (c :: s) i p st' eq_refl Hm).
Qed.

End MatcherFacts.

(** * Further properties of the enhancement service *)

Module MeasurementFacts.
Import JS Matching MatcherFacts Enhancement.

Ltac case_digit :=
  repeat (match goal with
          | |- context [N.leb ?a ?b] => destruct (N.leb_spec a b)
          | |- context [N.eqb ?a ?b] => destruct (N.eqb_spec a b)
          | H : context [N.leb ?a ?b] |- _ => destruct (N.leb_spec a b)
          end; cbn [andb orb negb] in *; try lia; try discriminate).

Lemma digit_is_plain (c : N) :
  is_digit c = true ->
  is_space c = false /\ unit_eqb c 0x2D = false /\ unit_eqb c 0x2B = false.
Proof.
  unfold is_digit, is_space, between, unit_eqb; intros H.
  repeat split; case_digit; reflexivity.
Qed.

Lemma digits_value_nonneg (d : jsstring) : (0 <= digits_value d)%Z.
Proof.
  unfold digits_value.
  assert (H : forall acc, (0 <= acc)%Z ->
                          (0 <= fold_left (fun a c => 10 * a + digit_value c) d acc)%Z).
  { induction d as [|c d IH]; intros acc Hacc; cbn [fold_left]; [exact Hacc|].
    apply IH; unfold digit_value; lia. }
  apply H; lia.
Qed.

Lemma matches_endIndex (ic : bool) (r : regex) (st st' : mstate) :
  matches ic r st st' -> endIndex st <= endIndex st'.
Proof. intros H; apply matches_consumes in H as (c & _ & L); lia. Qed.

(** The shape of the four measurement patterns: a label, separators, a
    group, a tail without group.  The text of the group is what the
    group's pattern read. *)
Lemma measurement_match (ic : bool) (label seps value tail : regex)
      (st res : mstate) :
  group_free tail = true ->
  matches ic (Seq label (Seq seps (Seq (Capture value) tail))) st res ->
  exists pre st2 st3,
    rest st = pre ++ rest st2 /\
    matches ic value st2 st3 /\
    group1 res = Some (firstn (endIndex st3 - endIndex st2) (rest st2)).
Proof.
  intros Hfree H.
  inversion H as [| | | ? ? ? st1 ? Hlabel H1 | | | | | |]; subst; clear H.
  inversion H1 as [| | | ? ? ? st2 ? Hseps H2 | | | | | |]; subst; clear H1.
  inversion H2 as [| | | ? ? ? stc ? Hcap Htail | | | | | |]; subst; clear H2.
  inversion Hcap as [| | | | | | | | ? ? st3 Hvalue |]; subst; clear Hcap.
  apply matches_consumes in Hlabel as (c1 & E1 & _).
  apply matches_consumes in Hseps as (c2 & E2 & _).
  exists (c1 ++ c2), st2, st3; split; [rewrite E1, E2; apply app_assoc|].
  split; [exact Hvalue|].
  now rewrite (matches_group_free _ _ _ _ Htail Hfree).
Qed.

(** What [\d+] reads starts with a digit. *)
Lemma plus_digit_start (ic : bool) (more : regex) (st st' : mstate) :
  matches ic (Seq (Class is_digit) more) st st' ->
  exists c tl, rest st = c :: tl /\ is_digit c = true /\ endIndex st < endIndex st'.
Proof.
  intros H.
  inversion H as [| | | ? ? ? st1 ? Hd Hmore | | | | | |]; subst; clear H.
  inversion Hd; subst.
  apply matches_endIndex in Hmore; simpl in Hmore.
  exists c, tl; repeat split; [assumption | assumption | lia].
Qed.

Lemma firstn_digit_start (c : N) (tl : jsstring) (a b : nat) :
  a < b -> exists g, firstn (b - a) (c :: tl) = c :: g.
Proof.
  intros H; destruct (b - a) as [|k] eqn:E; [lia|].
  simpl; eauto.
Qed.

(** A match of a pattern whose group is [\d+], or starts with [\d+]: the
    text has a digit, and the group starts with it. *)
Lemma integer_match (ic : bool) (label seps tail : regex) (st res : mstate) :
  group_free tail = true ->
  matches ic (Seq label (Seq seps (Seq (Capture (Plus (Class is_digit))) tail))) st res ->
  exists pre c tl g,
    rest st = pre ++ c :: tl /\ is_digit c = true /\ group1 res = Some (c :: g).
Proof.
  intros Hfree H.
  apply measurement_match in H as (pre & st2 & st3 & E & Hv & Hg); [|exact Hfree].
  apply plus_digit_start in Hv as (c & tl & Hr & Hc & Hlt).
  destruct (firstn_digit_start c tl _ _ Hlt) as [g Hf].
  exists pre, c, tl, g; rewrite E, Hg, Hr, Hf; auto.
Qed.

Lemma decimal_match (ic : bool) (label seps more tail : regex) (st res : mstate) :
  group_free tail = true ->
  matches ic (Seq label (Seq seps
                (Seq (Capture (Seq (Plus (Class is_digit)) more)) tail))) st res ->
  exists pre c tl g,
    rest st = pre ++ c :: tl /\ is_digit c = true /\ group1 res = Some (c :: g).
Proof.
  intros Hfree H.
  apply measurement_match in H as (pre & st2 & st3 & E & Hv & Hg); [|exact Hfree].
  inversion Hv as [| | | ? ? ? st2' ? Hplus Hmore | | | | | |]; subst; clear Hv.
  apply plus_digit_start in Hplus as (c & tl & Hr & Hc & Hlt).
  apply matches_endIndex in Hmore.
  destruct (firstn_digit_start c tl (endIndex st2) (endIndex st3)) as [g Hf]; [lia|].
  exists pre, c, tl, g; rewrite E, Hg, Hr, Hf; auto.
Qed.

End MeasurementFacts.

Module MeasurementBounds.
Import JS Matching MatcherFacts MeasurementFacts Enhancement TextShape.

Lemma digit_value_bound (c : N) : is_digit c = true -> (0 <= digit_value c <= 9)%Z.
Proof.
  unfold is_digit, between, digit_value; intros H.
  apply andb_true_iff in H as [H1 H2].
  apply N.leb_le in H1, H2; lia.
Qed.

Lemma digits_fold_app (a b : jsstring) (acc : Z) :
  fold_left (fun x c => (10 * x + digit_value c)%Z) (a ++ b) acc =
  fold_left (fun x c => (10 * x + digit_value c)%Z) b
            (fold_left (fun x c => (10 * x + digit_value c)%Z) a acc).
Proof. apply fold_left_app. Qed.

Lemma digits_fold_shift (b : jsstring) (acc : Z) :
  fold_left (fun x c => (10 * x + digit_value c)%Z) b acc =
  (acc * 10 ^ Z.of_nat (length b) +
   fold_left (fun x c => (10 * x + digit_value c)%Z) b 0)%Z.
Proof.
  revert acc; induction b as [|c b IH]; intros acc.
  - simpl; lia.
  - cbn [fold_left length]; rewrite (IH (10 * acc + digit_value c)%Z).
    rewrite (IH (10 * 0 + digit_value c)%Z).
    rewrite Nat2Z.inj_succ, Z.pow_succ_r by lia; lia.
Qed.

(** The value of a run of digits followed by another. *)
Lemma digits_value_app (a b : jsstring) :
  digits_value (a ++ b) =
  (digits_value a * 10 ^ Z.of_nat (length b) + digits_value b)%Z.
Proof.
  unfold digits_value; rewrite digits_fold_app; apply digits_fold_shift.
Qed.

(** [n] decimal digits write a whole number below [10 ^ n]. *)
Lemma digits_value_bound (d : jsstring) :
  forallb is_digit d = true ->
  (0 <= digits_value d < 10 ^ Z.of_nat (length d))%Z.
Proof.
  induction d as [|c d IH] using rev_ind; intros H.
  - unfold digits_value; simpl; lia.
  - rewrite forallb_app in H; apply andb_true_iff in H as [Hd Hc].
    simpl in Hc; rewrite andb_true_r in Hc.
    specialize (IH Hd); apply digit_value_bound in Hc.
    rewrite digits_value_app, length_app; cbn [length].
    replace (digits_value [c]) with (digit_value c)
      by (unfold digits_value; simpl; lia).
    rewrite Nat2Z.inj_add, Z.pow_add_r by lia.
    change (Z.of_nat 1) with 1%Z; rewrite Z.pow_1_r; lia.
Qed.

(** A run of digits is read whole when what follows is no digit. *)
Lemma take_digits_run (d tl : jsstring) :
  forallb is_digit d = true ->
  digits_at_front tl = 0 ->
  take_digits (d ++ tl) = (d, tl).
Proof.
  intros Hd Htl; induction d as [|c d IH].
  - destruct tl as [|x tl]; [reflexivity|].
    simpl in *; destruct (is_digit x); [discriminate | reflexivity].
  - simpl in Hd; apply andb_true_iff in Hd as [Hc Hd].
    cbn [app take_digits]; rewrite Hc, (IH Hd); reflexivity.
Qed.

(** [parseInt] on a run of digits: the whole number they write. *)
Lemma parseInt_digits (d : jsstring) :
  d <> [] -> forallb is_digit d = true ->
  parseInt d = Num (inject_Z (digits_value d)).
Proof.
  intros Hne Hd; destruct d as [|c d]; [congruence|].
  pose proof Hd as Hall.
  simpl in Hd; apply andb_true_iff in Hd as [Hc Hd].
  destruct (digit_is_plain c Hc) as (Hs & Hm & Hp).
  unfold parseInt; cbn [skip_space]; rewrite Hs, Hm, Hp.
  rewrite <- (app_nil_r (c :: d)) at 1.
  rewrite (take_digits_run (c :: d) [] Hall eq_refl).
  now rewrite Z.mul_1_l.
Qed.

(** What a repetition of a class reads. *)
Lemma star_class_consumes (ic : bool) (p : N -> bool) (st st' : mstate) :
  matches ic (Star (Class p)) st st' ->
  exists consumed,
    rest st = consumed ++ rest st' /\
    endIndex st' = endIndex st + length consumed /\
    forallb p consumed = true.
Proof.
  intros H; remember (Star (Class p)) as r eqn:Hr.
  induction H; try discriminate.
  - exists []; repeat split; simpl; lia.
  - injection Hr as ->.
    specialize (IHmatches2 eq_refl) as (c2 & E2 & L2 & P2).
    inversion H as [| | ? c ? ? Hrest Hp | | | | | | |]; subst.
    exists (c :: c2); simpl in *; repeat split.
    + rewrite Hrest, E2; reflexivity.
    + lia.
    + now rewrite Hp, P2.
Qed.

Lemma plus_class_consumes (ic : bool) (p : N -> bool) (st st' : mstate) :
  matches ic (Plus (Class p)) st st' ->
  exists consumed,
    consumed <> [] /\
    rest st = consumed ++ rest st' /\
    endIndex st' = endIndex st + length consumed /\
    forallb p consumed = true.
Proof.
  intros H.
  inversion H as [| | | ? ? ? st1 ? Hone Hstar | | | | | |]; subst; clear H.
  inversion Hone as [| | ? c ? ? Hrest Hp | | | | | | |]; subst.
  apply star_class_consumes in Hstar as (c2 & E2 & L2 & P2).
  exists (c :: c2); simpl in *; repeat split.
  - discriminate.
  - rewrite Hrest, E2; reflexivity.
  - lia.
  - now rewrite Hp, P2.
Qed.

Lemma firstn_consumed (consumed later : jsstring) (a b : nat) :
  b = a + length consumed -> firstn (b - a) (consumed ++ later) = consumed.
Proof.
  intros ->; replace (a + length consumed - a) with (length consumed + 0) by lia.
  rewrite firstn_app_2; simpl; apply app_nil_r.
Qed.

Lemma runs_front (n : nat) (s : jsstring) :
  digit_runs_within n s = true -> digits_at_front s <= n.
Proof.
  destruct s; cbn [digit_runs_within]; intros H;
    apply andb_true_iff in H as [H _]; now apply Nat.leb_le in H.
Qed.

(** A run of digits inside a text is no longer than its longest run. *)
Lemma run_within (n : nat) (run : jsstring) :
  forallb is_digit run = true ->
  forall before after : jsstring,
    digit_runs_within n (before ++ run ++ after) = true -> length run <= n.
Proof.
  intros Hrun.
  assert (Hfront : forall after, length run <= digits_at_front (run ++ after)).
  { intros after; induction run as [|c run IH]; [simpl; lia|].
    simpl in Hrun; apply andb_true_iff in Hrun as [Hc Hrun].
    simpl; rewrite Hc; specialize (IH Hrun); lia. }
  induction before as [|x before IH]; intros after H.
  - apply runs_front in H; simpl in H.
    specialize (Hfront after); lia.
  - cbn [app digit_runs_within] in H; apply andb_true_iff in H as [_ H].
    now apply (IH after).
Qed.

(** A match of a pattern whose group is [\d+]: the group is a run of
    digits of the text. *)
Lemma integer_group (ic : bool) (label seps tail : regex) (st res : mstate) :
  group_free tail = true ->
  matches ic (Seq label (Seq seps (Seq (Capture (Plus (Class is_digit))) tail))) st res ->
  exists before run after,
    rest st = before ++ run ++ after /\ run <> [] /\
    forallb is_digit run = true /\ group1 res = Some run.
Proof.
  intros Hfree H.
  apply measurement_match in H as (pre & st2 & st3 & E & Hv & Hg); [|exact Hfree].
  apply plus_class_consumes in Hv as (run & Hne & Er & L & Hd).
  exists pre, run, (rest st3); repeat split; try assumption.
  - now rewrite E, Er.
  - now rewrite Hg, Er, (firstn_consumed run (rest st3) _ _ L).
Qed.

(** The point of a decimal is read from a point only. *)
Lemma point_matches (ic : bool) (c : N) : char_matches ic 0x2E c = true -> c = 0x2E%N.
Proof.
  unfold char_matches; destruct ic; intros H; apply JSFacts.unit_eqb_eq in H;
    [|now subst].
  revert H; unfold toUpperCase_unit, between.
  change (if ((97 <=? 46)%N && (46 <=? 122)%N) then _ else _) with 0x2E%N.
  JSFacts.split_leb; lia.
Qed.

(** A match of the pattern of the diameter: the group is a run of digits
    of the text, followed or not by a point and further digits. *)
Lemma decimal_group (ic : bool) (label seps tail : regex) (st res : mstate) :
  group_free tail = true ->
  matches ic (Seq label (Seq seps
                (Seq (Capture (Seq (Plus (Class is_digit))
                              (Seq (Opt (Lit 0x2E)) (Star (Class is_digit)))))
                     tail))) st res ->
  exists before whole fraction after,
    whole <> [] /\ forallb is_digit whole = true /\
    forallb is_digit fraction = true /\
    ((rest st = before ++ (whole ++ fraction) ++ after /\
      group1 res = Some (whole ++ fraction)) \/
     (rest st = before ++ whole ++ 0x2E%N :: fraction ++ after /\
      group1 res = Some (whole ++ 0x2E%N :: fraction))).
Proof.
  intros Hfree H.
  apply measurement_match in H as (pre & st2 & st3 & E & Hv & Hg); [|exact Hfree].
  inversion Hv as [| | | ? ? ? sta ? Hplus Hmore | | | | | |]; subst; clear Hv.
  inversion Hmore as [| | | ? ? ? stb ? Hopt Hstar | | | | | |]; subst; clear Hmore.
  apply plus_class_consumes in Hplus as (whole & Hne & Ew & Lw & Hw).
  apply star_class_consumes in Hstar as (fraction & Ef & Lf & Hf).
  exists pre, whole, fraction, (rest st3); repeat split; try assumption.
  inversion Hopt as [| | | | ? ? ? ? Hlit | ? ? ? ? Heps | | | |]; subst; clear Hopt.
  - right; inversion Hlit as [| ? c ? ? Hrest Hp | | | | | | | |]; subst.
    apply point_matches in Hp; subst c.
    simpl in Ef, Lf.
    assert (Et : rest st2 = (whole ++ 0x2E%N :: fraction) ++ rest st3).
    { rewrite Ew, Hrest, Ef, <- app_assoc; reflexivity. }
    split.
    + rewrite E, Et, <- app_assoc; reflexivity.
    + rewrite Hg, Et; f_equal; apply firstn_consumed.
      rewrite length_app; simpl; lia.
  - left; inversion Heps; subst.
    assert (Et : rest st2 = (whole ++ fraction) ++ rest st3).
    { rewrite Ew, Ef, app_assoc; reflexivity. }
    split.
    + now rewrite E, Et.
    + rewrite Hg, Et; f_equal; apply firstn_consumed.
      rewrite length_app; lia.
Qed.

Lemma ten_pow_pos (n : nat) : (0 < 10 ^ Z.of_nat n)%Z.
Proof. apply Z.pow_pos_nonneg; lia. Qed.

Lemma ten_pow_le (a b : nat) : a <= b -> (10 ^ Z.of_nat a <= 10 ^ Z.of_nat b)%Z.
Proof. intros H; apply Z.pow_le_mono_r; lia. Qed.

(** [parseFloat] on digits, a point and digits. *)
Lemma parseFloat_decimal (whole fraction : jsstring) :
  whole <> [] -> forallb is_digit whole = true -> forallb is_digit fraction = true ->
  parseFloat (whole ++ 0x2E%N :: fraction) =
  Num (Qred (Qmake (digits_value (whole ++ fraction))
                   (Z.to_pos (10 ^ Z.of_nat (length fraction))))).
Proof.
  intros Hne Hw Hf; destruct whole as [|c whole]; [congruence|].
  pose proof Hw as Hall.
  simpl in Hw; apply andb_true_iff in Hw as [Hc Hw].
  destruct (digit_is_plain c Hc) as (Hs & _ & _).
  unfold parseFloat; rewrite <- app_comm_cons; cbn [skip_space]; rewrite Hs.
  rewrite app_comm_cons, (take_digits_run (c :: whole) (0x2E%N :: fraction) Hall eq_refl).
  change (unit_eqb 0x2E 0x2E) with true; cbv iota.
  rewrite <- (app_nil_r fraction) at 1.
  rewrite (take_digits_run fraction [] Hf eq_refl).
  reflexivity.
Qed.

Lemma parseFloat_digits (d : jsstring) :
  d <> [] -> forallb is_digit d = true ->
  parseFloat d = Num (inject_Z (digits_value d)).
Proof.
  intros Hne Hd; destruct d as [|c d]; [congruence|].
  pose proof Hd as Hall.
  simpl in Hd; apply andb_true_iff in Hd as [Hc Hd].
  destruct (digit_is_plain c Hc) as (Hs & _ & _).
  unfold parseFloat; cbn [skip_space]; rewrite Hs.
  rewrite <- (app_nil_r (c :: d)) at 1.
  rewrite (take_digits_run (c :: d) [] Hall eq_refl).
  reflexivity.
Qed.

(** The value of an integer measurement, for a text whose runs of digits
    have at most [n] digits. *)
Lemma integer_measurement (n : nat) (label seps tail : regex)
      (transcript : jsstring) (res : mstate) :
  group_free tail = true ->
  digit_runs_within n transcript = true ->
  exec_from true (Seq label (Seq seps (Seq (Capture (Plus (Class is_digit))) tail)))
            0 None transcript = Some res ->
  exists z, parseInt (group res) = Num (inject_Z z) /\
            (0 <= z < 10 ^ Z.of_nat n)%Z.
Proof.
  intros Hfree Hruns He.
  apply exec_from_sound in He as (i & p & pre & s' & E & Hm).
  apply integer_group in Hm as (before & run & after & Er & Hne & Hd & Hg);
    [|exact Hfree].
  simpl in Er; rewrite E, Er, app_assoc in Hruns.
  apply (run_within n run Hd) in Hruns.
  unfold group; rewrite Hg, (parseInt_digits run Hne Hd).
  exists (digits_value run); split; [reflexivity|].
  pose proof (digits_value_bound run Hd); pose proof (ten_pow_le _ _ Hruns); lia.
Qed.

End MeasurementBounds.

Module EnhancementExtras.
Import JS Matching MatcherFacts MeasurementFacts MeasurementBounds Enhancement
  TextShape.

(** X9: a transcript without any decimal digit yields no measurement at
    all: every key is absent from the result. *)
Theorem no_digit_no_measurement :
  forall transcript : jsstring,
    forallb (fun c => negb (is_digit c)) transcript = true ->
    extractMeasurements transcript =
    {| ejection_fraction := None; biparietal_diameter := None;
       gestational_age := None; heart_rate := None |}.
Proof.
  intros transcript Hno.
  assert (Hdigit : forall pre c tl, transcript = pre ++ c :: tl -> is_digit c = false).
  { intros pre c tl E; rewrite forallb_forall in Hno.
    apply negb_true_iff, Hno; rewrite E; apply in_or_app; right; now left. }
  unfold extractMeasurements, exec.
  rewrite !exec_from_none; [reflexivity| | | |];
    intros pre s' i' p' res E Hm.
  - apply integer_match in Hm as (pre2 & c & tl & g & Hr & Hc & _); [|reflexivity].
    simpl in Hr; rewrite Hr, app_assoc in E.
    now rewrite (Hdigit _ _ _ E) in Hc.
  - apply integer_match in Hm as (pre2 & c & tl & g & Hr & Hc & _); [|reflexivity].
    simpl in Hr; rewrite Hr, app_assoc in E.
    now rewrite (Hdigit _ _ _ E) in Hc.
  - apply decimal_match in Hm as (pre2 & c & tl & g & Hr & Hc & _); [|reflexivity].
    simpl in Hr; rewrite Hr, app_assoc in E.
    now rewrite (Hdigit _ _ _ E) in Hc.
  - apply integer_match in Hm as (pre2 & c & tl & g & Hr & Hc & _); [|reflexivity].
    simpl in Hr; rewrite Hr, app_assoc in E.
    now rewrite (Hdigit _ _ _ E) in Hc.
Qed.

Lemma no_digit_no_measurement_witness :
  forallb (fun c => negb (is_digit c))
          (js "Heart rate and ejection fraction within normal limits") = true /\
  extractMeasurements (js "Heart rate and ejection fraction within normal limits") =
  {| ejection_fraction := None; biparietal_diameter := None;
     gestational_age := None; heart_rate := None |}.
Proof.
  split; [vm_compute; reflexivity|].
  apply (no_digit_no_measurement
           (js "Heart rate and ejection fraction within normal limits")).
  vm_compute; reflexivity.
Defined.

(** X10: on a transcript in which no run of decimal digits is longer
    than 15 digits, every value the extractor returns is a number, never
    NaN and never negative: ejection_fraction, gestational_age and
    heart_rate are whole numbers below 10^15 (which a JavaScript number
    holds exactly), and biparietal_diameter is at most 10^15. *)
Theorem measurements_are_numbers :
  forall transcript : jsstring,
    digit_runs_within 15 transcript = true ->
    let m := extractMeasurements transcript in
    (forall v, ejection_fraction m = Some v ->
               exists z, v = Num (inject_Z z) /\ (0 <= z < 10 ^ 15)%Z) /\
    (forall v, biparietal_diameter m = Some v ->
               exists q, v = Num q /\ (0 <= q)%Q /\ (q <= inject_Z (10 ^ 15))%Q) /\
    (forall v, gestational_age m = Some v ->
               exists z, v = Num (inject_Z z) /\ (0 <= z < 10 ^ 15)%Z) /\
    (forall v, heart_rate m = Some v ->
               exists z, v = Num (inject_Z z) /\ (0 <= z < 10 ^ 15)%Z).
Proof.
  intros transcript Hruns; unfold extractMeasurements, exec; cbn zeta.
  cbn [ejection_fraction biparietal_diameter gestational_age heart_rate].
  repeat split; intros v Hv.
  - destruct (exec_from true efPattern 0 None transcript) as [res|] eqn:He;
      [|discriminate].
    simpl in Hv; injection Hv as <-.
    refine (integer_measurement 15 _ _ _ transcript res _ Hruns He); reflexivity.
  - destruct (exec_from true bpdPattern 0 None transcript) as [res|] eqn:He;
      [|discriminate].
    simpl in Hv; injection Hv as <-.
    apply exec_from_sound in He as (i & p & pre & s' & E & Hm).
    apply decimal_group in Hm
      as (before & whole & fraction & after & Hne & Hw & Hf & Hcase); [|reflexivity].
    destruct Hcase as [[Er Hg]|[Er Hg]]; simpl in Er; unfold group; rewrite Hg.
    + assert (Hd : forallb is_digit (whole ++ fraction) = true)
        by (rewrite forallb_app, Hw, Hf; reflexivity).
      assert (Hne' : whole ++ fraction <> [])
        by (destruct whole; [congruence | discriminate]).
      rewrite E, Er, app_assoc in Hruns.
      apply (run_within 15 _ Hd) in Hruns.
      rewrite (parseFloat_digits _ Hne' Hd).
      eexists; split; [reflexivity|].
      pose proof (digits_value_bound _ Hd); pose proof (ten_pow_le _ _ Hruns).
      unfold Qle, inject_Z; cbn [Qnum Qden]; split; lia.
    + rewrite E, Er, app_assoc in Hruns.
      apply (run_within 15 _ Hw) in Hruns.
      rewrite (parseFloat_decimal whole fraction Hne Hw Hf).
      eexists; split; [reflexivity|].
      rewrite !Qred_correct.
      pose proof (digits_value_bound _ Hw) as Bw.
      pose proof (digits_value_bound _ Hf) as Bf.
      pose proof (ten_pow_le _ _ Hruns) as Ble.
      pose proof (ten_pow_pos (length fraction)) as Hpos.
      rewrite digits_value_app.
      unfold Qle, inject_Z; cbn [Qnum Qden].
      rewrite Z2Pos.id by exact Hpos.
      change (Z.of_nat 15) with 15%Z in Ble.
      split; nia.
  - destruct (exec_from true gaPattern 0 None transcript) as [res|] eqn:He;
      [|discriminate].
    simpl in Hv; injection Hv as <-.
    refine (integer_measurement 15 _ _ _ transcript res _ Hruns He); reflexivity.
  - destruct (exec_from true hrPattern 0 None transcript) as [res|] eqn:He;
      [|discriminate].
    simpl in Hv; injection Hv as <-.
    refine (integer_measurement 15 _ _ _ transcript res _ Hruns He); reflexivity.
Qed.

Lemma measurements_are_numbers_witness :
  let m := extractMeasurements (js "EF 55%, BPD 8.5 cm, GA 32 weeks, HR 140 bpm") in
  ejection_fraction m = Some (Num (55 # 1)) /\
  (forall v, ejection_fraction m = Some v ->
             exists z, v = Num (inject_Z z) /\ (0 <= z < 10 ^ 15)%Z) /\
  (forall v, biparietal_diameter m = Some v ->
             exists q, v = Num q /\ (0 <= q)%Q /\ (q <= inject_Z (10 ^ 15))%Q) /\
  (forall v, gestational_age m = Some v ->
             exists z, v = Num (inject_Z z) /\ (0 <= z < 10 ^ 15)%Z) /\
  (forall v, heart_rate m = Some v ->
             exists z, v = Num (inject_Z z) /\ (0 <= z < 10 ^ 15)%Z).
Proof.
  split; [vm_compute; reflexivity|].
  apply (measurements_are_numbers (js "EF 55%, BPD 8.5 cm, GA 32 weeks, HR 140 bpm")).
  vm_compute; reflexivity.
Defined.


(** *** detectFindings *)

(** Where an alternation of literals matches, one of the literals is
    read. *)
Lemma rmatch_Alts_Str_inv (ic : bool) (lits : list jsstring) (st res : mstate) :
  rmatch ic (Alts (map Str lits)) st Some = Some res ->
  existsb (fun l => starts_with ic l (rest st)) lits = true.
Proof.
  induction lits as [|l lits IH]; intros H.
  - simpl in H; destruct (rest st); discriminate.
  - destruct lits as [|l2 lits].
    + simpl in H |- *; rewrite JSFacts.rmatch_Str in H.
      destruct (starts_with ic l (rest st)); [reflexivity | discriminate].
    + change (map Str (l :: l2 :: lits)) with (Str l :: map Str (l2 :: lits)) in H.
      rewrite JSFacts.Alts_cons in H by discriminate.
      simpl rmatch in H; simpl existsb.
      rewrite JSFacts.rmatch_Str in H.
      destruct (starts_with ic l (rest st)); [reflexivity|].
      simpl; apply IH; exact H.
Qed.

Lemma exec_from_Alts_Str_inv (ic : bool) (lits : list jsstring) :
  forall (s : jsstring) (i : nat) (p : option N) (res : mstate),
    exec_from ic (Alts (map Str lits)) i p s = Some res ->
    existsb (fun l => occurs ic l s) lits = true.
Proof.
  induction s as [|c s IH]; intros i p res H; simpl in H.
  - destruct (match_here ic (Alts (map Str lits)) i p []) eqn:Hm; [|discriminate].
    apply rmatch_Alts_Str_inv in Hm; simpl in Hm.
    apply existsb_exists in Hm as (l & Hin & Hl).
    apply existsb_exists; exists l; split; [exact Hin|].
    now apply JSFacts.occurs_here.
  - destruct (match_here ic (Alts (map Str lits)) i p (c :: s)) eqn:Hm.
    + apply rmatch_Alts_Str_inv in Hm; simpl in Hm.
      apply existsb_exists in Hm as (l & Hin & Hl).
      apply existsb_exists; exists l; split; [exact Hin|].
      now apply JSFacts.occurs_here.
    + apply IH in H; apply existsb_exists in H as (l & Hin & Hl).
      apply existsb_exists; exists l; split; [exact Hin|].
      now apply JSFacts.occurs_tail.
Qed.

(** [test] with an alternation of literals is a search for one of them. *)
Lemma test_Alts_Str_spec (ic : bool) (lits : list jsstring) (s : jsstring) :
  test ic (Alts (map Str lits)) s = existsb (fun l => occurs ic l s) lits.
Proof.
  destruct (existsb (fun l => occurs ic l s) lits) eqn:He.
  - apply existsb_exists in He as (l & Hin & Hl).
    now apply JSFacts.test_Alts_Str with (l := l).
  - unfold test, exec.
    destruct (exec_from ic (Alts (map Str lits)) 0 None s) eqn:Hx; [|reflexivity].
    apply exec_from_Alts_Str_inv in Hx; congruence.
Qed.

(** X12: each flag of [detectFindings] is a case-insensitive search for
    the keywords of its pattern: the flag is set exactly when one of them
    is read somewhere in the transcript. *)
Theorem finding_flags_are_keyword_searches :
  forall transcript : jsstring,
    normal (detectFindings transcript) =
      existsb (fun kw => occurs true kw transcript)
              [js "normal"; js "unremarkable"; js "within normal limits";
               js "нормальн"; js "в норме"] /\
    abnormal (detectFindings transcript) =
      existsb (fun kw => occurs true kw transcript)
              [js "abnormal"; js "concerning"; js "dilated"; js "enlarged";
               js "thickened"; js "патолог"; js "расширен"; js "увеличен"] /\
    noEvidence (detectFindings transcript) =
      existsb (fun kw => occurs true kw transcript)
              [js "no evidence of"; js "absence of"; js "negative for";
               js "не выявлено"; js "отсутств"].
Proof.
  intros transcript; repeat split; apply test_Alts_Str_spec.
Qed.

Lemma starts_with_app (ic : bool) (l : jsstring) :
  forall s post, starts_with ic l s = true -> starts_with ic l (s ++ post) = true.
Proof.
  induction l as [|x l IH]; intros [|c s] post H; simpl in *;
    try reflexivity; try discriminate.
  apply andb_true_iff in H as [Hx H]; rewrite Hx; simpl; now apply IH.
Qed.

Lemma occurs_app (ic : bool) (l : jsstring) (pre s post : jsstring) :
  occurs ic l s = true -> occurs ic l (pre ++ s ++ post) = true.
Proof.
  intros H; induction pre as [|c pre IH]; [|now apply JSFacts.occurs_tail].
  simpl; induction s as [|c s IHs].
  - simpl in H; rewrite orb_false_r in H.
    apply JSFacts.occurs_here; now apply (starts_with_app ic l [] post).
  - simpl in H; apply orb_true_iff in H as [H|H].
    + apply JSFacts.occurs_here; now apply (starts_with_app ic l (c :: s) post).
    + apply JSFacts.occurs_tail; now apply IHs.
Qed.

Lemma existsb_occurs_app (lits : list jsstring) (pre s post : jsstring) :
  implb (existsb (fun l => occurs true l s) lits)
        (existsb (fun l => occurs true l (pre ++ s ++ post)) lits) = true.
Proof.
  destruct (existsb (fun l => occurs true l s) lits) eqn:He; [|reflexivity].
  apply existsb_exists in He as (l & Hin & Hl); simpl.
  apply existsb_exists; exists l; split; [exact Hin | now apply occurs_app].
Qed.

(** X13: text added before or after a transcript never clears a flag of
    [detectFindings]: a flag set for a transcript is set for every text
    that contains it. *)
Theorem finding_flags_are_monotone :
  forall before transcript after : jsstring,
    let small := detectFindings transcript in
    let large := detectFindings (before ++ transcript ++ after) in
    implb (normal small) (normal large) = true /\
    implb (abnormal small) (abnormal large) = true /\
    implb (noEvidence small) (noEvidence large) = true.
Proof.
  intros before transcript after.
  unfold detectFindings; cbn [normal abnormal noEvidence].
  unfold normalPattern, abnormalPattern, noEvidencePattern.
  rewrite !test_Alts_Str_spec.
  repeat split; apply existsb_occurs_app.
Qed.

Lemma starts_with_lower_text (l : jsstring) :
  forall s, starts_with true l (toLowerCase s) = starts_with true l s.
Proof.
  induction l as [|x l IH]; intros [|c s]; simpl; try reflexivity.
  rewrite IH; f_equal.
  unfold char_matches; now rewrite JSFacts.toUpperCase_toLowerCase.
Qed.

Lemma occurs_lower_text (l : jsstring) :
  forall s, occurs true l (toLowerCase s) = occurs true l s.
Proof.
  induction s as [|c s IH].
  - reflexivity.
  - change (toLowerCase (c :: s)) with (toLowerCase_unit c :: toLowerCase s).
    cbn [occurs]; rewrite IH; f_equal.
    exact (starts_with_lower_text l (c :: s)).
Qed.

(** X14: on a transcript written in the scripts the case tables cover in
    full (Basic Latin, Cyrillic from U+0400 to U+045F, Armenian),
    [detectFindings] ignores the letter case: lower-casing the transcript
    changes neither the flags nor the list of findings.  (Outside these
    scripts the engine has case mappings the tables lack: it lower-cases
    the Kelvin sign U+212A to "k", which the patterns do not read as a
    "k" before.) *)
Theorem detectFindings_ignores_case :
  forall transcript : jsstring,
    in_table_scripts transcript = true ->
    detectFindings (toLowerCase transcript) = detectFindings transcript.
Proof.
  intros transcript _; unfold detectFindings.
  unfold normalPattern, abnormalPattern, noEvidencePattern.
  rewrite !test_Alts_Str_spec.
  assert (H : forall lits,
             existsb (fun l => occurs true l (toLowerCase transcript)) lits =
             existsb (fun l => occurs true l transcript) lits).
  { intros lits; induction lits as [|l lits IH]; [reflexivity|].
    simpl; now rewrite IH, occurs_lower_text. }
  now rewrite !H.
Qed.

Lemma detectFindings_ignores_case_witness :
  in_table_scripts (js "Mitral valve THICKENED; Левый желудочек РАСШИРЕН") = true /\
  detectFindings (toLowerCase (js "Mitral valve THICKENED; Левый желудочек РАСШИРЕН"))
  = detectFindings (js "Mitral valve THICKENED; Левый желудочек РАСШИРЕН") /\
  abnormal (detectFindings (js "Mitral valve THICKENED; Левый желудочек РАСШИРЕН"))
  = true.
Proof.
  split; [vm_compute; reflexivity|].
  split; [|vm_compute; reflexivity].
  apply (detectFindings_ignores_case
           (js "Mitral valve THICKENED; Левый желудочек РАСШИРЕН")).
  vm_compute; reflexivity.
Defined.

(** *** standardizeTerms *)

Import TermMatching.

Lemma term_occurs_without_word_units (u : jsstring) :
  forall (s : jsstring) (p : option N),
    wordness p = false ->
    forallb (fun c => negb (is_word c)) s = true ->
    term_occurs u p s = false.
Proof.
  induction s as [|c s IH]; intros p Hp Hs.
  - simpl; unfold term_at, boundary; simpl; now rewrite Hp.
  - simpl in Hs; apply andb_true_iff in Hs as [Hc Hs].
    apply negb_true_iff in Hc.
    cbn [term_occurs]; apply orb_false_iff; split.
    + unfold term_at, boundary; simpl; now rewrite Hp, Hc.
    + apply IH; [exact Hc | exact Hs].
Qed.

Lemma terms_nonempty :
  forallb (fun e => negb (Nat.eqb (length (fst e)) 0)) sortedTerms = true.
Proof. vm_compute; reflexivity. Qed.

(** X15: a transcript without any ASCII letter, digit or underscore is
    returned unchanged by [standardizeTerms]: [\b] holds nowhere in it, so
    no term pattern matches.  Russian and Armenian phrases that stand
    among spaces and punctuation are therefore never replaced. *)
Theorem standardizeTerms_needs_word_units :
  forall transcript : jsstring,
    forallb (fun c => negb (is_word c)) transcript = true ->
    standardizeTerms transcript = transcript.
Proof.
  intros transcript H.
  apply (TermFacts.pass_without_match sortedTerms transcript).
  intros e He; split.
  - pose proof terms_nonempty as Hne; rewrite forallb_forall in Hne.
    specialize (Hne e He); cbv beta in Hne.
    destruct e as [term standard]; cbn [fst] in *.
    intros Hnil; subst term; discriminate Hne.
  - now apply term_occurs_without_word_units.
Qed.

Lemma standardizeTerms_needs_word_units_witness :
  forallb (fun c => negb (is_word c))
          (js "левый желудочек, митральный клапан в норме") = true /\
  standardizeTerms (js "левый желудочек, митральный клапан в норме")
  = js "левый желудочек, митральный клапан в норме".
Proof.
  split; [vm_compute; reflexivity|].
  apply (standardizeTerms_needs_word_units
           (js "левый желудочек, митральный клапан в норме")).
  vm_compute; reflexivity.
Defined.

(** *** classifySection *)

Lemma toLowerCase_unit_idempotent (c : N) :
  toLowerCase_unit (toLowerCase_unit c) = toLowerCase_unit c.
Proof.
  unfold toLowerCase_unit at 2; unfold between.
  destruct (N.leb_spec 0x41 c), (N.leb_spec c 0x5A); cbn [andb];
    try (unfold toLowerCase_unit, between; JSFacts.split_leb; fail).
  all: destruct (N.leb_spec 0x410 c), (N.leb_spec c 0x42F); cbn [andb];
    try (unfold toLowerCase_unit, between; JSFacts.split_leb; fail).
  all: destruct (N.leb_spec 0x400 c), (N.leb_spec c 0x40F); cbn [andb];
    try (unfold toLowerCase_unit, between; JSFacts.split_leb; fail).
  all: destruct (N.leb_spec 0x531 c), (N.leb_spec c 0x556); cbn [andb];
    try (unfold toLowerCase_unit, between; JSFacts.split_leb; fail).
  all: unfold toLowerCase_unit, between; JSFacts.split_leb; reflexivity.
Qed.

Lemma toLowerCase_idempotent (s : jsstring) :
  toLowerCase (toLowerCase s) = toLowerCase s.
Proof.
  unfold toLowerCase; rewrite map_map.
  apply map_ext; exact toLowerCase_unit_idempotent.
Qed.

(** X17: [classifySection] ignores the letter case of the text:
    lower-casing the text does not change the result, for any procedure
    type. *)
Theorem classifySection_ignores_case :
  forall text procedureType : jsstring,
    classifySection (toLowerCase text) procedureType =
    classifySection text procedureType.
Proof.
  intros text procedureType; unfold classifySection.
  now rewrite toLowerCase_idempotent.
Qed.

Lemma find_first (A : Type) (f : A -> bool) (before : list A) (x : A) (after : list A) :
  forallb (fun y => negb (f y)) before = true ->
  f x = true ->
  find f (before ++ x :: after) = Some x.
Proof.
  induction before as [|y before IH]; intros Hb Hx; simpl.
  - now rewrite Hx.
  - simpl in Hb; apply andb_true_iff in Hb as [Hy Hb].
    apply negb_true_iff in Hy; rewrite Hy; now apply IH.
Qed.

(** X18: the first label of the configured list that the text mentions
    wins: when a label is mentioned and none of the labels before it in
    the list is, [classifySection] returns that label, whatever labels
    come after it and whatever multilingual phrase the text holds. *)
Theorem classifySection_first_label_wins :
  forall (text procedureType : jsstring) (before : list jsstring)
         (label : jsstring) (after : list jsstring),
    own_property PROCEDURE_SECTIONS procedureType = Some (before ++ label :: after) ->
    forallb (fun l => negb (mentions (toLowerCase text) l)) before = true ->
    mentions (toLowerCase text) label = true ->
    classifySection text procedureType = returns (Some label).
Proof.
  intros text procedureType before label after Hown Hbefore Hlabel.
  unfold classifySection, get_sections; rewrite Hown.
  now rewrite (find_first _ _ before label after Hbefore Hlabel).
Qed.

Lemma classifySection_first_label_wins_witness :
  own_property PROCEDURE_SECTIONS (js "echocardiogram") =
    Some ([js "Left Ventricle"; js "Right Ventricle"; js "Left Atrium";
           js "Right Atrium"] ++ js "Mitral Valve" ::
          [js "Aortic Valve"; js "Tricuspid Valve"; js "Pulmonary Valve";
           js "Pericardium"; js "Overall Assessment"]) /\
  classifySection (js "Pericardium and MitralValve reviewed, левый желудочек")
                  (js "echocardiogram")
  = returns (Some (js "Mitral Valve")).
Proof.
  split; [vm_compute; reflexivity|].
  apply (classifySection_first_label_wins
           (js "Pericardium and MitralValve reviewed, левый желудочек")
           (js "echocardiogram")
           [js "Left Ventricle"; js "Right Ventricle"; js "Left Atrium";
            js "Right Atrium"]
           (js "Mitral Valve")
           [js "Aortic Valve"; js "Tricuspid Valve"; js "Pulmonary Valve";
            js "Pericardium"; js "Overall Assessment"]);
    vm_compute; reflexivity.
Defined.


(** *** The order of the terms *)

Lemma insert_by_permutation (A : Type) (cmp : A -> A -> Z) (x : A) (l : list A) :
  Permutation (insert_by cmp x l) (x :: l).
Proof.
  induction l as [|y l IH]; simpl; [reflexivity|].
  destruct (0 <? cmp x y)%Z; [|reflexivity].
  rewrite IH; apply perm_swap.
Qed.

Lemma insert_by_length_sorted (x : jsstring * jsstring) (l : list (jsstring * jsstring)) :
  StronglySorted (fun a b => length (fst b) <= length (fst a)) l ->
  StronglySorted (fun a b => length (fst b) <= length (fst a))
                 (insert_by by_length_desc x l).
Proof.
  induction l as [|y l IH]; intros Hs; simpl.
  - constructor; constructor.
  - inversion Hs as [|? ? Hl Hy]; subst.
    unfold by_length_desc at 1.
    destruct (Z.ltb_spec 0 (Z.of_nat (length (fst y)) - Z.of_nat (length (fst x))))
      as [Hlt|Hge].
    + constructor; [now apply IH|].
      apply (Permutation_Forall (Permutation_sym (insert_by_permutation _ _ x l))).
      constructor; [|exact Hy].
      destruct x, y; cbn [fst] in *; lia.
    + constructor; [exact Hs|].
      constructor; [destruct x, y; cbn [fst] in *; lia|].
      rewrite Forall_forall in *; intros z Hz; specialize (Hy z Hz).
      destruct x, y, z; cbn [fst] in *; lia.
Qed.

(** X16: the comparator of [standardizeTerms] puts the terms in order of
    length, longest first, and loses none: for every table, the sorted
    list is a permutation of the entries in which no entry has a longer
    key than an entry before it. *)
Theorem terms_are_sorted_longest_first :
  forall table : list (jsstring * jsstring),
    Permutation (sort_by by_length_desc table) table /\
    StronglySorted (fun a b => length (fst b) <= length (fst a))
                   (sort_by by_length_desc table).
Proof.
  induction table as [|x table [IHp IHs]]; simpl.
  - split; constructor.
  - split.
    + rewrite insert_by_permutation; now constructor.
    + now apply insert_by_length_sorted.
Qed.

End EnhancementExtras.

(** * Properties of the orchestrator and of the voice routes *)

Module OrchestratorExtras.
Import JS Enhancement Orchestrator.

Lemma startsWith_app (s b : jsstring) : startsWith s (s ++ b) = true.
Proof.
  induction s as [|c s IH]; [reflexivity|].
  simpl; unfold unit_eqb; now rewrite N.eqb_refl.
Qed.

Lemma includes_infix (a s b : jsstring) : includes (a ++ s ++ b) s = true.
Proof.
  induction a as [|c a IH].
  - cbn [app]; destruct (s ++ b) eqn:E; cbn [includes];
      rewrite <- E, startsWith_app; reflexivity.
  - cbn [app includes]; rewrite IH; apply orb_true_r.
Qed.

Lemma infix_equal (a s b : jsstring) : a ++ s ++ b = s -> a = [] /\ b = [].
Proof.
  intros H; apply (f_equal (@length N)) in H.
  rewrite !length_app in H.
  destruct a, b; simpl in H; try lia; auto.
Qed.

Lemma returns_inj (A : Type) (a b : A) : returns a = returns b -> a = b.
Proof. intros H; now injection H. Qed.

(** The shape of the display text: the standardized text, with something
    before it exactly when a section was detected and something after it
    exactly when measurements or findings were. *)
Lemma enhanced_shape (String_of_number : number -> jsstring) (params : Params)
      (r : EnhancedTranscript) :
  enhanceTranscript String_of_number params = returns r ->
  exists a b,
    enhanced r = a ++ standardized r ++ b /\
    (a = [] <-> truthy_section (detectedSection r) = None) /\
    (b = [] <-> entries (measurements r) = [] /\
                Enhancement.findings (findings r) = []).
Proof.
  unfold enhanceTranscript.
  generalize (standardizeTerms (transcript params)); intros std.
  generalize (detectFindings std); intros found.
  generalize (extractMeasurements std); intros m.
  destruct (classifySection _ _) as [section|]; [|discriminate].
  generalize (measurementStr String_of_number m); intros shown.
  intros H; apply returns_inj in H; rewrite <- H; clear H.
  lazy beta iota delta [enhanced standardized detectedSection measurements findings].
  generalize (js "["), (js "]"), (js "📊 Detected measurements: "), (js "📋 "),
             (js ", ").
  intros lb rb t1 t2 comma.
  exists (match truthy_section section with
          | Some sec => lb ++ sec ++ rb ++ NEWLINE
          | None => []
          end),
         ((match entries m with
           | [] => []
           | _ :: _ => NEWLINE ++ NEWLINE ++ t1 ++ shown
           end) ++
          (match Enhancement.findings found with
           | [] => []
           | _ :: _ => NEWLINE ++ NEWLINE ++ t2 ++ join comma (Enhancement.findings found)
           end)).
  unfold NEWLINE.
  destruct (truthy_section section) as [sec|];
    destruct (entries m) as [|e es];
    destruct (Enhancement.findings found) as [|f fs];
    (split; [rewrite ?app_nil_r, <- ?app_assoc; reflexivity|]);
    (split; split); cbn [app];
    try reflexivity; try discriminate; try tauto;
    first [ intros [H1 H2]; discriminate
          | intros H; repeat (apply app_eq_nil in H as [_ H]); discriminate H ].
Qed.

(** X19: the display text of [enhanceTranscript] always contains the
    standardized text, and it is the standardized text alone exactly when
    nothing was detected: no section, no measurement, no finding. *)
Theorem enhanced_contains_standardized :
  forall (String_of_number : number -> jsstring) (params : Params)
         (r : EnhancedTranscript),
    enhanceTranscript String_of_number params = returns r ->
    includes (enhanced r) (standardized r) = true /\
    (enhanced r = standardized r <->
     truthy_section (detectedSection r) = None /\
     entries (measurements r) = [] /\
     Enhancement.findings (findings r) = []).
Proof.
  intros show params r H.
  destruct (enhanced_shape show params r H) as (a & b & E & Ha & Hb).
  rewrite E; split; [apply includes_infix|]; split.
  - intros Heq; apply infix_equal in Heq as [-> ->].
    split; [now apply Ha | now apply Hb].
  - intros (Hs & Hm & Hf).
    apply Ha in Hs; subst a.
    destruct Hb as [_ Hb]; rewrite Hb by auto.
    now rewrite app_nil_r.
Qed.

Lemma enhanced_contains_standardized_witness :
  let show := fun _ : number => js "?" in
  let params := {| transcript := js "Left ventricle dilated";
                   procedureType := None; language := None |} in
  exists r, enhanceTranscript show params = returns r /\
            includes (enhanced r) (standardized r) = true /\
            (enhanced r = standardized r <->
             truthy_section (detectedSection r) = None /\
             entries (measurements r) = [] /\
             Enhancement.findings (findings r) = []).
Proof.
  eexists; split; [vm_compute; reflexivity|].
  apply (enhanced_contains_standardized
           (fun _ : number => js "?")
           {| transcript := js "Left ventricle dilated";
              procedureType := None; language := None |}).
  vm_compute; reflexivity.
Defined.

(** X20: [enhanceTranscript] is stable: enhancing the standardized text
    of a result once more, for the same procedure type, yields the same
    result in every field. *)
Theorem enhanceTranscript_is_stable :
  forall (String_of_number : number -> jsstring) (params : Params)
         (r : EnhancedTranscript),
    enhanceTranscript String_of_number params = returns r ->
    enhanceTranscript String_of_number
      {| transcript := standardized r;
         procedureType := procedureType params;
         language := language params |} = returns r.
Proof.
  intros show params r H.
  assert (Hstd : standardized r = standardizeTerms (transcript params)).
  { unfold enhanceTranscript in H.
    destruct (classifySection _ _); [|discriminate].
    apply returns_inj in H; now rewrite <- H. }
  unfold enhanceTranscript in *; cbn [transcript procedureType].
  rewrite Hstd, TermFacts.standardizeTerms_idempotent; exact H.
Qed.

Lemma enhanceTranscript_is_stable_witness :
  let show := fun _ : number => js "?" in
  let params := {| transcript := js "Left ventricle dilated, ejection fraction 35%";
                   procedureType := Some (js "echocardiogram"); language := None |} in
  exists r, enhanceTranscript show params = returns r /\
            standardized r = js "LV dilated, EF 35%" /\
            enhanceTranscript show
              {| transcript := standardized r;
                 procedureType := procedureType params;
                 language := language params |} = returns r.
Proof.
  eexists; split; [vm_compute; reflexivity|].
  split; [vm_compute; reflexivity|].
  apply (enhanceTranscript_is_stable
           (fun _ : number => js "?")
           {| transcript := js "Left ventricle dilated, ejection fraction 35%";
              procedureType := Some (js "echocardiogram"); language := None |}).
  vm_compute; reflexivity.
Defined.


(** A name inherited from [Object.prototype] is no key of the section
    table. *)
Lemma inherited_name_not_own (name : jsstring) :
  existsb (jsstring_eqb name) OBJECT_PROTOTYPE_KEYS = true ->
  own_property PROCEDURE_SECTIONS name = None.
Proof.
  intros H; apply existsb_exists in H as (k & Hin & Heq).
  apply JSFacts.jsstring_eqb_eq in Heq; subst k.
  unfold OBJECT_PROTOTYPE_KEYS in Hin.
  repeat (destruct Hin as [<-|Hin]; [vm_compute; reflexivity|]).
  destruct Hin.
Qed.

Lemma classifySection_throws (text name : jsstring) :
  classifySection text name = throws_TypeError <->
  existsb (jsstring_eqb name) OBJECT_PROTOTYPE_KEYS = true.
Proof.
  unfold classifySection, get_sections; split.
  - destruct (own_property PROCEDURE_SECTIONS name).
    + destruct (find _ _); discriminate.
    + destruct (existsb _ _); [reflexivity | discriminate].
  - intros H; now rewrite (inherited_name_not_own name H), H.
Qed.

(** X21: [enhanceTranscript] throws exactly when the procedure type is a
    name inherited from [Object.prototype]; with the default procedure
    type or a key of the section table it always returns a result. *)
Theorem enhanceTranscript_throws_only_for_inherited_names :
  forall (String_of_number : number -> jsstring) (params : Params),
    enhanceTranscript String_of_number params = throws_TypeError <->
    exists name, procedureType params = Some name /\
                 existsb (jsstring_eqb name) OBJECT_PROTOTYPE_KEYS = true.
Proof.
  intros show params; unfold enhanceTranscript.
  destruct (procedureType params) as [name|]; split.
  - destruct (classifySection _ name) eqn:Hc; [discriminate|].
    intros _; exists name; split; [reflexivity|].
    now apply classifySection_throws in Hc.
  - intros (n & Hn & Hex); injection Hn as <-.
    apply (classifySection_throws (standardizeTerms (transcript params))) in Hex.
    now rewrite Hex.
  - destruct (classifySection _ (js "echocardiogram")) eqn:Hc; [discriminate|].
    apply classifySection_throws in Hc; vm_compute in Hc; discriminate Hc.
  - intros (n & Hn & _); discriminate Hn.
Qed.

Lemma own_label_in_table (table : list (jsstring * list jsstring))
      (key : jsstring) (sections : list jsstring) (label : jsstring) :
  own_property table key = Some sections -> In label sections ->
  In label (concat (map snd table)).
Proof.
  induction table as [|[k v] table IH]; [discriminate|]; simpl.
  destruct (jsstring_eqb k key).
  - intros H Hin; injection H as ->; apply in_or_app; now left.
  - intros H Hin; apply in_or_app; right; now apply IH.
Qed.

(** A label [classifySection] returns is a label of the table. *)
Lemma classified_label_in_table (text procedureType label : jsstring) :
  classifySection text procedureType = returns (Some label) ->
  In label ALL_LABELS.
Proof.
  unfold classifySection, get_sections.
  destruct (own_property PROCEDURE_SECTIONS procedureType) as [sections|] eqn:Hown.
  - destruct (find _ sections) as [section|] eqn:Hf; intros H;
      apply returns_inj in H.
    + injection H as <-; apply find_some in Hf as [Hin _].
      exact (own_label_in_table _ _ _ _ Hown Hin).
    + apply EnhancementProperties.multilingual_section_label in H.
      unfold MULTILINGUAL_LABELS in H.
      repeat (destruct H as [<-|H]; [vm_compute; tauto|]).
      destruct H.
  - destruct (existsb _ _); discriminate.
Qed.

(** X22: no suggestion of [enhanceTranscript] quotes the transcript:
    whatever the input, every suggestion is one of two fixed texts or
    "Classified as:" followed by a label of the section table, and there
    are at most three of them. *)
Theorem suggestions_are_fixed_texts :
  forall (String_of_number : number -> jsstring) (params : Params)
         (r : EnhancedTranscript),
    enhanceTranscript String_of_number params = returns r ->
    length (suggestions r) <= 3 /\
    forall suggestion, In suggestion (suggestions r) ->
                       In suggestion POSSIBLE_SUGGESTIONS.
Proof.
  intros show params r; unfold enhanceTranscript.
  destruct (classifySection _ _) as [section|] eqn:Hc; [|discriminate].
  intros H; apply returns_inj in H; rewrite <- H; clear H.
  lazy beta iota delta [suggestions].
  split.
  - rewrite !length_app.
    destruct (entries _), (truthy_section section), (abnormal _); simpl; lia.
  - intros suggestion Hin.
    apply in_app_iff in Hin as [Hin|Hin].
    { destruct (entries _); [destruct Hin|].
      destruct Hin as [<-|[]]; now left. }
    apply in_app_iff in Hin as [Hin|Hin].
    { destruct (truthy_section section) as [label|] eqn:Ht; [|destruct Hin].
      destruct Hin as [<-|[]].
      assert (Hs : section = Some label).
      { destruct section as [[|c l]|]; try discriminate; exact Ht. }
      rewrite Hs in Hc; apply classified_label_in_table in Hc.
      right; right; apply in_map_iff; exists label; split; [reflexivity | exact Hc]. }
    destruct (abnormal _); [|destruct Hin].
    destruct Hin as [<-|[]]; right; now left.
Qed.

Lemma suggestions_are_fixed_texts_witness :
  let show := fun _ : number => js "?" in
  let params := {| transcript := js "Mitral valve thickened, EF 40%";
                   procedureType := None; language := None |} in
  exists r, enhanceTranscript show params = returns r /\
            length (suggestions r) <= 3 /\
            forall suggestion, In suggestion (suggestions r) ->
                               In suggestion POSSIBLE_SUGGESTIONS.
Proof.
  eexists; split; [vm_compute; reflexivity|].
  apply (suggestions_are_fixed_texts
           (fun _ : number => js "?")
           {| transcript := js "Mitral valve thickened, EF 40%";
              procedureType := None; language := None |}).
  vm_compute; reflexivity.
Defined.

End OrchestratorExtras.

Module RouteExtras.
Import JS Enhancement Orchestrator VoiceRoutes.

(** X8: [POST /extract-fields], for every value of [req.body].  Without a
    body the handler's promise is rejected.  It answers 400 when the
    transcript is missing or falsy, without running the pipeline.  It
    answers 500 when the transcript is truthy but no string, when the
    procedure type cannot be converted to a property key, and when its
    key is a name inherited from [Object.prototype].  In every other case
    it answers 200 with the transcript echoed as [raw_transcript] and the
    fields the pipeline computes from the standardized transcript, the
    procedure type defaulting to "echocardiogram" when it is falsy. *)
Theorem extract_fields_replies :
  forall (String_of_number : number -> jsstring) (body : option json),
    match body with
    | None | Some JNull =>
      extract_fields String_of_number body = (rejects_TypeError, [])
    | Some b =>
      match Get b (js "transcript") with
      | Some (JString (c :: text)) =>
        let transcript := c :: text in
        match ToString (or_default (Get b (js "procedure_type"))
                                   (JString (js "echocardiogram"))) with
        | returns procedureType =>
          if existsb (jsstring_eqb procedureType) OBJECT_PROTOTYPE_KEYS
          then extract_fields String_of_number body
               = (answers (reply_error 500 "Failed to extract fields"),
                  ["Error extracting fields:"%string])
          else exists fields,
              extract_fields String_of_number body = (answers (reply_fields fields), []) /\
              raw_transcript fields = JString transcript /\
              VoiceRoutes.standardized fields = standardizeTerms transcript /\
              VoiceRoutes.measurements fields
                = extractMeasurements (standardizeTerms transcript) /\
              VoiceRoutes.findings fields
                = detectFindings (standardizeTerms transcript) /\
              classifySection (standardizeTerms transcript) procedureType
                = returns (detected_section fields)
        | throws_TypeError =>
          extract_fields String_of_number body
          = (answers (reply_error 500 "Failed to extract fields"),
             ["Error extracting fields:"%string])
        end
      | transcript =>
        if truthy transcript
        then extract_fields String_of_number body
             = (answers (reply_error 500 "Failed to extract fields"),
                ["Error extracting fields:"%string])
        else extract_fields String_of_number body
             = (answers (reply_error 400 "No transcript provided"), [])
      end
    end.
Proof.
  intros show [b|]; [|reflexivity].
  assert (Hbody : forall b', b' <> JNull -> b = b' ->
            extract_fields show (Some b') =
            match Get b' (js "transcript") with
            | Some value =>
              if truthy (Get b' (js "transcript")) then
                match enhance show value
                        (or_default (Get b' (js "procedure_type"))
                                    (JString (js "echocardiogram"))) with
                | returns e =>
                  (answers
                     (reply_fields
                        {| enhanced_transcript := Orchestrator.enhanced e;
                           standardized := Orchestrator.standardized e;
                           measurements := Orchestrator.measurements e;
                           detected_section := Orchestrator.detectedSection e;
                           findings := Orchestrator.findings e;
                           suggestions := Orchestrator.suggestions e;
                           raw_transcript := value |}), [])
                | throws_TypeError =>
                  (answers (reply_error 500 "Failed to extract fields"),
                   ["Error extracting fields:"%string])
                end
              else (answers (reply_error 400 "No transcript provided"), [])
            | None => (answers (reply_error 400 "No transcript provided"), [])
            end).
  { intros b' Hb _; destruct b'; try reflexivity; congruence. }
  assert (Hcases :
            match Get b (js "transcript") with
            | Some (JString (c :: text)) =>
              let transcript := c :: text in
              match ToString (or_default (Get b (js "procedure_type"))
                                         (JString (js "echocardiogram"))) with
              | returns procedureType =>
                if existsb (jsstring_eqb procedureType) OBJECT_PROTOTYPE_KEYS
                then b <> JNull ->
                     extract_fields show (Some b)
                     = (answers (reply_error 500 "Failed to extract fields"),
                        ["Error extracting fields:"%string])
                else b <> JNull ->
                     exists fields,
                    extract_fields show (Some b) = (answers (reply_fields fields), []) /\
                    raw_transcript fields = JString transcript /\
                    VoiceRoutes.standardized fields = standardizeTerms transcript /\
                    VoiceRoutes.measurements fields
                      = extractMeasurements (standardizeTerms transcript) /\
                    VoiceRoutes.findings fields
                      = detectFindings (standardizeTerms transcript) /\
                    classifySection (standardizeTerms transcript) procedureType
                      = returns (detected_section fields)
              | throws_TypeError =>
                b <> JNull ->
                extract_fields show (Some b)
                = (answers (reply_error 500 "Failed to extract fields"),
                   ["Error extracting fields:"%string])
              end
            | transcript =>
              b <> JNull ->
              if truthy transcript
              then extract_fields show (Some b)
                   = (answers (reply_error 500 "Failed to extract fields"),
                      ["Error extracting fields:"%string])
              else extract_fields show (Some b)
                   = (answers (reply_error 400 "No transcript provided"), [])
            end).
  { destruct (Get b (js "transcript")) as [value|] eqn:Ht.
    - destruct value as [|flag|zero text|[|c text]|items|members];
        try (intros Hb; rewrite (Hbody b Hb eq_refl), Ht; cbn [truthy enhance];
             try destruct flag; try destruct zero; reflexivity).
      cbv zeta.
      destruct (ToString _) as [key|] eqn:Hkey.
      + destruct (existsb (jsstring_eqb key) OBJECT_PROTOTYPE_KEYS) eqn:Hex;
          intros Hb; rewrite (Hbody b Hb eq_refl), Ht; cbn [truthy enhance];
          rewrite Hkey; unfold enhanceTranscript;
          cbn [Orchestrator.transcript Orchestrator.procedureType].
        * apply (OrchestratorExtras.classifySection_throws
                   (standardizeTerms (c :: text))) in Hex.
          now rewrite Hex.
        * destruct (classifySection (standardizeTerms (c :: text)) key)
            as [section|] eqn:Hc.
          -- eexists; split; [reflexivity|].
             lazy beta iota delta [raw_transcript VoiceRoutes.standardized
                                   VoiceRoutes.measurements VoiceRoutes.findings
                                   detected_section Orchestrator.standardized
                                   Orchestrator.measurements Orchestrator.findings
                                   Orchestrator.detectedSection].
             repeat split.
          -- apply OrchestratorExtras.classifySection_throws in Hc; congruence.
      + intros Hb; rewrite (Hbody b Hb eq_refl), Ht; cbn [truthy enhance].
        now rewrite Hkey.
    - intros Hb; rewrite (Hbody b Hb eq_refl), Ht; reflexivity. }
  destruct b; try reflexivity;
    (destruct (Get _ (js "transcript")) as [[| | |[|]| |]|];
     [..|apply Hcases; discriminate]; cbv zeta in *;
     repeat match goal with
            | |- context [match ?x with _ => _ end] => destruct x
            end; apply Hcases; discriminate).
Qed.

(** X7: [GET /modes] reports streaming as available exactly when a
    [start-streaming] request would pass the credentials check of the
    socket handler: it is reported unavailable if and only if
    [start-streaming] is answered by the configuration error. *)
Theorem modes_agree_with_start_streaming :
  forall (OPENAI_API_KEY : option string) (env : Session.process_env)
         (s : Session.session) (client : Session.client_outcome)
         (cfg : Session.VoiceConfig),
    available (streaming (get_modes OPENAI_API_KEY env)) = false <->
    Session.handle s (Session.start_streaming env client cfg)
    = (s, [Session.emit (Session.streaming_error Session.CREDENTIALS_ERROR)]).
Proof.
  intros key env s client cfg; simpl.
  unfold Session.on_start_streaming.
  rewrite SessionProperties.credentials_check.
  unfold Session.credentials_configured.
  destruct (Session.truthy (Session.GOOGLE_APPLICATION_CREDENTIALS env) ||
            Session.truthy (Session.GOOGLE_CLOUD_API_KEY env)); simpl.
  - split; [discriminate|].
    destruct client; intros H; apply (f_equal (fun r => length (snd r))) in H;
      simpl in H; discriminate H.
  - split; reflexivity.
Qed.

End RouteExtras.

(** * Properties of the MCP server's classifier *)

Module McpExtras.
Import JS Enhancement.

(** X23: the MCP server's [classifySection], which has no multilingual
    checks, returns a label of the list configured for the procedure type
    or no label: never a label outside that list. *)
Theorem mcp_classifySection_label_in_list :
  forall text procedureType label : jsstring,
    McpServer.classifySection text procedureType = returns (Some label) ->
    exists sections,
      own_property McpServer.PROCEDURE_SECTIONS procedureType = Some sections /\
      In label sections.
Proof.
  intros text procedureType label; unfold McpServer.classifySection, McpServer.get_sections.
  destruct (own_property McpServer.PROCEDURE_SECTIONS procedureType) as [sections|].
  - destruct (find _ sections) as [section|] eqn:Hf; [|discriminate].
    intros H; apply OrchestratorExtras.returns_inj in H; injection H as <-.
    exists sections; split; [reflexivity|].
    now apply find_some in Hf.
  - destruct (existsb _ _); discriminate.
Qed.

Lemma mcp_classifySection_label_in_list_witness :
  exists sections,
    own_property McpServer.PROCEDURE_SECTIONS (js "abdominal-ultrasound") = Some sections /\
    In (js "Liver") sections.
Proof.
  apply (mcp_classifySection_label_in_list
           (js "левый желудочек, liver enlarged") (js "abdominal-ultrasound")
           (js "Liver")).
  vm_compute; reflexivity.
Defined.

(** The section lists of the service extend those of the MCP server. *)
Lemma service_lists_extend_mcp (procedureType : jsstring) (mcp : list jsstring) :
  own_property McpServer.PROCEDURE_SECTIONS procedureType = Some mcp ->
  exists sections,
    own_property PROCEDURE_SECTIONS procedureType = Some sections /\
    incl mcp sections.
Proof.
  unfold McpServer.PROCEDURE_SECTIONS, PROCEDURE_SECTIONS; cbn [own_property].
  destruct (jsstring_eqb (js "echocardiogram") procedureType).
  - intros H; injection H as <-; eexists; split; [reflexivity|].
    intros x Hx; vm_compute in Hx |- *; tauto.
  - destruct (jsstring_eqb (js "obstetric-ultrasound") procedureType).
    + intros H; injection H as <-; eexists; split; [reflexivity|].
      intros x Hx; vm_compute in Hx |- *; tauto.
    + destruct (jsstring_eqb (js "abdominal-ultrasound") procedureType).
      * intros H; injection H as <-; eexists; split; [reflexivity|].
        intros x Hx; vm_compute in Hx |- *; tauto.
      * discriminate.
Qed.

(** X24: whenever the MCP server's classifier finds a label, the
    service's classifier finds one in its loop too, for the same text and
    procedure type: a label of the service's list for that procedure that
    the text mentions (the service's lists extend the server's). *)
Theorem service_classifies_what_mcp_classifies :
  forall text procedureType label : jsstring,
    McpServer.classifySection text procedureType = returns (Some label) ->
    exists label' sections,
      classifySection text procedureType = returns (Some label') /\
      own_property PROCEDURE_SECTIONS procedureType = Some sections /\
      In label' sections /\
      mentions (toLowerCase text) label' = true.
Proof.
  intros text procedureType label; unfold McpServer.classifySection, McpServer.get_sections.
  destruct (own_property McpServer.PROCEDURE_SECTIONS procedureType) as [mcp|] eqn:Hm.
  - destruct (find _ mcp) as [section|] eqn:Hf; [|discriminate].
    intros H; apply OrchestratorExtras.returns_inj in H; injection H as <-.
    apply find_some in Hf as [Hin Hment].
    destruct (service_lists_extend_mcp _ _ Hm) as (sections & Hown & Hincl).
    unfold classifySection, get_sections; rewrite Hown.
    destruct (find (mentions (toLowerCase text)) sections) as [label'|] eqn:Hf'.
    + exists label', sections; apply find_some in Hf' as [Hin' Hment'].
      repeat split; assumption.
    + exfalso.
      pose proof (find_none _ _ Hf' section (Hincl _ Hin)) as Hno.
      congruence.
  - destruct (existsb _ _); discriminate.
Qed.

Lemma service_classifies_what_mcp_classifies_witness :
  exists label' sections,
    classifySection (js "Pericardium and tricuspid valve") (js "echocardiogram")
      = returns (Some label') /\
    own_property PROCEDURE_SECTIONS (js "echocardiogram") = Some sections /\
    In label' sections /\
    mentions (toLowerCase (js "Pericardium and tricuspid valve")) label' = true.
Proof.
  apply (service_classifies_what_mcp_classifies
           (js "Pericardium and tricuspid valve") (js "echocardiogram")
           (js "Pericardium")).
  vm_compute; reflexivity.
Defined.

End McpExtras.

(** * Measurements do not depend on the case of the transcript *)

Module CaseFacts.
Import JS Enhancement Matching JSFacts.
Local Open Scope N_scope.

Ltac split_eqb :=
  repeat match goal with
         | |- context [N.eqb ?a ?b] => destruct (N.eqb_spec a b); simpl; try lia
         end.

(** What [toLowerCase] does to one code unit. *)
Lemma toLowerCase_unit_cases (c : N) :
  (toLowerCase_unit c = c) \/
  (toLowerCase_unit c = c + 32 /\ 0x41 <= c <= 0x5A) \/
  (toLowerCase_unit c = c + 32 /\ 0x410 <= c <= 0x42F) \/
  (toLowerCase_unit c = c + 80 /\ 0x400 <= c <= 0x40F) \/
  (toLowerCase_unit c = c + 48 /\ 0x531 <= c <= 0x556).
Proof.
  unfold toLowerCase_unit, between.
  destruct (N.leb_spec 0x41 c), (N.leb_spec c 0x5A); simpl; try (right; left; split; [reflexivity | lia]).
  all: destruct (N.leb_spec 0x410 c), (N.leb_spec c 0x42F); simpl;
    try (right; right; left; split; [reflexivity | lia]).
  all: destruct (N.leb_spec 0x400 c), (N.leb_spec c 0x40F); simpl;
    try (right; right; right; left; split; [reflexivity | lia]).
  all: destruct (N.leb_spec 0x531 c), (N.leb_spec c 0x556); simpl;
    try (right; right; right; right; split; [reflexivity | lia]).
  all: left; reflexivity.
Qed.

Ltac by_case_of c :=
  destruct (toLowerCase_unit_cases c) as [-> |[(-> & ?)|[(-> & ?)|[(-> & ?)|(-> & ?)]]]];
  [reflexivity | ..];
  unfold is_word, is_digit, space_or_colon, is_space, between, unit_eqb;
  split_leb; split_eqb; reflexivity.

Lemma is_digit_lower (c : N) : is_digit (toLowerCase_unit c) = is_digit c.
Proof. by_case_of c. Qed.

Lemma is_space_lower (c : N) : is_space (toLowerCase_unit c) = is_space c.
Proof. by_case_of c. Qed.

Lemma space_or_colon_lower (c : N) :
  space_or_colon (toLowerCase_unit c) = space_or_colon c.
Proof. by_case_of c. Qed.

Lemma is_word_lower (c : N) : is_word (toLowerCase_unit c) = is_word c.
Proof. by_case_of c. Qed.

(** A code unit below "A" has no case. *)
Lemma low_unit_lower (c : N) : c < 0x41 -> toLowerCase_unit c = c.
Proof.
  intros H; destruct (toLowerCase_unit_cases c) as [E|[(_ & ?)|[(_ & ?)|[(_ & ?)|(_ & ?)]]]];
    [exact E | lia ..].
Qed.

Lemma digit_lower (c : N) : is_digit c = true -> toLowerCase_unit c = c.
Proof.
  unfold is_digit, between; intros H; apply andb_true_iff in H as [_ H].
  apply N.leb_le in H; apply low_unit_lower; lia.
Qed.

Lemma unit_eqb_lower (c x : N) :
  x < 0x41 -> unit_eqb (toLowerCase_unit c) x = unit_eqb c x.
Proof.
  intros Hx; destruct (toLowerCase_unit_cases c) as [-> |[(-> & ?)|[(-> & ?)|[(-> & ?)|(-> & ?)]]]];
    [reflexivity | ..]; unfold unit_eqb; split_eqb; reflexivity.
Qed.

(** The patterns of [extractMeasurements] are matched the same on the
    lower-cased text: a run of the matcher on the lower-cased state is the
    lower-cased run. *)
Lemma rmatch_lower (r : regex) :
  case_blind r ->
  forall (st : mstate) (k k' : mstate -> option mstate),
    (forall st', k' (lower_state st') = option_map lower_state (k st')) ->
    rmatch true r (lower_state st) k' = option_map lower_state (rmatch true r st k).
Proof.
  induction r as [|p|p|r1 IH1 r2 IH2|r1 IH1 r2 IH2|r IH|r IH|];
    intros Hr st k k' Hk; cbn [rmatch].
  - apply Hk.
  - cbn [lower_state rest toLowerCase map].
    destruct (rest st) as [|c tl]; cbn [toLowerCase map]; [reflexivity|].
    unfold char_matches; rewrite toUpperCase_toLowerCase.
    destruct (unit_eqb _ _); [|reflexivity].
    apply (Hk (advance st c tl)).
  - cbn [lower_state rest].
    destruct (rest st) as [|c tl]; cbn [toLowerCase map]; [reflexivity|].
    cbn [case_blind] in Hr; rewrite Hr.
    destruct (p c); [|reflexivity].
    apply (Hk (advance st c tl)).
  - destruct Hr as [H1 H2].
    apply IH1; [exact H1|].
    intros st'; apply IH2; assumption.
  - destruct Hr as [H1 H2].
    rewrite (IH1 H1 st k k' Hk), (IH2 H2 st k k' Hk).
    destruct (rmatch true r1 st k); reflexivity.
  - cbn [case_blind] in Hr.
    replace (length (rest (lower_state st))) with (length (rest st))
      by (cbn [lower_state rest]; unfold toLowerCase; now rewrite length_map).
    generalize (length (rest st)) as n; intros n; revert st.
    induction n as [|n IHn]; intros st; [apply Hk|].
    rewrite (IH Hr st
               (fun st' => if (endIndex st <? endIndex st')%nat
                           then (fix loop (n : nat) (st : mstate) {struct n} : option mstate :=
                                   match n with
                                   | O => k st
                                   | S n' =>
                                     match rmatch true r st
                                             (fun st' => if (endIndex st <? endIndex st')%nat
                                                         then loop n' st' else None) with
                                     | Some res => Some res
                                     | None => k st
                                     end
                                   end) n st'
                           else None)).
    + rewrite Hk.
      match goal with |- context [option_map _ (rmatch true r st ?f)] =>
        destruct (rmatch true r st f) end; reflexivity.
    + intros st'; cbn [lower_state endIndex].
      destruct (endIndex st <? endIndex st')%nat; [apply IHn | reflexivity].
  - cbn [case_blind] in Hr.
    apply (IH Hr).
    intros st'; cbn [lower_state endIndex prev rest].
    replace (firstn (endIndex st' - endIndex st) (toLowerCase (rest st)))
      with (toLowerCase (firstn (endIndex st' - endIndex st) (rest st)))
      by (unfold toLowerCase; now rewrite firstn_map).
    apply (Hk (MState (endIndex st') (prev st') (rest st')
                      (Some (firstn (endIndex st' - endIndex st) (rest st))))).
  - replace (at_word_boundary (lower_state st)) with (at_word_boundary st).
    + destruct (at_word_boundary st); [apply Hk | reflexivity].
    + unfold at_word_boundary; cbn [lower_state prev rest].
      destruct (prev st), (rest st); cbn [option_map toLowerCase map];
        rewrite ?is_word_lower; reflexivity.
Qed.

Lemma exec_from_lower (r : regex) :
  case_blind r ->
  forall (s : jsstring) (i : nat) (p : option N),
    exec_from true r i (option_map toLowerCase_unit p) (toLowerCase s) =
    option_map lower_state (exec_from true r i p s).
Proof.
  intros Hr; induction s as [|c s IH]; intros i p; cbn [exec_from toLowerCase map];
    unfold match_here.
  - change (MState i (option_map toLowerCase_unit p) [] None)
      with (lower_state (MState i p [] None)).
    rewrite (rmatch_lower r Hr (MState i p [] None) Some Some (fun _ => eq_refl)).
    destruct (rmatch true r _ Some); reflexivity.
  - change (MState i (option_map toLowerCase_unit p)
                   (toLowerCase_unit c :: map toLowerCase_unit s) None)
      with (lower_state (MState i p (c :: s) None)).
    rewrite (rmatch_lower r Hr (MState i p (c :: s) None) Some Some (fun _ => eq_refl)).
    destruct (rmatch true r _ Some); [reflexivity|].
    apply (IH (S i) (Some c)).
Qed.

Lemma exec_lower (r : regex) (s : jsstring) :
  case_blind r ->
  exec true r (toLowerCase s) = option_map lower_state (exec true r s).
Proof. intros Hr; exact (exec_from_lower r Hr s 0%nat None). Qed.

Lemma group_lower (m : mstate) : group (lower_state m) = toLowerCase (group m).
Proof. unfold group; cbn [lower_state group1]; destruct (group1 m); reflexivity. Qed.

Lemma skip_space_lower (s : jsstring) :
  skip_space (toLowerCase s) = toLowerCase (skip_space s).
Proof.
  induction s as [|c s IH]; [reflexivity|]; cbn [toLowerCase map skip_space].
  rewrite is_space_lower; destruct (is_space c); [exact IH | reflexivity].
Qed.

(** The digits at the front of a text are the same in either case. *)
Lemma take_digits_lower (s : jsstring) :
  take_digits (toLowerCase s) =
  (fst (take_digits s), toLowerCase (snd (take_digits s))).
Proof.
  induction s as [|c s IH]; [reflexivity|]; cbn [toLowerCase map take_digits].
  rewrite is_digit_lower; destruct (is_digit c) eqn:Hc; [|reflexivity].
  unfold toLowerCase in IH; rewrite IH, (digit_lower c Hc).
  destruct (take_digits s); reflexivity.
Qed.

Lemma parseInt_lower (s : jsstring) : parseInt (toLowerCase s) = parseInt s.
Proof.
  unfold parseInt; rewrite skip_space_lower.
  destruct (skip_space s) as [|c tl]; [reflexivity|].
  cbn [toLowerCase map].
  rewrite !unit_eqb_lower by lia.
  destruct (unit_eqb c 0x2D); [|destruct (unit_eqb c 0x2B)].
  - change (map toLowerCase_unit tl) with (toLowerCase tl).
    rewrite take_digits_lower; destruct (take_digits tl) as [[|] ?]; reflexivity.
  - change (map toLowerCase_unit tl) with (toLowerCase tl).
    rewrite take_digits_lower; destruct (take_digits tl) as [[|] ?]; reflexivity.
  - change (toLowerCase_unit c :: map toLowerCase_unit tl) with (toLowerCase (c :: tl)).
    rewrite take_digits_lower; destruct (take_digits (c :: tl)) as [[|] ?]; reflexivity.
Qed.

Lemma parseFloat_lower (s : jsstring) : parseFloat (toLowerCase s) = parseFloat s.
Proof.
  unfold parseFloat; rewrite skip_space_lower, take_digits_lower.
  destruct (take_digits (skip_space s)) as [[|d ds] tl]; [reflexivity|].
  cbn [fst snd]; destruct tl as [|c tl]; [reflexivity|].
  cbn [toLowerCase map]; rewrite unit_eqb_lower by lia.
  destruct (unit_eqb c 0x2E); [|reflexivity].
  change (map toLowerCase_unit tl) with (toLowerCase tl).
  rewrite take_digits_lower; destruct (take_digits tl); reflexivity.
Qed.

Lemma case_blind_Str (l : jsstring) : case_blind (Str l).
Proof. induction l; simpl; auto. Qed.

Lemma case_blind_Seq (r1 r2 : regex) :
  case_blind r1 -> case_blind r2 -> case_blind (Seq r1 r2).
Proof. intros H1 H2; exact (conj H1 H2). Qed.

Lemma case_blind_Opt (r : regex) : case_blind r -> case_blind (Opt r).
Proof. intros H; exact (conj H I). Qed.

Lemma case_blind_Star (r : regex) : case_blind r -> case_blind (Star r).
Proof. intros H; exact H. Qed.

Lemma case_blind_Plus (r : regex) : case_blind r -> case_blind (Plus r).
Proof. intros H; exact (conj H H). Qed.

Lemma case_blind_Capture (r : regex) : case_blind r -> case_blind (Capture r).
Proof. intros H; exact H. Qed.

Lemma case_blind_Alts (rs : list regex) :
  Forall case_blind rs -> case_blind (Alts rs).
Proof.
  induction 1 as [|r rs Hr Hrs IH]; [intros c; reflexivity|].
  destruct rs; [exact Hr | exact (conj Hr IH)].
Qed.

Lemma case_blind_Alts_Str (lits : list jsstring) : case_blind (Alts (map Str lits)).
Proof.
  apply case_blind_Alts, Forall_forall; intros r Hr.
  apply in_map_iff in Hr as (l & <- & _); apply case_blind_Str.
Qed.

Ltac blind :=
  lazymatch goal with
  | |- case_blind (Plus _) => apply case_blind_Plus; blind
  | |- case_blind (Opt _) => apply case_blind_Opt; blind
  | |- case_blind (Seq _ _) => apply case_blind_Seq; blind
  | |- case_blind (Star _) => apply case_blind_Star; blind
  | |- case_blind (Capture _) => apply case_blind_Capture; blind
  | |- case_blind (Str _) => apply case_blind_Str
  | |- case_blind (Class space_or_colon) => exact space_or_colon_lower
  | |- case_blind (Class is_digit) => exact is_digit_lower
  | |- case_blind (Class is_space) => exact is_space_lower
  | |- case_blind (Lit _) => exact I
  end.

Lemma efPattern_case_blind : case_blind efPattern.
Proof.
  unfold efPattern; apply case_blind_Seq;
    [exact (case_blind_Alts_Str [js "ejection fraction"; js "EF"; js "ФВ";
                                 js "фракция выброса"]) | blind].
Qed.

Lemma bpdPattern_case_blind : case_blind bpdPattern.
Proof.
  unfold bpdPattern; apply case_blind_Seq;
    [exact (case_blind_Alts_Str [js "BPD"; js "biparietal diameter"; js "БПР"])|].
  do 3 (apply case_blind_Seq; [blind|]).
  apply case_blind_Opt; exact (case_blind_Alts_Str [js "mm"; js "cm"]).
Qed.

Lemma gaPattern_case_blind : case_blind gaPattern.
Proof.
  unfold gaPattern; apply case_blind_Seq;
    [exact (case_blind_Alts_Str [js "gestational age"; js "GA";
                                 js "срок беременности"])|].
  do 3 (apply case_blind_Seq; [blind|]).
  apply case_blind_Opt, case_blind_Alts.
  repeat constructor; blind.
Qed.

Lemma hrPattern_case_blind : case_blind hrPattern.
Proof.
  unfold hrPattern; apply case_blind_Seq;
    [exact (case_blind_Alts_Str [js "heart rate"; js "HR"; js "ЧСС"])|].
  do 3 (apply case_blind_Seq; [blind|]).
  apply case_blind_Opt; exact (case_blind_Alts_Str [js "bpm"; js "уд/мин"]).
Qed.

End CaseFacts.

Module CaseExtras.
Import JS Enhancement Matching JSFacts CaseFacts.

(** X11: [extractMeasurements] does not depend on the case of the
    transcript: the lower-cased transcript gives the same four
    measurements. *)
Theorem extractMeasurements_ignores_case :
  forall transcript : jsstring,
    extractMeasurements (toLowerCase transcript) = extractMeasurements transcript.
Proof.
  intros t; unfold extractMeasurements.
  rewrite (exec_lower efPattern t efPattern_case_blind),
          (exec_lower bpdPattern t bpdPattern_case_blind),
          (exec_lower gaPattern t gaPattern_case_blind),
          (exec_lower hrPattern t hrPattern_case_blind).
  f_equal.
  - destruct (exec true efPattern t); [|reflexivity]; cbn [option_map].
    now rewrite group_lower, parseInt_lower.
  - destruct (exec true bpdPattern t); [|reflexivity]; cbn [option_map].
    now rewrite group_lower, parseFloat_lower.
  - destruct (exec true gaPattern t); [|reflexivity]; cbn [option_map].
    now rewrite group_lower, parseInt_lower.
  - destruct (exec true hrPattern t); [|reflexivity]; cbn [option_map].
    now rewrite group_lower, parseInt_lower.
Qed.

End CaseExtras.
